(** * tlsh-selector: greedy diverse-file selection and the TLSH hash cache

    A shallow embedding of [tlsh_selector/selector.py], [hash_utils.py] and
    [parallel.py], and the properties of the selection algorithm and of the
    cache that the specification states.

    Conventions of the embedding.
    - Python exceptions are values of [exn]; a call that may raise returns
      [res A].
    - A Python [dict] keeps insertion order, and the selector enumerates its
      candidates with [list(d.keys())]: dictionaries are association lists
      with unique keys, [dict_set] overwriting in place or appending.
    - The [float32] array [min_distances] only ever holds [inf], the marker
      [-1] and TLSH scores. A [float32] holds every integer up to [2^24]
      exactly and rounds beyond; its cells are modelled as exact integers
      ([f32]), and the theorem on the pick of a round, which depends on the
      exact value, takes scores of at most [2^24].
    - [os.stat] and [open] on a path succeed, fail with
      [FileNotFoundError], or fail with another [OSError]
      ([NotADirectoryError], [PermissionError], ...): a file system maps a
      path to a [node], [Present], [Absent] or [Denied].
    - Mutable objects ([CacheManager], [FileSelector]) and the environment
      (files, the cache file on disk, the module-level generator of
      [random]) are passed explicitly; a method returns the object it
      leaves behind. Progress display and timing are left out.
    - [tlsh.hash], [tlsh.diff] and Python's random generator are external:
      they are variables of the section that holds the model, and what is
      assumed of them ([tlsh.diff] is non-negative, [random.randint(a, b)]
      lies in [[a, b]]) is a hypothesis of the lemmas that need it.
    - Modification times are integers; a cache file is either absent,
      unreadable or a dictionary of well-formed entries; writing it
      succeeds (a write that fails raises [CacheError], which the one
      statement it matters to excludes). *)

From Stdlib Require Import ZArith List String Ascii Bool Lia Arith.
From Stdlib Require Import Permutation DecimalString.
Import ListNotations.

Local Open Scope string_scope.
Local Open Scope list_scope.
Local Open Scope Z_scope.

(* ================================================================== *)
(** ** Python runtime: exceptions, results, lists, ordered dictionaries *)
(* ================================================================== *)

Inductive exn : Type :=
| ValueError (msg : string)
| KeyError (key : string)
| IndexError
| OSFileNotFoundError (path : string)   (* the builtin FileNotFoundError *)
| OSError (msg : string)
| InvalidHashError (msg : string)
| InsufficientFilesError (msg : string)
| CacheError (msg : string).

Inductive res (A : Type) : Type :=
| Ok (a : A)
| Raise (e : exn).
Arguments Ok {A} a.
Arguments Raise {A} e.

Definition bind {A B} (m : res A) (f : A -> res B) : res B :=
  match m with
  | Ok a => f a
  | Raise e => Raise e
  end.

Notation "x <- m ;; k" := (bind m (fun x => k))
  (at level 61, m at next level, right associativity).
Notation "' p <- m ;; k" := (bind m (fun x => let p := x in k))
  (at level 61, p pattern, m at next level, right associativity).

(** [str(n)] for an [int]. *)
Definition str_int (z : Z) : string := NilZero.string_of_int (Z.to_int z).

(** [len(l)] *)
Definition len {A} (l : list A) : Z := Z.of_nat (List.length l).

(** [l[i]] for [0 <= i]; out of range raises [IndexError]. *)
Definition getitem {A} (l : list A) (i : nat) : res A :=
  match nth_error l i with
  | Some x => Ok x
  | None => Raise IndexError
  end.

(** [l[i] = x] on an array, for [i] in range. *)
Fixpoint setitem {A} (l : list A) (i : nat) (x : A) : list A :=
  match l, i with
  | [], _ => []
  | _ :: t, O => x :: t
  | h :: t, S i' => h :: setitem t i' x
  end.

(** [l.index(x)]: the first position holding [x]. *)
Fixpoint list_index (l : list string) (x : string) : res nat :=
  match l with
  | [] => Raise (ValueError "x not in list")
  | y :: t =>
      if String.eqb y x then Ok O
      else i <- list_index t x ;; Ok (S i)
  end.

(** [[f(x) for x in l]] where [f] may raise. *)
Fixpoint mapM {A B} (f : A -> res B) (l : list A) : res (list B) :=
  match l with
  | [] => Ok []
  | x :: t => y <- f x ;; ys <- mapM f t ;; Ok (y :: ys)
  end.

(** [for x in l: s = body(s, x)] where the body may raise. *)
Fixpoint foldM {A S} (body : S -> A -> res S) (l : list A) (s : S) : res S :=
  match l with
  | [] => Ok s
  | x :: t => s' <- body s x ;; foldM body t s'
  end.

Definition dict (V : Type) : Type := list (string * V).

Fixpoint dict_get {V} (d : dict V) (k : string) : option V :=
  match d with
  | [] => None
  | (k', v) :: d' => if String.eqb k' k then Some v else dict_get d' k
  end.

(** [k in d] *)
Definition dict_mem {V} (d : dict V) (k : string) : bool :=
  match dict_get d k with Some _ => true | None => false end.

(** [d[k]] *)
Definition dict_getitem {V} (d : dict V) (k : string) : res V :=
  match dict_get d k with
  | Some v => Ok v
  | None => Raise (KeyError k)
  end.

(** [d[k] = v]: an existing key keeps its position, a new key goes last. *)
Fixpoint dict_set {V} (d : dict V) (k : string) (v : V) : dict V :=
  match d with
  | [] => [(k, v)]
  | (k', v') :: d' =>
      if String.eqb k' k then (k', v) :: d' else (k', v') :: dict_set d' k v
  end.

(** [list(d.keys())] *)
Definition dict_keys {V} (d : dict V) : list string := map fst d.

(** [d.update(d2)] *)
Definition dict_update {V} (d d2 : dict V) : dict V :=
  fold_left (fun acc kv => dict_set acc (fst kv) (snd kv)) d2 d.

(* ================================================================== *)
(** ** The cells of the [float32] array [min_distances] *)
(* ================================================================== *)

Inductive f32 : Type :=
| NegInf
| Fin (z : Z)
| PosInf.

Definition f32_eqb (a b : f32) : bool :=
  match a, b with
  | NegInf, NegInf => true
  | PosInf, PosInf => true
  | Fin x, Fin y => x =? y
  | _, _ => false
  end.

Definition f32_ltb (a b : f32) : bool :=
  match a, b with
  | _, NegInf => false
  | NegInf, _ => true
  | PosInf, _ => false
  | Fin _, PosInf => true
  | Fin x, Fin y => x <? y
  end.

Definition f32_gtb (a b : f32) : bool := f32_ltb b a.

Definition f32_leb (a b : f32) : bool := negb (f32_ltb b a).

(** [min(a, b)] *)
Definition f32_min (a b : f32) : f32 := if f32_ltb b a then b else a.

(** The marker of an already selected candidate. *)
Definition SELECTED : f32 := Fin (-1).

(* ================================================================== *)
(** ** The environment: files, the persisted cache, scheduling, the log *)
(* ================================================================== *)

(** What [open(path, "rb").read()] gives for an existing file. *)
Inductive content : Type :=
| Readable (data : list Byte.byte)
| Unreadable (msg : string).

(** An existing file: its content and what [os.stat] reports
    ([st_mtime], [st_size]). *)
Record File : Type := mkFile {
  f_content : content;
  f_mtime : Z;
  f_size : Z
}.

(** What an access to a path meets: nothing ([FileNotFoundError]), a failure
    of another kind ([NotADirectoryError] below a regular file,
    [PermissionError] in a directory that cannot be searched; an [OSError]
    with its message), or a file. *)
Inductive node : Type :=
| Absent
| Denied (msg : string)
| Present (f : File).

Definition filesystem : Type := string -> node.

(** The files of a dictionary, and nothing else. *)
Definition lookup (files : dict File) : filesystem :=
  fun p => match dict_get files p with Some f => Present f | None => Absent end.

(** One entry of [CacheManager._cache]: [{"hash", "mtime", "size"}]. *)
Record CacheEntry : Type := mkEntry {
  e_hash : string;
  e_mtime : Z;
  e_size : Z
}.

Inductive cache_format : Type := pickle | json.

Definition format_name (f : cache_format) : string :=
  match f with pickle => "pickle" | json => "json" end.

(** The cache file of a directory, as found on disk. *)
Inductive snapshot : Type :=
| NoFile
| Corrupt (msg : string)
| Snapshot (d : dict CacheEntry).

Definition disk : Type := string -> snapshot.

Definition disk_write (dk : disk) (path : string) (d : dict CacheEntry) : disk :=
  fun p => if String.eqb p path then Snapshot d else dk p.

(** Calls that leave the selector, in the order they are made. *)
Inductive event : Type :=
| EvComputeHashes (paths : list string)   (* compute_hashes_parallel(paths) *)
| EvGreedy (candidates : list string) (n_select : Z).
                                          (* _greedy_selection(candidates, n_select) *)

(** The state a call runs in. [w_rng] is the state of the module-level
    generator of [random]; [w_sched] lists, for a worker pool, which of the
    pending futures completes next. *)
Record World (G : Type) : Type := mkWorld {
  w_fs : filesystem;
  w_disk : disk;
  w_rng : G;
  w_cpu_count : positive;
  w_sched : list nat;
  w_log : list event
}.
Arguments mkWorld {G}.
Arguments w_fs {G}.
Arguments w_disk {G}.
Arguments w_rng {G}.
Arguments w_cpu_count {G}.
Arguments w_sched {G}.
Arguments w_log {G}.

Definition set_rng {G} (w : World G) (g : G) : World G :=
  mkWorld (w_fs w) (w_disk w) g (w_cpu_count w) (w_sched w) (w_log w).

Definition set_disk {G} (w : World G) (dk : disk) : World G :=
  mkWorld (w_fs w) dk (w_rng w) (w_cpu_count w) (w_sched w) (w_log w).

Definition log_event {G} (w : World G) (e : event) : World G :=
  mkWorld (w_fs w) (w_disk w) (w_rng w) (w_cpu_count w) (w_sched w)
          (w_log w ++ [e]).

(** [as_completed(futures)]: the futures in the order they complete. At each
    step the scheduler's next choice picks one of the pending futures. *)
Fixpoint remove_nth {A} (i : nat) (l : list A) : list A :=
  match l, i with
  | [], _ => []
  | _ :: t, O => t
  | h :: t, S i' => h :: remove_nth i' t
  end.

Fixpoint complete {A} (fuel : nat) (choices : list nat) (pending : list A)
  : list A :=
  match fuel with
  | O => []
  | S fuel' =>
      let c := Nat.modulo (hd O choices) (List.length pending) in
      match nth_error pending c with
      | Some x => x :: complete fuel' (tl choices) (remove_nth c pending)
      | None => []
      end
  end.

Definition as_completed {A} (choices : list nat) (futures : list A) : list A :=
  complete (List.length futures) choices futures.

(** [range(n)] *)
Definition range (n : Z) : list nat := seq 0 (Z.to_nat n).

(* ================================================================== *)
(** ** hash_utils.py: the cache manager *)
(* ================================================================== *)

Record CacheManager : Type := mkCacheManager {
  cache_dir : string;
  format : cache_format;
  _cache : dict CacheEntry;
  _dirty : bool
}.

Definition cache_file (self : CacheManager) : string :=
  cache_dir self ++ "/tlsh_cache." ++ format_name (format self).

Definition _load_cache (self : CacheManager) (dk : disk) : res CacheManager :=
  match dk (cache_file self) with
  | NoFile =>
      Ok (mkCacheManager (cache_dir self) (format self) [] (_dirty self))
  | Snapshot d =>
      Ok (mkCacheManager (cache_dir self) (format self) d (_dirty self))
  | Corrupt e =>
      Raise (CacheError
               ("Failed to load cache from " ++ cache_file self ++ ": " ++ e))
  end.

(** [CacheManager(cache_dir, format)] *)
Definition CacheManager_init (cache_dir : string) (format : cache_format)
    (dk : disk) : res CacheManager :=
  _load_cache (mkCacheManager cache_dir format [] false) dk.

(** The write of the whole snapshot is taken to succeed. *)
Definition _save_cache (self : CacheManager) (dk : disk) : CacheManager * disk :=
  if negb (_dirty self) then (self, dk)
  else (mkCacheManager (cache_dir self) (format self) (_cache self) false,
        disk_write dk (cache_file self) (_cache self)).

(** [os.stat(file_path)] *)
Definition _get_file_metadata (fs : filesystem) (file_path : string)
  : res (Z * Z) :=
  match fs file_path with
  | Present f => Ok (f_mtime f, f_size f)
  | Absent => Raise (OSFileNotFoundError file_path)
  | Denied msg => Raise (OSError msg)
  end.

Definition _is_cache_valid (self : CacheManager) (fs : filesystem)
    (file_path : string) : res bool :=
  if negb (dict_mem (_cache self) file_path) then Ok false
  else
    match
      (' (current_mtime, current_size) <- _get_file_metadata fs file_path ;;
       e <- dict_getitem (_cache self) file_path ;;
       Ok ((current_mtime =? e_mtime e) && (current_size =? e_size e)))
    with
    | Ok valid => Ok valid
    | Raise (OSFileNotFoundError _) | Raise (KeyError _) => Ok false
    | Raise e => Raise e
    end.

(** Every method returns the manager it leaves behind, also when it
    raises. *)
Definition get (self : CacheManager) (fs : filesystem) (file_path : string)
  : res (option string) * CacheManager :=
  (valid <- _is_cache_valid self fs file_path ;;
   if valid : bool then
     e <- dict_getitem (_cache self) file_path ;; Ok (Some (e_hash e))
   else Ok None,
   self).

Definition set (self : CacheManager) (fs : filesystem) (file_path : string)
    (hash_value : string) : res unit * CacheManager :=
  match _get_file_metadata fs file_path with
  | Ok (mtime, size) =>
      (Ok tt,
       mkCacheManager (cache_dir self) (format self)
         (dict_set (_cache self) file_path (mkEntry hash_value mtime size))
         true)
  | Raise (OSFileNotFoundError _) => (Ok tt, self)   (* pass *)
  | Raise e => (Raise e, self)
  end.

Definition get_all_hashes (self : CacheManager) (fs : filesystem)
  : res (dict string) * CacheManager :=
  (foldM
     (fun result item =>
        let '(file_path, data) := item in
        valid <- _is_cache_valid self fs file_path ;;
        if valid : bool
        then Ok (dict_set result file_path (e_hash data))
        else Ok result)
     (_cache self) [],
   self).

Definition clear (self : CacheManager) (dk : disk) : CacheManager * disk :=
  _save_cache (mkCacheManager (cache_dir self) (format self) [] true) dk.

Definition save (self : CacheManager) (dk : disk) : CacheManager * disk :=
  _save_cache self dk.

(* ================================================================== *)
(** ** The model, over the external collaborators *)
(* ================================================================== *)

Record SelectionResult : Type := mkSelectionResult {
  indices : list nat;
  file_paths : list string;
  hashes : option (dict string);
  diversity_scores : option (list f32)
  (* elapsed_time is a wall-clock reading and is left out *)
}.

Record FileSelector : Type := mkFileSelector {
  _cache_dir : option string;
  _cache_manager : option CacheManager;
  _n_jobs : Z;
  _verbose : bool;
  _hash_dict : dict string
}.

Definition set_hash_dict (self : FileSelector) (d : dict string) : FileSelector :=
  mkFileSelector (_cache_dir self) (_cache_manager self) (_n_jobs self)
                 (_verbose self) d.

Definition set_cache_manager (self : FileSelector) (cm : option CacheManager)
  : FileSelector :=
  mkFileSelector (_cache_dir self) cm (_n_jobs self) (_verbose self)
                 (_hash_dict self).

(** Truth value of an optional string: [None] and [""] are falsy. *)
Definition truthy (s : option string) : bool :=
  match s with
  | Some s' => negb (String.eqb s' "")
  | None => false
  end.

(* ================================================================== *)
(** ** A small instance on which the model runs *)
(* ================================================================== *)

Module Toy.

(** Stand-ins for the external collaborators. The hash of a file is its
    content, so that an empty file has none; the score of two hashes is the
    difference of their lengths. *)
Definition hash (data : list Byte.byte) : string := string_of_list_byte data.

Definition diff (a b : string) : Z :=
  Z.abs (Z.of_nat (String.length a) - Z.of_nat (String.length b)).

(** A generator whose state is a counter. *)
Definition seed (s : Z) : Z := s.

Definition randint (g a b : Z) : Z * Z := (a + g mod (b - a + 1), g + 1).

(** The message for an empty range, as CPython 3.9 words it. *)
Definition empty_range (a b : Z) : string :=
  "empty range for randrange() (" ++ str_int a ++ ", " ++ str_int (b + 1)
  ++ ", " ++ str_int (b + 1 - a) ++ ")".

Definition file_name (i : nat) : string := "f" ++ str_int (Z.of_nat i).

Definition file_of_size (n : nat) (mtime : Z) : File :=
  mkFile (Readable (repeat Byte.x61 n)) mtime (Z.of_nat n).

(** Ten files [f0 .. f9]; [fi] holds [i + 1] bytes, so that the distance
    between [fi] and [fj] is [|i - j|]. *)
Definition files10 : dict File :=
  map (fun i => (file_name i, file_of_size (S i) 100)) (seq 0 10).

Definition fs10 : filesystem := lookup files10.

Definition paths10 : list string := map file_name (seq 0 10).

Definition hashes10 : dict string :=
  map (fun i => (file_name i, hash (repeat Byte.x61 (S i)))) (seq 0 10).

Definition no_disk : disk := fun _ => NoFile.

Definition world10 (g : Z) : World Z :=
  mkWorld fs10 no_disk g 4%positive [] [].

Definition selector10 : FileSelector :=
  mkFileSelector None None 1 false hashes10.

(** A selector that has not selected yet, without cache. *)
Definition fresh_selector : FileSelector :=
  mkFileSelector None None 1 false [].

(** Another state of the same files: another generator state, two
    processors, a schedule, an earlier call in the log. *)
Definition world10' : World Z :=
  mkWorld fs10 no_disk 99 2%positive [5; 5]%nat [EvComputeHashes ["f0"]].

(** A worker pool that completes its third pending future first. *)
Definition world10_sched : World Z :=
  mkWorld fs10 no_disk 7 4%positive [2]%nat [].

(** The file system after [f1] was rewritten (same size, later time), [f2]
    has grown and [f3] was deleted. *)
Definition fs10_later : filesystem :=
  fun p =>
    if String.eqb p "f1" then Present (file_of_size 2 200)
    else if String.eqb p "f2" then Present (file_of_size 7 100)
    else if String.eqb p "f3" then Absent
    else fs10 p.

Definition manager0 : CacheManager := mkCacheManager "/c" pickle [] false.

(** Four files of the same content: all distances are 0. *)
Definition paths_same : list string := ["a"; "b"; "c"; "d"].

Definition fs_same : filesystem :=
  lookup (map (fun p => (p, file_of_size 2 100)) paths_same).

Definition world_same : World Z :=
  mkWorld fs_same no_disk 7 4%positive [] [].

End Toy.


(* ================================================================== *)
(** ** Calls that can also end in [ZeroDivisionError] *)
(* ================================================================== *)

(** What a call of [compute_distances_parallel] ends with: a result, an
    exception of [exn], or the [ZeroDivisionError] of [len // 0]. *)
Variant outcome (A : Type) : Type :=
| Done (r : res A)
| ZeroDivisionError.
Arguments Done {A} r.
Arguments ZeroDivisionError {A}.

(* ================================================================== *)
(** ** Further instances for the cache *)
(* ================================================================== *)

Module ToyCache.

(** The toy score, capped at the largest integer up to which a [float32]
    holds every integer exactly. *)
Definition diff24 (a b : string) : Z := Z.min (Toy.diff a b) (2 ^ 24).

(** A file system in which the directory [d] has become a regular file:
    [os.stat] and [open] fail below it with [NotADirectoryError]. *)
Definition fs_blocked : filesystem :=
  fun p =>
    if String.eqb p "d/f" then Denied "[Errno 20] Not a directory: 'd/f'"
    else Toy.fs10 p.

(** The same place while [d] was a directory that held the file [f]. *)
Definition fs_before : filesystem :=
  fun p =>
    if String.eqb p "d/f" then Present (Toy.file_of_size 5 100)
    else Toy.fs10 p.

(** A manager that holds the hash of [f1] and a stale entry for [f2]. *)
Definition warm_manager : CacheManager :=
  snd (set (snd (set Toy.manager0 Toy.fs10 "f1" "aa"))
           Toy.fs10_later "f2" "aaaaaaa").

(** A selector with that cache and a pool of two workers. *)
Definition cached_selector : FileSelector :=
  mkFileSelector (Some "/c") (Some warm_manager) 2 false [].

Definition some_paths : list string := ["f1"; "missing"; "f2"; "f3"; "f1"].

(** A thousand candidates: each of the ten files a hundred times. *)
Definition paths1000 : list string :=
  flat_map (fun p => repeat p 100) Toy.paths10.

(** A cache directory whose file cannot be loaded. *)
Definition bad_disk : disk :=
  fun p =>
    if String.eqb p "/c/tlsh_cache.pickle"
    then Corrupt "pickle data was truncated"
    else NoFile.

Definition world_bad : World Z :=
  mkWorld Toy.fs10 bad_disk 7 4%positive [] [].

End ToyCache.
Section Model.

(** [tlsh.hash(data)]; the empty string is its falsy result. *)
Variable tlsh_hash : list Byte.byte -> string.
(** [tlsh.diff(h1, h2)], an integer score; it is taken to return for every
    pair of hashes (the library raises on a string that is no digest). *)
Variable tlsh_diff : string -> string -> Z.
(** The generator of [random]: the state [random.seed(s)] sets, and
    [random.randint(a, b)], which returns the draw and the next state. *)
Variable G : Type.
Variable random_seed : Z -> G.
Variable random_randint : G -> Z -> Z -> Z * G.
(** The message of the [ValueError] that [random.randint(a, b)] raises for
    an empty range; it is not the same in every version of Python. *)
Variable random_empty_range : Z -> Z -> string.

(* ---------------------------------------------------------------- *)
(** *** hash_utils.py: compute_tlsh_hash *)

Definition open_read (fs : filesystem) (file_path : string)
  : res (list Byte.byte) :=
  match fs file_path with
  | Absent => Raise (OSFileNotFoundError file_path)
  | Denied msg => Raise (OSError msg)
  | Present f =>
      match f_content f with
      | Readable data => Ok data
      | Unreadable msg => Raise (OSError msg)
      end
  end.

(** [str(e)] *)
Definition exn_str (e : exn) : string :=
  match e with
  | ValueError m | OSError m | InvalidHashError m
  | InsufficientFilesError m | CacheError m => m
  | KeyError k => k
  | IndexError => "list index out of range"
  | OSFileNotFoundError p => "No such file or directory: " ++ p
  end.

Definition compute_tlsh_hash (fs : filesystem) (file_path : string)
  : res string :=
  match
    (data <- open_read fs file_path ;;
     let hash_value := tlsh_hash data in
     if String.eqb hash_value "" then
       Raise (InvalidHashError
                ("Failed to compute TLSH hash for " ++ file_path
                 ++ " (file may be too small)"))
     else Ok hash_value)
  with
  | Ok hash_value => Ok hash_value
  | Raise (OSFileNotFoundError _) =>
      Raise (InvalidHashError ("File not found: " ++ file_path))
  | Raise e =>
      Raise (InvalidHashError
               ("Error computing TLSH hash for " ++ file_path ++ ": "
                ++ exn_str e))
  end.

(* ---------------------------------------------------------------- *)
(** *** parallel.py *)

Definition _compute_hash_worker (fs : filesystem) (file_path : string)
  : string * option string :=
  match compute_tlsh_hash fs file_path with
  | Ok hash_value => (file_path, Some hash_value)
  | Raise _ => (file_path, None)
  end.

Definition compute_hashes_parallel {W} (w : World W)
    (file_paths : list string) (n_jobs : Z) (verbose : bool)
  : res (dict string) :=
  let n_jobs := if n_jobs =? -1 then Z.pos (w_cpu_count w) else n_jobs in
  if n_jobs =? 1 then
    (* sequential processing *)
    Ok (fold_left
          (fun results file_path =>
             match compute_tlsh_hash (w_fs w) file_path with
             | Ok hash_value => dict_set results file_path hash_value
             | Raise _ => results         (* skip files that fail *)
             end)
          file_paths [])
  else if n_jobs <=? 0 then
    (* ProcessPoolExecutor(max_workers=n_jobs) *)
    Raise (ValueError "max_workers must be greater than 0")
  else
    let futures := map (_compute_hash_worker (w_fs w)) file_paths in
    Ok (fold_left
          (fun results future =>
             let '(file_path, hash_value) := future in
             match hash_value with
             | Some h => dict_set results file_path h
             | None => results
             end)
          (as_completed (w_sched w) futures) []).

(* ---------------------------------------------------------------- *)
(** *** selector.py: FileSelector *)

(** The cache pass of [_compute_or_load_hashes]: one lookup per input
    position. The state is [(hash_dict, files_to_compute, manager)]. *)
Definition check_cache_step (fs : filesystem)
    (st : dict string * list string * CacheManager) (file_path : string)
  : res (dict string * list string * CacheManager) :=
  let '(hash_dict, files_to_compute, cm) := st in
  let '(r, cm') := get cm fs file_path in
  cached_hash <- r ;;
  if truthy cached_hash then
    match cached_hash with
    | Some h => Ok (dict_set hash_dict file_path h, files_to_compute, cm')
    | None => Ok (hash_dict, files_to_compute, cm')
    end
  else Ok (hash_dict, (files_to_compute ++ [file_path])%list, cm').

(** The loop that stores the computed hashes. The manager is returned as
    the loop leaves it, also when a [set] raises. *)
Fixpoint update_cache (fs : filesystem) (computed_hashes : dict string)
    (cm : CacheManager) : res unit * CacheManager :=
  match computed_hashes with
  | [] => (Ok tt, cm)
  | (file_path, hash_value) :: rest =>
      let '(r, cm) := set cm fs file_path hash_value in
      match r with
      | Ok _ => update_cache fs rest cm
      | Raise e => (Raise e, cm)
      end
  end.

Definition _compute_or_load_hashes (self : FileSelector)
    (file_paths : list string) (verbose : bool) (w : World G)
  : res (dict string) * FileSelector * World G :=
  (* check cache first *)
  let checked :=
    match _cache_manager self with
    | Some cm =>
        ' (hash_dict, files_to_compute, cm') <-
          foldM (check_cache_step (w_fs w)) file_paths ([], [], cm) ;;
        Ok (hash_dict, files_to_compute, Some cm')
    | None => Ok ([], file_paths, None)
    end in
  match checked with
  | Raise e => (Raise e, self, w)
  | Ok (hash_dict, files_to_compute, cm) =>
      let self := set_cache_manager self cm in
      (* compute missing hashes *)
      match files_to_compute with
      | [] => (Ok hash_dict, self, w)
      | _ :: _ =>
          let w := log_event w (EvComputeHashes files_to_compute) in
          match compute_hashes_parallel w files_to_compute (_n_jobs self)
                                        verbose with
          | Raise e => (Raise e, self, w)
          | Ok computed_hashes =>
              let hash_dict := dict_update hash_dict computed_hashes in
              (* update cache *)
              match cm with
              | Some cm =>
                  let '(r, cm) := update_cache (w_fs w) computed_hashes cm in
                  match r with
                  | Ok _ => (Ok hash_dict, set_cache_manager self (Some cm), w)
                  | Raise e => (Raise e, set_cache_manager self (Some cm), w)
                  end
              | None => (Ok hash_dict, set_cache_manager self None, w)
              end
          end
      end
  end.

(** Loop state of [_greedy_selection]. *)
Record Greedy : Type := mkGreedy {
  selected_indices : list nat;
  scores : list f32;
  min_distances : list f32
}.

(** Body of the inner loop [for idx in range(n)]; the state is
    [(min_distances, max_min_distance, next_idx)], with [None] for the
    initial [next_idx = -1]. *)
Definition scan_step (hash_dict : dict string) (file_paths : list string)
    (current_hash : string) (st : list f32 * f32 * option nat) (idx : nat)
  : res (list f32 * f32 * option nat) :=
  let '(min_distances, max_min_distance, next_idx) := st in
  m <- getitem min_distances idx ;;
  if f32_eqb m SELECTED then Ok st       (* already selected *)
  else
    path <- getitem file_paths idx ;;
    candidate_hash <- dict_getitem hash_dict path ;;
    let distance := Fin (tlsh_diff current_hash candidate_hash) in
    (* update minimum distance for this candidate *)
    let m' := if f32_eqb m PosInf then distance else f32_min m distance in
    let min_distances := setitem min_distances idx m' in
    (* track file with maximum minimum distance *)
    if f32_gtb m' max_min_distance
    then Ok (min_distances, m', Some idx)
    else Ok (min_distances, max_min_distance, next_idx).

(** Body of the outer loop [for _ in range(n_select - 1)]. *)
Definition greedy_round (hash_dict : dict string) (file_paths : list string)
    (st : Greedy) (_ : nat) : res Greedy :=
  match rev (selected_indices st) with
  | [] => Raise IndexError
  | last_selected :: _ =>
      current_path <- getitem file_paths last_selected ;;
      current_hash <- dict_getitem hash_dict current_path ;;
      ' (min_distances, max_min_distance, next_idx) <-
        foldM (scan_step hash_dict file_paths current_hash)
              (range (len file_paths))
              (min_distances st, NegInf, None) ;;
      match next_idx with
      | Some next_idx =>
          Ok (mkGreedy (selected_indices st ++ [next_idx])%list
                       (scores st ++ [max_min_distance])%list
                       (setitem min_distances next_idx SELECTED))
      | None => Ok (mkGreedy (selected_indices st) (scores st) min_distances)
      end
  end.

(** The selection once the first index is drawn. *)
Definition greedy_from (hash_dict : dict string) (file_paths : list string)
    (n_select : Z) (first_idx : nat) : res (list nat * list f32) :=
  let n := len file_paths in
  let min_distances := repeat PosInf (Z.to_nat n) in
  _ <- getitem min_distances first_idx ;;
  let st := mkGreedy [first_idx] [PosInf]
                     (setitem min_distances first_idx SELECTED) in
  st <- foldM (greedy_round hash_dict file_paths) (range (n_select - 1)) st ;;
  Ok (selected_indices st, scores st).

Definition _greedy_selection (self : FileSelector) (file_paths : list string)
    (n_select : Z) (verbose : bool) (g : G)
  : res (list nat * list f32) * G :=
  let n := len file_paths in
  if n - 1 <? 0 then
    (Raise (ValueError (random_empty_range 0 (n - 1))), g)
  else
    let '(first_idx, g) := random_randint g 0 (n - 1) in
    (greedy_from (_hash_dict self) file_paths n_select (Z.to_nat first_idx),
     g).

(** [random.seed(s); np.random.seed(s)]. numpy's generator is never drawn
    from; its seed must lie in [0, 2**32 - 1]. *)
Definition seed_generators (random_state : option Z) (g : G)
  : res unit * G :=
  match random_state with
  | None => (Ok tt, g)
  | Some s =>
      let g := random_seed s in
      if (0 <=? s) && (s <? 2 ^ 32) then (Ok tt, g)
      else (Raise (ValueError "Seed must be between 0 and 2**32 - 1"), g)
  end.

Definition insufficient_msg (n_valid n_select : Z) : string :=
  "Only " ++ str_int n_valid ++ " valid files found, but "
  ++ str_int n_select ++ " requested. "
  ++ "Check if files exist and are valid for TLSH hashing (>= 50 bytes).".

Definition select (self : FileSelector) (file_paths : list string)
    (n_select : Z) (verbose : option bool) (random_state : option Z)
    (w : World G)
  : res SelectionResult * FileSelector * World G :=
  let verbose := match verbose with Some v => v | None => _verbose self end in
  let '(r, g) := seed_generators random_state (w_rng w) in
  let w := set_rng w g in
  match r with
  | Raise e => (Raise e, self, w)
  | Ok _ =>
  (* compute or load hashes *)
  let '(r, self, w) := _compute_or_load_hashes self file_paths verbose w in
  match r with
  | Raise e => (Raise e, self, w)
  | Ok hash_dict =>
  let self := set_hash_dict self hash_dict in
  (* valid file names (files with valid hashes) *)
  let valid_paths := dict_keys (_hash_dict self) in
  if len valid_paths <? n_select then
    (Raise (InsufficientFilesError
              (insufficient_msg (len valid_paths) n_select)), self, w)
  else
  (* greedy selection *)
  let w := log_event w (EvGreedy valid_paths n_select) in
  let '(r, g) := _greedy_selection self valid_paths n_select verbose (w_rng w) in
  let w := set_rng w g in
  match r with
  | Raise e => (Raise e, self, w)
  | Ok (selected_indices, diversity_scores) =>
  (* map back to original indices *)
  match
    (original_indices <-
       mapM (fun idx => p <- getitem valid_paths idx ;; list_index file_paths p)
            selected_indices ;;
     selected_paths <- mapM (getitem file_paths) original_indices ;;
     Ok (original_indices, selected_paths))
  with
  | Raise e => (Raise e, self, w)
  | Ok (original_indices, selected_paths) =>
  (* save cache if enabled *)
  let '(self, w) :=
    match _cache_manager self with
    | Some cm =>
        let '(cm, dk) := save cm (w_disk w) in
        (set_cache_manager self (Some cm), set_disk w dk)
    | None => (self, w)
    end in
  (Ok (mkSelectionResult
         original_indices selected_paths
         (if truthy (_cache_dir self) then Some (_hash_dict self) else None)
         (match diversity_scores with [] => None | _ => Some diversity_scores end)),
   self, w)
  end end end end.

(** [FileSelector(cache_dir=..., n_jobs=..., verbose=...)] *)
Definition FileSelector_init (cache_dir : option string) (n_jobs : Z)
    (verbose : bool) (dk : disk) : res FileSelector :=
  cm <- (if truthy cache_dir then
           match cache_dir with
           | Some d => cm <- CacheManager_init d pickle dk ;; Ok (Some cm)
           | None => Ok None
           end
         else Ok None) ;;
  Ok (mkFileSelector cache_dir cm n_jobs verbose []).

Definition select_diverse_files (file_paths : list string) (n_select : Z)
    (cache_dir : option string) (verbose : bool) (n_jobs : Z)
    (random_state : option Z) (w : World G)
  : res SelectionResult * World G :=
  if n_select <=? 0 then
    (Raise (ValueError ("n_select must be positive, got " ++ str_int n_select)), w)
  else if n_select >? len file_paths then
    (Raise (ValueError
              ("n_select (" ++ str_int n_select
               ++ ") cannot be greater than number of files ("
               ++ str_int (len file_paths) ++ ")")), w)
  else
    (* set random seed *)
    let '(r, g) := seed_generators random_state (w_rng w) in
    let w := set_rng w g in
    match r with
    | Raise e => (Raise e, w)
    | Ok _ =>
        (* create selector instance *)
        match FileSelector_init cache_dir n_jobs verbose (w_disk w) with
        | Raise e => (Raise e, w)
        | Ok selector =>
            (* perform selection *)
            let '(result, _, w) :=
              select selector file_paths n_select (Some verbose) random_state w in
            (result, w)
        end
    end.

(* ---------------------------------------------------------------- *)
(** *** hash_utils.py: the cache manager as a context manager *)

(** [with CacheManager(...) as cm:] binds the manager itself. *)
Definition __enter__ (self : CacheManager) : CacheManager := self.

(** Leaving the block saves the cache; an exception of the block is not
    suppressed. *)
Definition __exit__ (self : CacheManager) (dk : disk) : CacheManager * disk :=
  _save_cache self dk.

(* ---------------------------------------------------------------- *)
(** *** selector.py: the other methods of FileSelector *)

Definition compute_hashes (self : FileSelector) (file_paths : list string)
    (verbose : option bool) (w : World G)
  : res (dict string) * FileSelector * World G :=
  let verbose := match verbose with Some v => v | None => _verbose self end in
  let '(r, self, w) := _compute_or_load_hashes self file_paths verbose w in
  match r with
  | Raise e => (Raise e, self, w)
  | Ok hash_dict =>
      match _cache_manager self with
      | Some cm =>
          let '(cm, dk) := save cm (w_disk w) in
          (Ok hash_dict, set_cache_manager self (Some cm), set_disk w dk)
      | None => (Ok hash_dict, self, w)
      end
  end.

Definition get_cached_hashes (self : FileSelector) (fs : filesystem)
  : res (dict string) * FileSelector :=
  match _cache_manager self with
  | None => (Raise (ValueError "No cache directory configured"), self)
  | Some cm =>
      let '(r, cm) := get_all_hashes cm fs in
      (r, set_cache_manager self (Some cm))
  end.

Definition clear_cache (self : FileSelector) (dk : disk)
  : res unit * FileSelector * disk :=
  match _cache_manager self with
  | None => (Raise (ValueError "No cache directory configured"), self, dk)
  | Some cm =>
      let '(cm, dk) := clear cm dk in
      (Ok tt, set_cache_manager self (Some cm), dk)
  end.

(* ---------------------------------------------------------------- *)
(** *** parallel.py: distances to many candidates *)

(** [_compute_distances_worker((current_hash, candidate_paths, hash_dict))] *)
Definition _compute_distances_worker (current_hash : string)
    (candidate_paths : list string) (hash_dict : dict string)
  : res (list Z) :=
  foldM (fun distances candidate_path =>
           candidate_hash <- dict_getitem hash_dict candidate_path ;;
           Ok (distances ++ [tlsh_diff current_hash candidate_hash]))
        candidate_paths [].

(** [[l[i : i + size] for i in range(0, len(l), size)]] for [size >= 1];
    [fuel] bounds the number of chunks. *)
Fixpoint chunks_of {A} (fuel : nat) (size : nat) (l : list A) : list (list A) :=
  match fuel, l with
  | O, _ | _, [] => []
  | S fuel', _ :: _ => firstn size l :: chunks_of fuel' size (skipn size l)
  end.

Definition compute_distances_parallel {W} (w : World W)
    (current_hash : string) (candidate_paths : list string)
    (hash_dict : dict string) (n_jobs : Z) : outcome (list Z) :=
  (* for small numbers, sequential is faster *)
  if (len candidate_paths <? 1000) || (n_jobs =? 1) then
    Done (mapM (fun path =>
                  h <- dict_getitem hash_dict path ;;
                  Ok (tlsh_diff current_hash h))
               candidate_paths)
  else
    let n_jobs := if n_jobs =? -1 then Z.pos (w_cpu_count w) else n_jobs in
    if n_jobs =? 0 then ZeroDivisionError
    else
      (* split work into chunks *)
      let chunk_size := Z.max 1 (len candidate_paths / n_jobs) in
      let chunks :=
        chunks_of (List.length candidate_paths) (Z.to_nat chunk_size)
                  candidate_paths in
      if n_jobs <=? 0 then
        (* ProcessPoolExecutor(max_workers=n_jobs) *)
        Done (Raise (ValueError "max_workers must be greater than 0"))
      else
        let futures :=
          map (fun chunk =>
                 _compute_distances_worker current_hash chunk hash_dict)
              chunks in
        Done (foldM (fun results future =>
                       distances <- future ;; Ok (results ++ distances))
                    (as_completed (w_sched w) futures) []).

(* ---------------------------------------------------------------- *)
(** *** Vocabulary of the statements *)

Definition f32_le (a b : f32) : Prop := f32_leb a b = true.
Definition f32_lt (a b : f32) : Prop := f32_ltb a b = true.

(** The hash the selector reads for candidate [i]. *)
Definition cand_hash (hash_dict : dict string) (file_paths : list string)
    (i : nat) : string :=
  match nth_error file_paths i with
  | Some p => match dict_get hash_dict p with Some h => h | None => "" end
  | None => ""
  end.

(** Distance from selected candidate [s] to candidate [i], as the scan
    computes it: [tlsh.diff(hash of s, hash of i)]. *)
Definition dist (hash_dict : dict string) (file_paths : list string)
    (s i : nat) : f32 :=
  Fin (tlsh_diff (cand_hash hash_dict file_paths s)
                 (cand_hash hash_dict file_paths i)).

(** Minimum distance from candidate [i] to the set [sel]; [inf] when [sel]
    is empty. *)
Definition min_dist (hash_dict : dict string) (file_paths : list string)
    (sel : list nat) (i : nat) : f32 :=
  fold_left (fun acc s => f32_min acc (dist hash_dict file_paths s i))
            sel PosInf.

(** [p], with score [sc], is the pick of a max-min round over the selected
    set [sel]: it is unselected, no unselected candidate is farther from
    [sel], and every unselected candidate of lower index is strictly
    nearer. *)
Definition is_pick (hash_dict : dict string) (file_paths : list string)
    (sel : list nat) (p : nat) (sc : f32) : Prop :=
  (p < List.length file_paths)%nat /\
  ~ In p sel /\
  sc = min_dist hash_dict file_paths sel p /\
  forall i, (i < List.length file_paths)%nat -> ~ In i sel ->
    f32_le (min_dist hash_dict file_paths sel i) sc /\
    ((i < p)%nat -> f32_lt (min_dist hash_dict file_paths sel i) sc).

(** Scores from position 1 on never increase. *)
Fixpoint non_increasing (l : list f32) : Prop :=
  match l with
  | a :: (b :: _) as t => f32_le b a /\ non_increasing t
  | _ => True
  end.

(** What the inner loop has established after indices [0 .. j-1]. *)
Definition scan_inv (hd : dict string) (fp : list string) (c : string)
    (md : list f32) (j : nat) (st : list f32 * f32 * option nat) : Prop :=
  let '(md', mx, nxt) := st in
  List.length md' = List.length md /\
  (forall i, (j <= i)%nat -> nth_error md' i = nth_error md i) /\
  (forall i m, (i < j)%nat -> nth_error md i = Some m ->
     (m = SELECTED /\ nth_error md' i = Some SELECTED) \/
     (m <> SELECTED /\
      exists p h, nth_error fp i = Some p /\ dict_get hd p = Some h /\
        nth_error md' i = Some (f32_min m (Fin (tlsh_diff c h))))) /\
  match nxt with
  | None =>
      mx = NegInf /\
      forall i m, (i < j)%nat -> nth_error md i = Some m -> m = SELECTED
  | Some a =>
      (a < j)%nat /\ nth_error md a <> Some SELECTED /\
      nth_error md' a = Some mx /\
      forall i m', (i < j)%nat -> nth_error md i <> Some SELECTED ->
        nth_error md' i = Some m' ->
        f32_le m' mx /\ ((i < a)%nat -> f32_lt m' mx)
  end.


(** What holds of the loop state of [_greedy_selection] between rounds. *)
Definition greedy_inv (hd : dict string) (fp : list string) (st : Greedy)
  : Prop :=
  let n := List.length fp in
  let sel := selected_indices st in
  List.length (min_distances st) = n /\
  sel <> [] /\
  NoDup sel /\
  List.length (scores st) = List.length sel /\
  (forall i, In i sel ->
     (i < n)%nat /\ nth_error (min_distances st) i = Some SELECTED) /\
  (forall i, (i < n)%nat -> ~ In i sel ->
     nth_error (min_distances st) i
     = Some (min_dist hd fp (removelast sel) i)) /\
  nth_error (scores st) 0 = Some PosInf /\
  (forall t, (1 <= t < List.length sel)%nat ->
     is_pick hd fp (firstn t sel) (nth t sel O) (nth t (scores st) PosInf)).

(** The hash of a file, when [compute_tlsh_hash] returns one. *)
Definition hash_of (fs : filesystem) (p : string) : option string :=
  match compute_tlsh_hash fs p with Ok h => Some h | Raise _ => None end.

(** The candidates a call of [select] works on. *)
Definition candidates (self : FileSelector) (file_paths : list string)
    (verbose : bool) (w : World G) : res (dict string) :=
  fst (fst (_compute_or_load_hashes self file_paths verbose w)).

(** The candidates a call of [select_diverse_files] works on. *)
Definition candidates_of (cache_dir : option string) (n_jobs : Z)
    (verbose : bool) (file_paths : list string) (w : World G)
  : res (dict string) :=
  selector <- FileSelector_init cache_dir n_jobs verbose (w_disk w) ;;
  candidates selector file_paths verbose w.

(** What the caller sees of a selection: indices, paths and scores. *)
Definition picks (r : res SelectionResult)
  : res (list nat * list string * option (list f32)) :=
  match r with
  | Ok x => Ok (indices x, file_paths x, diversity_scores x)
  | Raise e => Raise e
  end.

(** The picks as a function of the candidates [hd], the input list, the
    count and the state [g] of the generator when the selection starts. *)
Definition select_outcome (hd : dict string) (file_paths : list string)
    (n_select : Z) (g : G)
  : res (list nat * list string * option (list f32)) :=
  let valid_paths := dict_keys hd in
  if len valid_paths <? n_select then
    Raise (InsufficientFilesError
             (insufficient_msg (len valid_paths) n_select))
  else if len valid_paths - 1 <? 0 then
    Raise (ValueError (random_empty_range 0 (len valid_paths - 1)))
  else
    let first_idx := fst (random_randint g 0 (len valid_paths - 1)) in
    ' (sel, sc) <- greedy_from hd valid_paths n_select (Z.to_nat first_idx) ;;
    original_indices <-
      mapM (fun idx => p <- getitem valid_paths idx ;; list_index file_paths p)
           sel ;;
    selected_paths <- mapM (getitem file_paths) original_indices ;;
    Ok (original_indices, selected_paths,
        match sc with [] => None | _ :: _ => Some sc end).

(** The calls a client can make on a cache manager. *)
Inductive cache_op : Type :=
| OpGet (file_path : string)
| OpGetAll
| OpSet (file_path : string) (hash_value : string)
| OpSave
| OpClear.

(** One call, in the file system [fs] of the moment. A call that raises
    leaves the manager it has reached; the history goes on from there. *)
Definition run_op (fs : filesystem) (op : cache_op)
    (st : CacheManager * disk) : CacheManager * disk :=
  let '(self, dk) := st in
  match op with
  | OpGet p => (snd (get self fs p), dk)
  | OpGetAll => (snd (get_all_hashes self fs), dk)
  | OpSet p h => (snd (set self fs p h), dk)
  | OpSave => save self dk
  | OpClear => clear self dk
  end.

(** A history of calls; the file system may change between two calls. *)
Definition run_ops (ops : list (filesystem * cache_op))
    (st : CacheManager * disk) : CacheManager * disk :=
  fold_left (fun st o => run_op (fst o) (snd o) st) ops st.

(** [op] may overwrite or remove the entry of [id]. *)
Definition rewrites (id : string) (op : cache_op) : bool :=
  match op with
  | OpSet p _ => String.eqb p id
  | OpClear => true
  | OpGet _ | OpGetAll | OpSave => false
  end.

(** The entry of [id] in the snapshot on disk, if any. *)
Definition persisted (self : CacheManager) (dk : disk) (id : string)
  : option CacheEntry :=
  match dk (cache_file self) with
  | Snapshot d => dict_get d id
  | NoFile | Corrupt _ => None
  end.

(** [tlsh.diff] returns a non-negative score. *)
Hypothesis tlsh_diff_nonneg : forall a b, 0 <= tlsh_diff a b.

(** [random.randint(a, b)] returns an integer of [[a, b]]. *)
Hypothesis random_randint_range :
  forall g a b, a <= b ->
    a <= fst (random_randint g a b) <= b.

(** Case analysis on array cells, comparisons decided by [lia]. *)
Ltac f32_cases :=
  unfold f32_le, f32_lt, f32_leb, f32_gtb, f32_min, f32_ltb, SELECTED in *;
  repeat match goal with
         | x : f32 |- _ => destruct x
         end;
  simpl in *;
  repeat match goal with
         | |- context [Z.ltb ?a ?b] => destruct (Z.ltb_spec a b)
         | H : context [Z.ltb ?a ?b] |- _ => destruct (Z.ltb_spec a b)
         end;
  simpl in *; try congruence; try lia;
  repeat match goal with
         | H : Fin _ = Fin _ |- _ => inversion H; clear H; subst
         end;
  try congruence; try (f_equal; lia).


(* ---------------------------------------------------------------- *)
(** *** Vocabulary for the cache and the candidates *)

(** A store is a dictionary: no identifier has two entries. *)
Definition store_wf (self : CacheManager) : Prop :=
  NoDup (dict_keys (_cache self)).

(** The dirty flag tells the truth: a clean manager holds what its cache
    file holds, an absent file standing for the empty store. *)
Definition in_sync (st : CacheManager * disk) : Prop :=
  let '(self, dk) := st in
  _dirty self = false ->
  match dk (cache_file self) with
  | Snapshot d => d = _cache self
  | NoFile => _cache self = []
  | Corrupt _ => False
  end.

(** No failure other than [FileNotFoundError] meets an access to [p]. *)
Definition reachable (fs : filesystem) (p : string) : Prop :=
  forall msg, fs p <> Denied msg.

(** The store has an entry for [file_path], and it agrees with what
    [os.stat] reports now. *)
Definition entry_valid (self : CacheManager) (fs : filesystem)
    (file_path : string) : bool :=
  match dict_get (_cache self) file_path, fs file_path with
  | Some e, Present f => (f_mtime f =? e_mtime e) && (f_size f =? e_size e)
  | _, _ => false
  end.

(** What the selector takes from the cache for [file_path]: the hash of a
    valid entry, unless it is the empty string. *)
Definition cached_hash (cm : option CacheManager) (fs : filesystem)
    (file_path : string) : option string :=
  match cm with
  | Some cm =>
      if entry_valid cm fs file_path then
        match dict_get (_cache cm) file_path with
        | Some e => if String.eqb (e_hash e) "" then None else Some (e_hash e)
        | None => None
        end
      else None
  | None => None
  end.

(** The lookups of the cache pass return: [os.stat] fails for no listed
    identifier that has an entry, unless by [FileNotFoundError]. *)
Definition lookups_return (cm : option CacheManager) (fs : filesystem)
    (file_paths : list string) : Prop :=
  match cm with
  | Some cm =>
      forall p, In p file_paths -> dict_get (_cache cm) p <> None ->
                reachable fs p
  | None => True
  end.

(** The hash the selector works with for [file_path]: the cached one when
    there is one, the computed one otherwise. *)
Definition hash_for (cm : option CacheManager) (fs : filesystem)
    (file_path : string) : option string :=
  match cached_hash cm fs file_path with
  | Some h => Some h
  | None => hash_of fs file_path
  end.

(** The number of workers is one the pool accepts. *)
Definition jobs_ok (n_jobs : Z) : bool := (n_jobs =? -1) || (0 <? n_jobs).

(** What a pass of [_compute_or_load_hashes] that returns [hd] has done:
    the mapping it returns, the world and the selector it leaves, what it
    asked [compute_hashes_parallel] for, and the manager it leaves. *)
Definition load_post (self : FileSelector) (fp : list string) (w : World G)
    (hd : dict string) (self1 : FileSelector) (w1 : World G) : Prop :=
  (forall p, dict_get hd p
             = if in_dec string_dec p fp
               then hash_for (_cache_manager self) (w_fs w) p
               else None) /\
  (w_fs w1 = w_fs w /\ w_disk w1 = w_disk w /\
   w_cpu_count w1 = w_cpu_count w /\ w_sched w1 = w_sched w) /\
  (w_log w1 = w_log w \/
   exists ftc,
     w_log w1 = w_log w ++ [EvComputeHashes ftc] /\
     forall p, In p ftc <->
               In p fp /\ cached_hash (_cache_manager self) (w_fs w) p = None) /\
  (_cache_dir self1 = _cache_dir self /\ _n_jobs self1 = _n_jobs self /\
   _verbose self1 = _verbose self) /\
  match _cache_manager self with
  | None => _cache_manager self1 = None
  | Some cm =>
      exists cm1,
        _cache_manager self1 = Some cm1 /\
        cache_dir cm1 = cache_dir cm /\ format cm1 = format cm /\
        (forall p, In p fp ->
                   cached_hash (Some cm1) (w_fs w) p
                   = hash_for (Some cm) (w_fs w) p) /\
        ((forall p, In p fp -> cached_hash (Some cm) (w_fs w) p = None ->
                    hash_of (w_fs w) p = None) ->
         cm1 = cm) /\
        (forall p, dict_get (_cache cm1) p <> None ->
                   dict_get (_cache cm) p <> None \/
                   exists f, w_fs w p = Present f)
  end.
(* ---------------------------------------------------------------- *)
(** *** Results, loops, arrays *)

Lemma bind_Ok A B (m : res A) (f : A -> res B) b :
  bind m f = Ok b -> exists a, m = Ok a /\ f a = Ok b.
Proof. destruct m; simpl; intros H; [eauto | discriminate]. Qed.

Lemma foldM_app A S (body : S -> A -> res S) l1 l2 s :
  foldM body (l1 ++ l2) s = bind (foldM body l1 s) (foldM body l2).
Proof.
  revert s; induction l1 as [|x l1 IH]; intros s; simpl; [reflexivity|].
  destruct (body s x); simpl; auto.
Qed.

Lemma getitem_Ok A (l : list A) i x :
  getitem l i = Ok x <-> nth_error l i = Some x.
Proof.
  unfold getitem; destruct (nth_error l i); split; intros H;
    inversion H; reflexivity.
Qed.

Lemma length_setitem A (l : list A) i x :
  List.length (setitem l i x) = List.length l.
Proof.
  revert i; induction l as [|h t IH]; intros [|i]; simpl; auto.
Qed.

Lemma nth_error_setitem_eq A (l : list A) i x :
  (i < List.length l)%nat -> nth_error (setitem l i x) i = Some x.
Proof.
  revert i; induction l as [|h t IH]; intros [|i]; simpl; intros H;
    try lia; auto.
  apply IH; lia.
Qed.

Lemma nth_error_setitem_neq A (l : list A) i j x :
  i <> j -> nth_error (setitem l i x) j = nth_error l j.
Proof.
  revert i j; induction l as [|h t IH]; intros [|i] [|j]; simpl; intros H;
    auto; try congruence.
Qed.

(* ---------------------------------------------------------------- *)
(** *** The order on array cells *)

Lemma f32_le_refl a : f32_le a a.
Proof. f32_cases. Qed.

Lemma f32_le_trans a b c : f32_le a b -> f32_le b c -> f32_le a c.
Proof. intros; f32_cases. Qed.

Lemma f32_lt_le_trans a b c : f32_lt a b -> f32_le b c -> f32_lt a c.
Proof. intros; f32_cases. Qed.

Lemma f32_le_lt_trans a b c : f32_le a b -> f32_lt b c -> f32_lt a c.
Proof. intros; f32_cases. Qed.

Lemma f32_min_le_l a b : f32_le (f32_min a b) a.
Proof. f32_cases. Qed.

Lemma f32_min_le_r a b : f32_le (f32_min a b) b.
Proof. f32_cases. Qed.

Lemma f32_ltb_false_le a b : f32_ltb a b = false -> f32_le b a.
Proof. unfold f32_le, f32_leb; intros ->; reflexivity. Qed.

Lemma f32_min_PosInf a : f32_min PosInf a = a.
Proof. f32_cases. Qed.

Lemma f32_eqb_eq a b : f32_eqb a b = true <-> a = b.
Proof.
  destruct a, b; simpl; split; intros H; try congruence; try discriminate.
  - apply Z.eqb_eq in H; congruence.
  - inversion H; apply Z.eqb_refl.
Qed.

Lemma f32_eqb_neq a b : f32_eqb a b = false <-> a <> b.
Proof.
  split; intros H.
  - intros E; apply f32_eqb_eq in E; congruence.
  - destruct (f32_eqb a b) eqn:E; [apply f32_eqb_eq in E; contradiction | reflexivity].
Qed.

(* ---------------------------------------------------------------- *)
(** *** The inner loop *)

Lemma scan_prefix hd fp c md :
  (forall i, nth_error md i <> Some NegInf) ->
  forall j st,
    foldM (scan_step hd fp c) (seq 0 j) (md, NegInf, None) = Ok st ->
    scan_inv hd fp c md j st.
Proof.
  intros Hneg j; induction j as [|j IH]; intros st Hrun.
  - simpl in Hrun; inversion Hrun; subst; simpl.
    repeat split; auto; intros; lia.
  - rewrite seq_S, foldM_app in Hrun; simpl in Hrun.
    apply bind_Ok in Hrun as (st1 & Hrun1 & Hstep).
    specialize (IH _ Hrun1).
    destruct st1 as [[md1 mx1] nxt1].
    apply bind_Ok in Hstep as (st2 & Hstep & Hret); inversion Hret; subst st2; clear Hret.
    unfold scan_step in Hstep.
    apply bind_Ok in Hstep as (m & Hm & Hstep).
    apply getitem_Ok in Hm.
    destruct IH as (Hlen & Hrest & Hdone & Hbest).
    assert (Hmj : nth_error md j = Some m) by (rewrite <- Hrest; auto).
    destruct (f32_eqb m SELECTED) eqn:Esel.
    + (* already selected *)
      apply f32_eqb_eq in Esel; subst m.
      inversion Hstep; subst st; clear Hstep.
      cbv beta iota delta [scan_inv].
      split; [exact Hlen|].
      split; [intros i Hi; apply Hrest; lia|].
      split.
      * intros i m Hi Him.
        destruct (Nat.eq_dec i j) as [->|Hne].
        -- left. rewrite Hmj in Him; inversion Him; subst. split; auto.
        -- apply Hdone; auto; lia.
      * destruct nxt1 as [a|].
        -- destruct Hbest as (Ha & Hasel & Hamx & Hmax).
           split; [lia|]. split; [auto|]. split; [auto|].
           intros i mi Hi Hisel Himi.
           destruct (Nat.eq_dec i j) as [->|Hne]; [congruence|].
           apply Hmax; auto; lia.
        -- destruct Hbest as (Hmx & Hall); split; auto.
           intros i m Hi Him.
           destruct (Nat.eq_dec i j) as [->|Hne]; [congruence|].
           eapply Hall; eauto; lia.
    + apply f32_eqb_neq in Esel.
      apply bind_Ok in Hstep as (p & Hp & Hstep); apply getitem_Ok in Hp.
      apply bind_Ok in Hstep as (h & Hh & Hstep).
      unfold dict_getitem in Hh.
      destruct (dict_get hd p) as [h'|] eqn:Ehd; [|discriminate].
      inversion Hh; subst h'; clear Hh.
      assert (Hjlen : (j < List.length md1)%nat)
        by (apply nth_error_Some; congruence).
      set (m' := if f32_eqb m PosInf then Fin (tlsh_diff c h)
                 else f32_min m (Fin (tlsh_diff c h))) in *.
      assert (Em' : m' = f32_min m (Fin (tlsh_diff c h))).
      { unfold m'. destruct (f32_eqb m PosInf) eqn:E; auto.
        apply f32_eqb_eq in E; subst m. symmetry; apply f32_min_PosInf. }
      assert (Hm'neg : m' <> NegInf).
      { rewrite Em'. specialize (Hneg j). clear - Hneg Hmj.
        destruct m; try congruence; unfold f32_min; simpl;
          [destruct (tlsh_diff c h <? z); congruence | congruence]. }
      destruct (f32_gtb m' mx1) eqn:Egt; inversion Hstep; subst st; clear Hstep;
        cbv beta iota delta [scan_inv].
      * (* new maximum *)
        split; [rewrite length_setitem; exact Hlen|].
        split; [intros i Hi; rewrite nth_error_setitem_neq by lia; apply Hrest; lia|].
        split.
        { intros i m0 Hi Him.
          destruct (Nat.eq_dec i j) as [->|Hne].
          - right. rewrite Hmj in Him; inversion Him; subst m0.
            split; auto. exists p, h. repeat split; auto.
            rewrite nth_error_setitem_eq by auto. congruence.
          - rewrite nth_error_setitem_neq by auto. apply Hdone; auto; lia. }
        split; [lia|]. split; [congruence|].
        split; [apply nth_error_setitem_eq; auto|].
        intros i mi Hi Hisel Himi.
        destruct (Nat.eq_dec i j) as [->|Hne].
        { rewrite nth_error_setitem_eq in Himi by auto.
          inversion Himi; subst. split; [apply f32_le_refl | lia]. }
        rewrite nth_error_setitem_neq in Himi by auto.
        destruct nxt1 as [a|].
        -- destruct Hbest as (Ha & Hasel & Hamx & Hmax).
           destruct (Hmax i mi) as (Hle & _); auto; try lia.
           unfold f32_gtb in Egt.
           assert (f32_lt mi m') by (eapply f32_le_lt_trans; eauto).
           split; auto. clear - H. f32_cases.
        -- destruct Hbest as (Hmx & Hall).
           destruct (nth_error md i) as [m0|] eqn:E0.
           ++ specialize (Hall i m0). rewrite Hall in Hisel; auto; try lia.
              congruence.
           ++ apply nth_error_None in E0.
              assert (nth_error md1 i <> None) by congruence.
              apply nth_error_Some in H. lia.
      * (* maximum unchanged *)
        split; [rewrite length_setitem; exact Hlen|].
        split; [intros i Hi; rewrite nth_error_setitem_neq by lia; apply Hrest; lia|].
        split.
        { intros i m0 Hi Him.
          destruct (Nat.eq_dec i j) as [->|Hne].
          - right. rewrite Hmj in Him; inversion Him; subst m0.
            split; auto. exists p, h. repeat split; auto.
            rewrite nth_error_setitem_eq by auto. congruence.
          - rewrite nth_error_setitem_neq by auto. apply Hdone; auto; lia. }
        destruct nxt1 as [a|].
        -- destruct Hbest as (Ha & Hasel & Hamx & Hmax).
           split; [lia|]. split; [auto|].
           split; [rewrite nth_error_setitem_neq by lia; auto|].
           intros i mi Hi Hisel Himi.
           destruct (Nat.eq_dec i j) as [->|Hne].
           { rewrite nth_error_setitem_eq in Himi by auto.
             inversion Himi; subst. split; [|lia].
             apply f32_ltb_false_le; exact Egt. }
           rewrite nth_error_setitem_neq in Himi by auto.
           apply Hmax; auto; lia.
        -- destruct Hbest as (Hmx & Hall). subst mx1.
           exfalso. clear - Egt Hm'neg. destruct m'; simpl in *; congruence.
Qed.

(* ---------------------------------------------------------------- *)
(** *** Minimum distance to a set *)

Lemma min_dist_snoc hd fp sel s i :
  min_dist hd fp (sel ++ [s]) i
  = f32_min (min_dist hd fp sel i) (dist hd fp s i).
Proof. unfold min_dist; rewrite fold_left_app; reflexivity. Qed.

Lemma min_dist_nonneg hd fp sel i :
  min_dist hd fp sel i = PosInf \/
  exists z, min_dist hd fp sel i = Fin z /\ 0 <= z.
Proof.
  induction sel as [|s sel IH] using rev_ind; [left; reflexivity|].
  rewrite min_dist_snoc. right.
  unfold dist. set (d := tlsh_diff _ _).
  assert (0 <= d) by apply tlsh_diff_nonneg.
  destruct IH as [-> | (z & -> & Hz)].
  - exists d; split; auto.
  - unfold f32_min, f32_ltb. destruct (Z.ltb_spec d z); eauto.
Qed.

Lemma min_dist_not_selected hd fp sel i : min_dist hd fp sel i <> SELECTED.
Proof.
  unfold SELECTED.
  destruct (min_dist_nonneg hd fp sel i) as [-> | (z & -> & Hz)];
    [discriminate | intros E; inversion E; lia].
Qed.

Lemma min_dist_not_NegInf hd fp sel i : min_dist hd fp sel i <> NegInf.
Proof.
  destruct (min_dist_nonneg hd fp sel i) as [-> | (z & -> & Hz)];
    discriminate.
Qed.

Lemma min_dist_snoc_le hd fp sel s i :
  f32_le (min_dist hd fp (sel ++ [s]) i) (min_dist hd fp sel i).
Proof. rewrite min_dist_snoc; apply f32_min_le_l. Qed.

(* ---------------------------------------------------------------- *)
(** *** One round of the outer loop *)

Lemma range_len A (l : list A) : range (len l) = seq 0 (List.length l).
Proof. unfold range, len; rewrite Nat2Z.id; reflexivity. Qed.

Lemma rev_cons_snoc A (l r : list A) x :
  rev l = x :: r -> l = rev r ++ [x].
Proof.
  intros H. rewrite <- (rev_involutive l), H. reflexivity.
Qed.

Lemma selected_bound hd fp st :
  greedy_inv hd fp st ->
  (List.length (selected_indices st) <= List.length fp)%nat.
Proof.
  intros (_ & _ & Hnd & _ & Hin & _).
  rewrite <- (length_seq (List.length fp) 0).
  apply NoDup_incl_length; auto.
  intros i Hi. apply in_seq. destruct (Hin i Hi); lia.
Qed.

Lemma greedy_round_inv hd fp st x st' :
  greedy_inv hd fp st ->
  greedy_round hd fp st x = Ok st' ->
  greedy_inv hd fp st' /\
  List.length (selected_indices st')
  = (if (List.length (selected_indices st) <? List.length fp)%nat
     then S (List.length (selected_indices st))
     else List.length (selected_indices st)).
Proof.
  intros Hinv Hrun.
  pose proof (selected_bound _ _ _ Hinv) as Hbound.
  destruct Hinv as (Hlen & Hne & Hnd & Hsc & Hin & Hout & Hsc0 & Hhist).
  unfold greedy_round in Hrun.
  destruct (rev (selected_indices st)) as [|lst r] eqn:Erev;
    [discriminate|].
  apply rev_cons_snoc in Erev.
  set (sel := selected_indices st) in *.
  set (S0 := rev r) in *.
  assert (Hrl : removelast sel = S0) by (rewrite Erev; apply removelast_last).
  apply bind_Ok in Hrun as (cp & Hcp & Hrun); apply getitem_Ok in Hcp.
  apply bind_Ok in Hrun as (ch & Hch & Hrun).
  unfold dict_getitem in Hch.
  destruct (dict_get hd cp) as [ch'|] eqn:Ecp; [|discriminate].
  inversion Hch; subst ch'; clear Hch.
  assert (Hlast : cand_hash hd fp lst = ch)
    by (unfold cand_hash; rewrite Hcp, Ecp; reflexivity).
  apply bind_Ok in Hrun as ([[md' mx] nxt] & Hscan & Hrun).
  rewrite range_len in Hscan.
  apply scan_prefix in Hscan.
  2:{ intros i E.
      destruct (in_dec Nat.eq_dec i sel) as [Hi|Hi].
      - destruct (Hin i Hi) as (_ & E'). rewrite E in E'. discriminate.
      - assert (Hi' : (i < List.length fp)%nat).
        { rewrite <- Hlen. apply nth_error_Some. congruence. }
        rewrite (Hout i Hi' Hi) in E. inversion E.
        eapply min_dist_not_NegInf; eauto. }
  destruct Hscan as (Hlen' & _ & Hdone & Hbest).
  (* what the scan leaves in the array *)
  assert (Hkeep : forall i, In i sel -> nth_error md' i = Some SELECTED).
  { intros i Hi. destruct (Hin i Hi) as (Hlt & E).
    destruct (Hdone i SELECTED Hlt E) as [(_ & ?) | (? & _)];
      [assumption | congruence]. }
  assert (Hnew : forall i, (i < List.length fp)%nat -> ~ In i sel ->
                   nth_error md' i = Some (min_dist hd fp sel i)).
  { intros i Hlt Hi.
    destruct (Hdone i _ Hlt (Hout i Hlt Hi))
      as [(E & _) | (_ & p & h & Hp & Hh & E)].
    - exfalso; eapply min_dist_not_selected; eauto.
    - rewrite E. f_equal. rewrite Hrl, Erev, min_dist_snoc.
      unfold dist. rewrite Hlast.
      unfold cand_hash. rewrite Hp, Hh. reflexivity. }
  destruct nxt as [a|]; inversion Hrun; subst st'; clear Hrun; simpl.
  - (* a candidate was found *)
    destruct Hbest as (Ha & Hasel & Hamx & Hmax).
    assert (Hanot : ~ In a sel).
    { intros Hi. destruct (Hin a Hi) as (_ & E). contradiction. }
    assert (Hmxa : mx = min_dist hd fp sel a).
    { rewrite (Hnew a Ha Hanot) in Hamx. congruence. }
    assert (Hlt : (List.length sel < List.length fp)%nat).
    { assert (Hle : (List.length (a :: sel) <= List.length (seq 0 (List.length fp)))%nat).
      { apply NoDup_incl_length; [constructor; auto|].
        intros i [<- | Hi]; apply in_seq; [lia|].
        destruct (Hin i Hi); lia. }
      rewrite length_seq in Hle. simpl in Hle. lia. }
    split.
    + unfold greedy_inv; simpl. fold sel.
      split; [rewrite length_setitem; congruence|].
      split; [destruct sel; discriminate|].
      split.
      { apply NoDup_app; auto.
        - constructor; [intros []|constructor].
        - intros i Hi [<- | []]. contradiction. }
      split; [rewrite !length_app; simpl; lia|].
      split.
      { intros i Hi. apply in_app_or in Hi as [Hi | [<- | []]].
        - split; [apply Hin; auto|].
          rewrite nth_error_setitem_neq; [apply Hkeep; auto|].
          intros ->; contradiction.
        - split; [auto|]. apply nth_error_setitem_eq. lia. }
      split.
      { intros i Hlti Hi. rewrite removelast_last.
        rewrite nth_error_setitem_neq.
        - apply Hnew; auto. intros Hi'. apply Hi, in_or_app; auto.
        - intros ->. apply Hi, in_or_app; right; left; reflexivity. }
      split.
      { clear - Hsc0. destruct (scores st); simpl in *;
          [discriminate | assumption]. }
      intros t Ht. rewrite length_app in Ht; simpl in Ht.
      destruct (Nat.eq_dec t (List.length sel)) as [->|Hne'].
      * rewrite firstn_app, Nat.sub_diag, firstn_all; simpl.
        rewrite app_nil_r.
        rewrite app_nth2, Nat.sub_diag by lia; simpl.
        rewrite <- Hsc at 1.
        rewrite app_nth2, Nat.sub_diag by lia; simpl.
        unfold is_pick. repeat split; auto.
        -- destruct (Hmax i (min_dist hd fp sel i)) as (Hle & _); auto.
           rewrite (Hout i) by auto. intros E; inversion E.
           eapply min_dist_not_selected; eauto.
        -- destruct (Hmax i (min_dist hd fp sel i)) as (_ & Hlt'); auto.
           rewrite (Hout i) by auto. intros E; inversion E.
           eapply min_dist_not_selected; eauto.
      * assert (Ht' : (1 <= t < List.length sel)%nat) by lia.
        rewrite firstn_app.
        replace (t - List.length sel)%nat with O by lia.
        simpl; rewrite app_nil_r.
        rewrite !app_nth1 by lia.
        apply Hhist; auto.
    + fold sel. rewrite length_app; simpl.
      destruct (Nat.ltb_spec (List.length sel) (List.length fp)); lia.
  - (* every candidate is already selected *)
    destruct Hbest as (_ & Hall).
    assert (Hfull : forall i, (i < List.length fp)%nat -> In i sel).
    { intros i Hlt.
      destruct (in_dec Nat.eq_dec i sel) as [Hi|Hi]; auto.
      exfalso. apply (min_dist_not_selected hd fp (removelast sel) i).
      eapply Hall; eauto. }
    split.
    + unfold greedy_inv; simpl. fold sel.
      split; [congruence|]. split; [auto|]. split; [auto|]. split; [auto|].
      split; [intros i Hi; split; [apply Hin; auto | apply Hkeep; auto]|].
      split; [intros i Hlt Hi; exfalso; auto|].
      split; [auto|]. exact Hhist.
    + fold sel.
      assert (Hle : (List.length (seq 0 (List.length fp)) <= List.length sel)%nat).
      { apply NoDup_incl_length; [apply seq_NoDup|].
        intros i Hi. apply in_seq in Hi. apply Hfull. lia. }
      rewrite length_seq in Hle.
      destruct (Nat.ltb_spec (List.length sel) (List.length fp)); lia.
Qed.

(* ---------------------------------------------------------------- *)
(** *** The whole selection *)

Lemma greedy_rounds_inv hd fp l : forall st st',
  greedy_inv hd fp st ->
  foldM (greedy_round hd fp) l st = Ok st' ->
  greedy_inv hd fp st' /\
  List.length (selected_indices st')
  = Nat.min (List.length (selected_indices st) + List.length l)
            (List.length fp) /\
  hd_error (selected_indices st') = hd_error (selected_indices st).
Proof.
  induction l as [|x l IH]; intros st st' Hinv Hrun; simpl in Hrun.
  - inversion Hrun; subst st'. split; auto.
    pose proof (selected_bound _ _ _ Hinv). simpl. split; [lia | auto].
  - apply bind_Ok in Hrun as (st1 & Hstep & Hrun).
    pose proof (selected_bound _ _ _ Hinv) as Hb.
    assert (Hhd : hd_error (selected_indices st1)
                  = hd_error (selected_indices st)).
    { unfold greedy_round in Hstep.
      destruct (rev (selected_indices st)); [discriminate|].
      apply bind_Ok in Hstep as (? & _ & Hstep).
      apply bind_Ok in Hstep as (? & _ & Hstep).
      apply bind_Ok in Hstep as ([[? ?] [?|]] & _ & Hstep);
        inversion Hstep; subst st1; simpl; auto.
      destruct Hinv as (_ & Hne & _).
      destruct (selected_indices st); [congruence | reflexivity]. }
    destruct (greedy_round_inv _ _ _ _ _ Hinv Hstep) as (Hinv1 & Hlen1).
    destruct (IH _ _ Hinv1 Hrun) as (Hinv' & Hlen' & Hhd').
    split; auto. split; [|congruence].
    rewrite Hlen', Hlen1; simpl.
    destruct (Nat.ltb_spec (List.length (selected_indices st))
                           (List.length fp)); lia.
Qed.

Lemma greedy_init_inv hd fp first :
  (first < List.length fp)%nat ->
  greedy_inv hd fp
    (mkGreedy [first] [PosInf]
       (setitem (repeat PosInf (Z.to_nat (len fp))) first SELECTED)).
Proof.
  intros Hlt. unfold len; rewrite Nat2Z.id.
  unfold greedy_inv; simpl.
  split; [rewrite length_setitem; apply repeat_length|].
  split; [discriminate|].
  split; [constructor; [intros [] | constructor]|].
  split; [reflexivity|].
  split.
  { intros i [<- | []]. split; auto.
    apply nth_error_setitem_eq. rewrite repeat_length; auto. }
  split.
  { intros i Hi Hni. rewrite nth_error_setitem_neq by tauto.
    apply nth_error_repeat; auto. }
  split; [reflexivity|].
  intros t Ht; lia.
Qed.

(** A returned selection satisfies the loop invariant. *)
Lemma greedy_from_inv hd fp k first sel sc :
  greedy_from hd fp k first = Ok (sel, sc) ->
  (first < List.length fp)%nat /\
  hd_error sel = Some first /\
  List.length sel = Nat.min (1 + Z.to_nat (k - 1)) (List.length fp) /\
  exists md, greedy_inv hd fp (mkGreedy sel sc md).
Proof.
  unfold greedy_from; intros Hrun.
  apply bind_Ok in Hrun as (m0 & Hm0 & Hrun).
  apply getitem_Ok in Hm0.
  assert (Hlt : (first < List.length fp)%nat).
  { assert (Hs : nth_error (repeat PosInf (Z.to_nat (len fp))) first <> None)
      by congruence.
    apply nth_error_Some in Hs. rewrite repeat_length in Hs.
    unfold len in Hs; rewrite Nat2Z.id in Hs; exact Hs. }
  apply bind_Ok in Hrun as (st & Hrounds & Hret).
  inversion Hret; subst sel sc; clear Hret.
  destruct (greedy_rounds_inv _ _ _ _ _ (greedy_init_inv hd fp first Hlt) Hrounds)
    as (Hinv & Hlen & Hhd).
  simpl in Hlen, Hhd.
  split; auto. split; auto.
  split; [rewrite Hlen; unfold range; rewrite length_seq; reflexivity|].
  exists (min_distances st). destruct st; exact Hinv.
Qed.

(* ---------------------------------------------------------------- *)
(** *** The selection returns *)

Lemma dict_get_keys V (d : dict V) p :
  In p (dict_keys d) <-> dict_get d p <> None.
Proof.
  induction d as [|[k v] d IH]; simpl; [tauto|].
  destruct (String.eqb_spec k p) as [->|Hne].
  - split; [discriminate | auto].
  - rewrite <- IH. split; [intros [?|?]; [contradiction | auto] | auto].
Qed.

Lemma scan_total hd fp c :
  (forall p, In p fp -> dict_get hd p <> None) ->
  forall l st,
    (forall i, In i l -> (i < List.length fp)%nat) ->
    List.length (fst (fst st)) = List.length fp ->
    exists st', foldM (scan_step hd fp c) l st = Ok st'.
Proof.
  intros Hwf l; induction l as [|i l IH]; intros [[md mx] nxt] Hl Hlen;
    simpl in Hlen; [simpl; eauto|].
  assert (Hi : (i < List.length fp)%nat) by (apply Hl; left; reflexivity).
  cbn [foldM].
  assert (exists st1, scan_step hd fp c (md, mx, nxt) i = Ok st1
                      /\ List.length (fst (fst st1)) = List.length fp)
    as (st1 & -> & Hlen1).
  { unfold scan_step, getitem.
    destruct (nth_error md i) as [m|] eqn:Em;
      [|apply nth_error_None in Em; lia]. simpl.
    destruct (f32_eqb m SELECTED); [eauto|].
    destruct (nth_error fp i) as [p|] eqn:Ep;
      [|apply nth_error_None in Ep; lia]. simpl.
    unfold dict_getitem.
    destruct (dict_get hd p) as [h|] eqn:Eh;
      [|exfalso; eapply Hwf; eauto using nth_error_In]. simpl.
    destruct (f32_gtb _ mx); eexists; split; eauto; simpl;
      rewrite length_setitem; auto. }
  simpl. apply IH; auto. intros j Hj. apply Hl; right; exact Hj.
Qed.

Lemma greedy_round_total hd fp st x :
  (forall p, In p fp -> dict_get hd p <> None) ->
  greedy_inv hd fp st ->
  exists st', greedy_round hd fp st x = Ok st'.
Proof.
  intros Hwf Hinv.
  destruct Hinv as (Hlen & Hne & Hnd & Hsc & Hin & _).
  unfold greedy_round.
  destruct (rev (selected_indices st)) as [|lst r] eqn:Erev.
  { exfalso. apply Hne. rewrite <- (rev_involutive (selected_indices st)), Erev.
    reflexivity. }
  apply rev_cons_snoc in Erev.
  assert (Hl : (lst < List.length fp)%nat).
  { apply Hin. rewrite Erev. apply in_or_app; right; left; reflexivity. }
  unfold getitem.
  destruct (nth_error fp lst) as [cp|] eqn:Ecp;
    [|apply nth_error_None in Ecp; lia]. simpl.
  unfold dict_getitem.
  destruct (dict_get hd cp) as [ch|] eqn:Ech;
    [|exfalso; eapply Hwf; eauto using nth_error_In]. simpl.
  destruct (scan_total hd fp ch Hwf (range (len fp)) (min_distances st, NegInf, None))
    as ([[md' mx] nxt] & ->); simpl; auto.
  { intros i Hi. rewrite range_len in Hi. apply in_seq in Hi. lia. }
  destruct nxt; eauto.
Qed.

Lemma greedy_rounds_total hd fp l :
  (forall p, In p fp -> dict_get hd p <> None) ->
  forall st, greedy_inv hd fp st ->
  exists st', foldM (greedy_round hd fp) l st = Ok st'.
Proof.
  intros Hwf; induction l as [|x l IH]; intros st Hinv; simpl; [eauto|].
  destruct (greedy_round_total hd fp st x Hwf Hinv) as (st1 & Hst1).
  rewrite Hst1; simpl. apply IH.
  eapply greedy_round_inv; eauto.
Qed.

(** Whenever every candidate has a hash and the first index is in range,
    the selection returns. *)
Lemma greedy_from_total hd fp k first :
  (forall p, In p fp -> dict_get hd p <> None) ->
  (first < List.length fp)%nat ->
  exists sel sc, greedy_from hd fp k first = Ok (sel, sc).
Proof.
  intros Hwf Hlt. unfold greedy_from, getitem.
  rewrite nth_error_repeat by (unfold len; rewrite Nat2Z.id; exact Hlt).
  simpl.
  destruct (greedy_rounds_total hd fp (range (k - 1)) Hwf _
              (greedy_init_inv hd fp first Hlt)) as (st & ->).
  simpl; eauto.
Qed.

(* ---------------------------------------------------------------- *)
(** *** What a returned [select] went through *)

Lemma greedy_round_heads hd fp st x st' :
  greedy_round hd fp st x = Ok st' ->
  (exists l, selected_indices st' = selected_indices st ++ l) /\
  (exists l, scores st' = scores st ++ l).
Proof.
  unfold greedy_round; intros Hrun.
  destruct (rev (selected_indices st)); [discriminate|].
  apply bind_Ok in Hrun as (? & _ & Hrun).
  apply bind_Ok in Hrun as (? & _ & Hrun).
  apply bind_Ok in Hrun as ([[? ?] [?|]] & _ & Hrun);
    inversion Hrun; subst st'; simpl.
  - split; eexists; reflexivity.
  - split; exists []; rewrite app_nil_r; reflexivity.
Qed.

Lemma greedy_rounds_heads hd fp l : forall st st',
  foldM (greedy_round hd fp) l st = Ok st' ->
  (exists l', selected_indices st' = selected_indices st ++ l') /\
  (exists l', scores st' = scores st ++ l').
Proof.
  induction l as [|x l IH]; intros st st' Hrun; simpl in Hrun.
  - inversion Hrun; subst. split; exists []; rewrite app_nil_r; reflexivity.
  - apply bind_Ok in Hrun as (st1 & Hstep & Hrun).
    apply greedy_round_heads in Hstep as ((l1 & E1) & (l2 & E2)).
    apply IH in Hrun as ((l1' & E1') & (l2' & E2')).
    rewrite E1', E1, E2', E2, <- !app_assoc. split; eexists; reflexivity.
Qed.

(** The first pick and its score head the returned lists. *)
Lemma greedy_from_heads hd fp k first sel sc :
  greedy_from hd fp k first = Ok (sel, sc) ->
  (exists sel', sel = first :: sel') /\ (exists sc', sc = PosInf :: sc').
Proof.
  unfold greedy_from; intros Hrun.
  apply bind_Ok in Hrun as (? & _ & Hrun).
  apply bind_Ok in Hrun as (st & Hrounds & Hret).
  inversion Hret; subst sel sc; clear Hret.
  apply greedy_rounds_heads in Hrounds as ((l1 & ->) & (l2 & ->)); simpl.
  split; eexists; reflexivity.
Qed.

Lemma select_Ok self fp k v rs w r self' w' :
  select self fp k v rs w = (Ok r, self', w') ->
  exists g hd self1 w1 first g' sel sc,
    seed_generators rs (w_rng w) = (Ok tt, g) /\
    _compute_or_load_hashes self fp
      (match v with Some v0 => v0 | None => _verbose self end) (set_rng w g)
    = (Ok hd, self1, w1) /\
    k <= len (dict_keys hd) /\
    0 < len (dict_keys hd) /\
    random_randint (w_rng w1) 0 (len (dict_keys hd) - 1) = (first, g') /\
    greedy_from hd (dict_keys hd) k (Z.to_nat first) = Ok (sel, sc) /\
    mapM (fun idx => p <- getitem (dict_keys hd) idx ;; list_index fp p) sel
    = Ok (indices r) /\
    mapM (getitem fp) (indices r) = Ok (file_paths r) /\
    diversity_scores r = Some sc.
Proof.
  unfold select.
  set (vb := match v with Some v0 => v0 | None => _verbose self end).
  destruct (seed_generators rs (w_rng w)) as [r0 g] eqn:Eseed.
  destruct r0 as [[]|e]; [|intros H; inversion H].
  destruct (_compute_or_load_hashes self fp vb (set_rng w g))
    as [[r1 self1] w1] eqn:Ecl.
  destruct r1 as [hd|e]; [|intros H; inversion H].
  cbn [_hash_dict set_hash_dict].
  destruct (len (dict_keys hd) <? k) eqn:Elen; [intros H; inversion H|].
  apply Z.ltb_ge in Elen.
  unfold _greedy_selection. cbn [_hash_dict set_hash_dict w_rng log_event].
  destruct (len (dict_keys hd) - 1 <? 0) eqn:En; [intros H; inversion H|].
  apply Z.ltb_ge in En.
  destruct (random_randint (w_rng w1) 0 (len (dict_keys hd) - 1))
    as [first g'] eqn:Ernd.
  destruct (greedy_from hd (dict_keys hd) k (Z.to_nat first))
    as [[sel sc]|e] eqn:Egr; [|intros H; inversion H].
  destruct (mapM (fun idx => p <- getitem (dict_keys hd) idx ;; list_index fp p) sel)
    as [oi|e] eqn:Eoi; [|intros H; inversion H]. cbn [bind].
  destruct (mapM (getitem fp) oi) as [sp|e] eqn:Esp;
    [|intros H; inversion H]. cbn [bind].
  intros H.
  assert (Hr : r = mkSelectionResult oi sp (hashes r) (diversity_scores r)
               /\ diversity_scores r
                  = match sc with [] => None | _ :: _ => Some sc end).
  { destruct (_cache_manager (set_hash_dict self1 hd)) as [cm|].
    - destruct (save cm _) as [cm' dk']. inversion H; subst. auto.
    - inversion H; subst. auto. }
  destruct Hr as (Hr & Hds).
  destruct (greedy_from_heads _ _ _ _ _ _ Egr) as (_ & sc' & Hsc).
  exists g, hd, self1, w1, first, g', sel, sc.
  rewrite Hr; cbn [indices file_paths diversity_scores].
  rewrite Hr in Hds; cbn [diversity_scores] in Hds.
  repeat split; auto; try lia.
  rewrite Hds, Hsc. reflexivity.
Qed.

(* ---------------------------------------------------------------- *)
(** *** Ordered dictionaries *)

Lemma dict_get_set_eq V (d : dict V) k v :
  dict_get (dict_set d k v) k = Some v.
Proof.
  induction d as [|[k' v'] d IH]; simpl.
  - rewrite String.eqb_refl; reflexivity.
  - destruct (String.eqb_spec k' k) as [->|Hne]; simpl.
    + rewrite String.eqb_refl; reflexivity.
    + destruct (String.eqb_spec k' k); [contradiction | exact IH].
Qed.

Lemma dict_get_set_neq V (d : dict V) k k0 v :
  k <> k0 -> dict_get (dict_set d k v) k0 = dict_get d k0.
Proof.
  intros Hne. induction d as [|[k' v'] d IH]; simpl.
  - destruct (String.eqb_spec k k0); [contradiction | reflexivity].
  - destruct (String.eqb_spec k' k) as [->|Hne']; simpl.
    + destruct (String.eqb_spec k k0); [contradiction | reflexivity].
    + destruct (String.eqb_spec k' k0); [reflexivity | exact IH].
Qed.

Lemma dict_keys_set V (d : dict V) k v :
  dict_keys (dict_set d k v)
  = if dict_mem d k then dict_keys d else dict_keys d ++ [k].
Proof.
  unfold dict_mem, dict_keys.
  induction d as [|[k' v'] d IH]; simpl; [reflexivity|].
  destruct (String.eqb_spec k' k) as [->|Hne]; simpl; [reflexivity|].
  rewrite IH. destruct (dict_get d k); reflexivity.
Qed.

Lemma dict_keys_set_In V (d : dict V) k v p :
  In p (dict_keys (dict_set d k v)) <-> In p (dict_keys d) \/ p = k.
Proof.
  rewrite dict_keys_set. unfold dict_mem.
  destruct (dict_get d k) eqn:E.
  - split; [auto | intros [H | ->]; auto].
    apply dict_get_keys. congruence.
  - rewrite in_app_iff; simpl. intuition congruence.
Qed.

Lemma dict_keys_set_NoDup V (d : dict V) k v :
  NoDup (dict_keys d) -> NoDup (dict_keys (dict_set d k v)).
Proof.
  intros Hnd. rewrite dict_keys_set. unfold dict_mem.
  destruct (dict_get d k) eqn:E; auto.
  apply NoDup_app; auto.
  - constructor; [intros [] | constructor].
  - intros p Hp [<- | []]. apply dict_get_keys in Hp. congruence.
Qed.

(** Folding assignments [d[key x] = v] over the items [x] that carry a
    value [v]. *)
Lemma fold_set_keys A V (key : A -> string) (val : A -> option V)
    (step : dict V -> A -> dict V) :
  (forall acc x, step acc x = match val x with
                              | Some v => dict_set acc (key x) v
                              | None => acc
                              end) ->
  forall l d,
    (NoDup (dict_keys d) -> NoDup (dict_keys (fold_left step l d))) /\
    (forall p, In p (dict_keys (fold_left step l d)) <->
               In p (dict_keys d) \/
               exists x, In x l /\ key x = p /\ val x <> None).
Proof.
  intros Hstep.
  induction l as [|x l IH]; intros d; simpl.
  - split; auto. intros p; split; auto. intros [H | (x & [] & _)]; auto.
  - destruct (IH (step d x)) as (Hnd & Hin). rewrite Hstep in *.
    split.
    + intros H. apply Hnd. destruct (val x); auto.
      apply dict_keys_set_NoDup; auto.
    + intros p. rewrite Hin. destruct (val x) as [v|] eqn:Ev.
      * rewrite dict_keys_set_In. split.
        -- intros [[H | ->] | (y & Hy & Hk & Hv)]; auto.
           ++ right; exists x; repeat split; auto; congruence.
           ++ right; exists y; auto.
        -- intros [H | (y & [<- | Hy] & Hk & Hv)]; auto.
           right; exists y; auto.
      * split.
        -- intros [H | (y & Hy & Hk & Hv)]; auto.
           right; exists y; auto.
        -- intros [H | (y & [<- | Hy] & Hk & Hv)]; auto; [congruence|].
           right; exists y; auto.
Qed.

(** When the value of an item is a function [f] of its key, the resulting
    dictionary does not depend on the order of the items. *)
Lemma fold_set_get A V (key : A -> string) (val : A -> option V)
    (step : dict V -> A -> dict V) (f : string -> option V) :
  (forall acc x, step acc x = match val x with
                              | Some v => dict_set acc (key x) v
                              | None => acc
                              end) ->
  forall l d p,
    (forall x, In x l -> val x = f (key x)) ->
    dict_get (fold_left step l d) p
    = if in_dec string_dec p (map key l)
      then match f p with Some v => Some v | None => dict_get d p end
      else dict_get d p.
Proof.
  intros Hstep.
  induction l as [|x l IH]; intros d p Hval; [reflexivity|].
  cbn [fold_left]. rewrite IH by (intros y Hy; apply Hval; right; exact Hy).
  assert (Hx : dict_get (step d x) p
               = if string_dec (key x) p
                 then match f p with Some v => Some v | None => dict_get d p end
                 else dict_get d p).
  { rewrite Hstep, (Hval x) by (left; reflexivity).
    destruct (string_dec (key x) p) as [<-|Hne].
    - destruct (f (key x)); [apply dict_get_set_eq | reflexivity].
    - destruct (f (key x)); [apply dict_get_set_neq; auto | reflexivity]. }
  rewrite Hx.
  destruct (in_dec string_dec p (map key l)) as [Hin|Hnin];
    destruct (in_dec string_dec p (map key (x :: l))) as [Hin'|Hnin'];
    simpl in *;
    destruct (string_dec (key x) p) as [E|E];
    destruct (f p); try reflexivity; try tauto.
Qed.

Lemma dict_update_keys V (d d2 : dict V) :
  (NoDup (dict_keys d) -> NoDup (dict_keys (dict_update d d2))) /\
  (forall p, In p (dict_keys (dict_update d d2)) <->
             In p (dict_keys d) \/ In p (dict_keys d2)).
Proof.
  unfold dict_update.
  destruct (fold_set_keys (string * V) V fst (fun kv => Some (snd kv))
              (fun acc kv => dict_set acc (fst kv) (snd kv))
              (fun _ _ => eq_refl) d2 d)
    as (Hnd & Hin).
  split; [exact Hnd|].
  intros p. rewrite Hin. unfold dict_keys at 3. rewrite in_map_iff.
  split; intros [H | (x & H1 & H2)]; auto.
  - destruct H2 as (<- & _). right; exists x; auto.
  - right. exists x. subst p. repeat split; auto. discriminate.
Qed.

(* ---------------------------------------------------------------- *)
(** *** Completion order of a worker pool *)

Lemma remove_nth_perm A (l : list A) : forall c x,
  nth_error l c = Some x -> Permutation l (x :: remove_nth c l).
Proof.
  induction l as [|h t IH]; intros [|c] x H; simpl in *; try discriminate.
  - inversion H; subst; reflexivity.
  - rewrite (IH _ _ H) at 1. apply perm_swap.
Qed.

Lemma length_remove_nth A (l : list A) : forall c,
  (c < List.length l)%nat ->
  List.length (remove_nth c l) = pred (List.length l).
Proof.
  induction l as [|h t IH]; intros [|c] H; simpl in *; try lia.
  rewrite IH by lia. destruct t; simpl in *; lia.
Qed.

Lemma complete_perm A fuel : forall choices (pending : list A),
  List.length pending = fuel ->
  Permutation (complete fuel choices pending) pending.
Proof.
  induction fuel as [|fuel IH]; intros choices pending Hlen; simpl.
  - destruct pending; [constructor | discriminate].
  - set (c := Nat.modulo (hd O choices) (List.length pending)).
    assert (Hc : (c < List.length pending)%nat)
      by (apply Nat.mod_upper_bound; lia).
    destruct (nth_error pending c) as [x|] eqn:E;
      [|apply nth_error_None in E; lia].
    rewrite (remove_nth_perm _ _ _ _ E) at 2.
    constructor. apply IH.
    rewrite length_remove_nth by auto. lia.
Qed.

(** Every future completes exactly once, whatever the schedule. *)
Lemma as_completed_perm A choices (futures : list A) :
  Permutation (as_completed choices futures) futures.
Proof. apply complete_perm; reflexivity. Qed.

(* ---------------------------------------------------------------- *)
(** *** parallel.py: which hashes come back *)

Lemma worker_fst fs p : fst (_compute_hash_worker fs p) = p.
Proof.
  unfold _compute_hash_worker.
  destruct (compute_tlsh_hash fs p); reflexivity.
Qed.

Lemma worker_snd fs p : snd (_compute_hash_worker fs p) = hash_of fs p.
Proof.
  unfold _compute_hash_worker, hash_of.
  destruct (compute_tlsh_hash fs p); reflexivity.
Qed.

Lemma compute_hashes_parallel_spec W (w : World W) fps n_jobs verbose :
  if (n_jobs =? -1) || (0 <? n_jobs) then
    exists d,
      compute_hashes_parallel w fps n_jobs verbose = Ok d /\
      NoDup (dict_keys d) /\
      forall p, dict_get d p
                = if in_dec string_dec p fps then hash_of (w_fs w) p else None
  else
    compute_hashes_parallel w fps n_jobs verbose
    = Raise (ValueError "max_workers must be greater than 0").
Proof.
  unfold compute_hashes_parallel.
  set (nj := if n_jobs =? -1 then Z.pos (w_cpu_count w) else n_jobs).
  assert (Hnj : ((n_jobs =? -1) || (0 <? n_jobs) = (0 <? nj))%bool).
  { unfold nj. destruct (Z.eqb_spec n_jobs (-1)) as [->|Hne]; simpl.
    - symmetry; apply Z.ltb_lt; lia.
    - reflexivity. }
  rewrite Hnj.
  destruct (Z.eqb_spec nj 1) as [E1|E1].
  - (* sequential *)
    rewrite E1; simpl.
    eexists; split; [reflexivity|].
    set (step := fun results file_path => _).
    assert (Hstep : forall acc x,
               step acc x = match hash_of (w_fs w) x with
                            | Some v => dict_set acc x v | None => acc end).
    { intros acc x; unfold step, hash_of.
      destruct (compute_tlsh_hash (w_fs w) x); reflexivity. }
    split.
    + apply (fold_set_keys _ _ (fun x => x) _ _ Hstep fps []). constructor.
    + intros p.
      rewrite (fold_set_get _ _ (fun x => x) _ _ (hash_of (w_fs w)) Hstep)
        by reflexivity.
      rewrite map_id. simpl.
      destruct (in_dec string_dec p fps); [destruct (hash_of _ p)|]; reflexivity.
  - destruct (Z.leb_spec nj 0) as [Hle|Hgt].
    + destruct (Z.ltb_spec 0 nj); [lia | reflexivity].
    + (* worker pool *)
      destruct (Z.ltb_spec 0 nj); [|lia].
      eexists; split; [reflexivity|].
      set (futures := map (_compute_hash_worker (w_fs w)) fps).
      set (step := fun results future => _).
      assert (Hstep : forall acc (x : string * option string),
                 step acc x = match snd x with
                              | Some v => dict_set acc (fst x) v | None => acc end).
      { intros acc [x [v|]]; reflexivity. }
      assert (Hperm := as_completed_perm _ (w_sched w) futures).
      assert (Hworker : forall x, In x (as_completed (w_sched w) futures) ->
                          snd x = hash_of (w_fs w) (fst x)).
      { intros x Hx. apply (Permutation_in _ Hperm) in Hx.
        unfold futures in Hx. apply in_map_iff in Hx as (p & <- & _).
        rewrite worker_fst. apply worker_snd. }
      assert (Hkeys : forall p, In p (map fst (as_completed (w_sched w) futures))
                                <-> In p fps).
      { intros p.
        assert (Hf : map fst futures = fps).
        { unfold futures. rewrite map_map.
          rewrite <- (map_id fps) at 2. apply map_ext.
          intros q. apply worker_fst. }
        rewrite <- Hf.
        split; apply Permutation_in; [|symmetry]; apply Permutation_map; auto. }
      split.
      * apply (fold_set_keys _ _ fst snd _ Hstep _ []). constructor.
      * intros p.
        rewrite (fold_set_get _ _ fst snd _ (hash_of (w_fs w)) Hstep) by auto.
        simpl.
        destruct (in_dec string_dec p (map fst _)) as [Hi|Hi];
          destruct (in_dec string_dec p fps) as [Hj|Hj];
          try (apply Hkeys in Hi; contradiction);
          try (apply Hkeys in Hj; contradiction);
          [destruct (hash_of _ p)|]; reflexivity.
Qed.

(* ---------------------------------------------------------------- *)
(** *** selector.py: the candidates *)

Lemma get_self cm fs p : snd (get cm fs p) = cm.
Proof. reflexivity. Qed.

Lemma check_cache_fold fs l : forall hd ftc cm hd' ftc' cm',
  foldM (check_cache_step fs) l (hd, ftc, cm) = Ok (hd', ftc', cm') ->
  (NoDup (dict_keys hd) -> NoDup (dict_keys hd')) /\
  (forall p, In p (dict_keys hd') -> In p (dict_keys hd) \/ In p l) /\
  (forall p, In p ftc' -> In p ftc \/ In p l) /\
  cm' = cm.
Proof.
  induction l as [|x l IH]; intros hd ftc cm hd' ftc' cm' Hrun;
    simpl in Hrun.
  - inversion Hrun; subst. repeat split; auto.
  - apply bind_Ok in Hrun as ([[hd1 ftc1] cm1] & Hstep & Hrun).
    apply IH in Hrun as (Hnd & Hk & Hf & ->).
    unfold check_cache_step in Hstep.
    pose proof (get_self cm fs x) as Hself.
    destruct (get cm fs x) as [r cm2]; simpl in Hself; subst cm2.
    apply bind_Ok in Hstep as (ch & _ & Hstep).
    destruct (truthy ch); [destruct ch as [h|]|];
      inversion Hstep; subst; clear Hstep.
    + split; [intros; apply Hnd, dict_keys_set_NoDup; auto|].
      split; [|split; auto].
      * intros p Hp. apply Hk in Hp as [Hp | Hp]; [|right; right; auto].
        apply dict_keys_set_In in Hp as [Hp | ->]; auto.
        right; left; reflexivity.
      * intros p Hp. apply Hf in Hp as [Hp | Hp]; auto. right; right; auto.
    + split; [auto|]. split; [|split; auto].
      * intros p Hp. apply Hk in Hp as [Hp | Hp]; auto. right; right; auto.
      * intros p Hp. apply Hf in Hp as [Hp | Hp]; auto. right; right; auto.
    + split; [auto|]. split; [|split; auto].
      * intros p Hp. apply Hk in Hp as [Hp | Hp]; auto. right; right; auto.
      * intros p Hp. apply Hf in Hp as [Hp | Hp]; [|right; right; auto].
        apply in_app_or in Hp as [Hp | [<- | []]]; auto.
        right; left; reflexivity.
Qed.

Lemma compute_hashes_parallel_keys W (w : World W) fps n_jobs verbose d :
  compute_hashes_parallel w fps n_jobs verbose = Ok d ->
  NoDup (dict_keys d) /\ incl (dict_keys d) fps.
Proof.
  intros Hrun.
  pose proof (compute_hashes_parallel_spec W w fps n_jobs verbose) as Hspec.
  destruct ((n_jobs =? -1) || (0 <? n_jobs))%bool.
  - destruct Hspec as (d' & Hd' & Hnd & Hget).
    rewrite Hrun in Hd'; inversion Hd'; subst d'.
    split; auto. intros p Hp. apply dict_get_keys in Hp.
    rewrite Hget in Hp. destruct (in_dec string_dec p fps); congruence.
  - congruence.
Qed.

(** The candidates are distinct identifiers of the input list, and
    computing them leaves generator, files and disk as they were. *)
Lemma compute_or_load_Ok self fp v w hd self1 w1 :
  _compute_or_load_hashes self fp v w = (Ok hd, self1, w1) ->
  NoDup (dict_keys hd) /\ incl (dict_keys hd) fp /\
  w_rng w1 = w_rng w /\ w_fs w1 = w_fs w /\ w_disk w1 = w_disk w.
Proof.
  unfold _compute_or_load_hashes.
  set (checked := match _cache_manager self with Some cm => _ | None => _ end).
  assert (Hchecked : forall hd0 ftc cm0, checked = Ok (hd0, ftc, cm0) ->
             NoDup (dict_keys hd0) /\ incl (dict_keys hd0) fp /\ incl ftc fp).
  { unfold checked. intros hd0 ftc cm0 H.
    destruct (_cache_manager self) as [cm|].
    - apply bind_Ok in H as ([[hd1 ftc1] cm1] & Hfold & Hret).
      inversion Hret; subst; clear Hret.
      apply check_cache_fold in Hfold as (Hnd & Hk & Hf & _).
      split; [apply Hnd; constructor|].
      split; intros p Hp; [apply Hk in Hp | apply Hf in Hp];
        destruct Hp as [[] | Hp]; exact Hp.
    - inversion H; subst. split; [constructor|].
      split; [intros p [] | intros p Hp; exact Hp]. }
  destruct checked as [[[hd0 ftc] cm0]|e]; [|intros H; inversion H].
  destruct (Hchecked _ _ _ eq_refl) as (Hnd & Hk & Hf).
  destruct ftc as [|f0 ftc].
  - intros H; inversion H; subst. repeat split; auto.
  - destruct (compute_hashes_parallel _ _ _ _) as [computed|e] eqn:Ec;
      [|intros H; inversion H].
    apply compute_hashes_parallel_keys in Ec as (Hndc & Hkc).
    destruct (dict_update_keys _ hd0 computed) as (Hndu & Hku).
    assert (Hincl : incl (dict_keys (dict_update hd0 computed)) fp).
    { intros p Hp. apply Hku in Hp as [Hp | Hp]; auto. }
    destruct cm0 as [cm|];
      [destruct (update_cache _ computed cm) as [[[]|e] cm']|];
      intros H; inversion H; subst; clear H; repeat split; auto.
Qed.

Lemma compute_hashes_parallel_env W W' (w : World W) (w' : World W')
    fps n_jobs verbose verbose' :
  w_fs w' = w_fs w -> w_cpu_count w' = w_cpu_count w ->
  w_sched w' = w_sched w ->
  compute_hashes_parallel w' fps n_jobs verbose'
  = compute_hashes_parallel w fps n_jobs verbose.
Proof.
  unfold compute_hashes_parallel. intros -> -> ->. reflexivity.
Qed.

(** The generator plays no part in computing the candidates. *)
Lemma compute_or_load_set_rng self fp v w g :
  _compute_or_load_hashes self fp v (set_rng w g)
  = let '(r, self1, w1) := _compute_or_load_hashes self fp v w in
    (r, self1, set_rng w1 g).
Proof.
  unfold _compute_or_load_hashes. cbn [w_fs set_rng].
  set (checked := match _cache_manager self with Some cm => _ | None => _ end).
  destruct checked as [[[hd0 ftc] cm0]|e]; [|reflexivity].
  destruct ftc as [|f0 ftc]; [reflexivity|].
  rewrite (compute_hashes_parallel_env _ _
             (log_event w (EvComputeHashes (f0 :: ftc)))
             (log_event (set_rng w g) (EvComputeHashes (f0 :: ftc)))
             (f0 :: ftc) (_n_jobs (set_cache_manager self cm0)) v v)
    by reflexivity.
  destruct (compute_hashes_parallel _ _ _ _); [|reflexivity].
  destruct cm0 as [cm|]; [|reflexivity].
  cbn [w_fs log_event set_rng].
  destruct (update_cache _ _ cm) as [[[]|e] cm']; reflexivity.
Qed.

(* ---------------------------------------------------------------- *)
(** *** selector.py: the picks of a call *)

Lemma seed_generators_again rs g0 r g :
  seed_generators rs g0 = (r, g) -> seed_generators rs g = (r, g).
Proof.
  unfold seed_generators. destruct rs as [s|]; [|intros H; inversion H; auto].
  destruct ((0 <=? s) && (s <? 2 ^ 32))%bool; intros H; inversion H; auto.
Qed.

(** A call of [select] that reaches the candidates [hd] returns the picks
    [select_outcome] computes from them. *)
Lemma select_picks self fp k v rs w g hd self1 w1 :
  seed_generators rs (w_rng w) = (Ok tt, g) ->
  _compute_or_load_hashes self fp
    (match v with Some v0 => v0 | None => _verbose self end) (set_rng w g)
  = (Ok hd, self1, w1) ->
  picks (fst (fst (select self fp k v rs w))) = select_outcome hd fp k g.
Proof.
  intros Hseed Hcl.
  pose proof (compute_or_load_Ok _ _ _ _ _ _ _ Hcl) as (_ & _ & Hrng & _).
  cbn [w_rng set_rng] in Hrng.
  unfold select, select_outcome. rewrite Hseed, Hcl.
  cbn [_hash_dict set_hash_dict].
  destruct (len (dict_keys hd) <? k); [reflexivity|].
  unfold _greedy_selection. cbn [_hash_dict set_hash_dict w_rng log_event].
  rewrite Hrng.
  destruct (len (dict_keys hd) - 1 <? 0); [reflexivity|].
  destruct (random_randint g 0 (len (dict_keys hd) - 1)) as [first g'].
  cbn [fst].
  destruct (greedy_from hd (dict_keys hd) k (Z.to_nat first))
    as [[sel sc]|e]; [|reflexivity]. cbn [bind].
  destruct (mapM _ sel) as [oi|e]; [|reflexivity]. cbn [bind].
  destruct (mapM (getitem fp) oi) as [sp|e]; [|reflexivity]. cbn [bind].
  destruct (_cache_manager (set_hash_dict self1 hd)) as [cm|];
    [destruct (save cm _)|]; reflexivity.
Qed.

Lemma select_diverse_files_Ok fp k cd v nj rs w r w' :
  select_diverse_files fp k cd v nj rs w = (Ok r, w') ->
  0 < k <= len fp /\
  exists g selector self',
    seed_generators rs (w_rng w) = (Ok tt, g) /\
    FileSelector_init cd nj v (w_disk w) = Ok selector /\
    select selector fp k (Some v) rs (set_rng w g) = (Ok r, self', w').
Proof.
  unfold select_diverse_files.
  destruct (Z.leb_spec k 0) as [Hk|Hk]; [intros H; inversion H|].
  destruct (k >? len fp) eqn:Egt; [intros H; inversion H|].
  destruct (seed_generators rs (w_rng w)) as [r0 g] eqn:Eseed.
  destruct r0 as [[]|e]; [|intros H; inversion H].
  cbn [w_disk set_rng].
  destruct (FileSelector_init cd nj v (w_disk w)) as [selector|e] eqn:Einit;
    [|intros H; inversion H].
  destruct (select selector fp k (Some v) rs (set_rng w g))
    as [[r1 self'] w1] eqn:Esel.
  intros H; inversion H; subst.
  split; [rewrite Z.gtb_ltb in Egt; apply Z.ltb_ge in Egt; lia|].
  exists g, selector, self'. auto.
Qed.

(** A call of [select_diverse_files] that passes validation and seeding and
    reaches the candidates [hd] returns the picks [select_outcome]
    computes from them. *)
Lemma select_diverse_files_picks fp k cd v nj rs w g hd :
  0 < k <= len fp ->
  seed_generators rs (w_rng w) = (Ok tt, g) ->
  candidates_of cd nj v fp w = Ok hd ->
  picks (fst (select_diverse_files fp k cd v nj rs w))
  = select_outcome hd fp k g.
Proof.
  intros Hk Hseed Hcand.
  unfold candidates_of in Hcand.
  apply bind_Ok in Hcand as (selector & Hinit & Hcand).
  unfold candidates in Hcand.
  unfold select_diverse_files.
  destruct (Z.leb_spec k 0) as [Hk0|Hk0]; [lia|].
  destruct (k >? len fp) eqn:Egt;
    [rewrite Z.gtb_ltb in Egt; apply Z.ltb_lt in Egt; lia|].
  rewrite Hseed. cbn [w_disk set_rng]. rewrite Hinit.
  destruct (_compute_or_load_hashes selector fp v w) as [[r1 self1] w1] eqn:Ecl.
  cbn [fst] in Hcand; subst r1.
  pose proof (compute_or_load_set_rng selector fp v (set_rng w g) g) as E2.
  pose proof (compute_or_load_set_rng selector fp v w g) as E1.
  rewrite Ecl in E1. rewrite E1 in E2.
  rewrite <- (select_picks selector fp k (Some v) rs (set_rng w g) g hd
                self1 (set_rng (set_rng w1 g) g)).
  - destruct (select selector fp k (Some v) rs (set_rng w g)) as [[r2 s2] w2].
    reflexivity.
  - cbn [w_rng set_rng]. eapply seed_generators_again; eauto.
  - exact E2.
Qed.

(* ---------------------------------------------------------------- *)
(** *** Mapping the picks back to input positions *)

Lemma mapM_Forall2 A B (f : A -> res B) l : forall l',
  mapM f l = Ok l' -> Forall2 (fun x y => f x = Ok y) l l'.
Proof.
  induction l as [|x l IH]; intros l' H; simpl in H.
  - inversion H; constructor.
  - apply bind_Ok in H as (y & Hy & H).
    apply bind_Ok in H as (ys & Hys & H).
    inversion H; subst. constructor; auto.
Qed.

Lemma list_index_spec l x : forall i,
  list_index l x = Ok i ->
  nth_error l i = Some x /\
  forall j, (j < i)%nat -> nth_error l j <> Some x.
Proof.
  induction l as [|y l IH]; intros i H; simpl in H; [discriminate|].
  destruct (String.eqb_spec y x) as [->|Hne].
  - inversion H; subst. split; [reflexivity | intros j Hj; lia].
  - apply bind_Ok in H as (i' & Hi' & H). inversion H; subst.
    destruct (IH _ Hi') as (Hnth & Hfirst).
    split; [exact Hnth|].
    intros [|j] Hj; simpl; [congruence | apply Hfirst; lia].
Qed.

Lemma Forall2_In_r A B (R : A -> B -> Prop) l l' y :
  Forall2 R l l' -> In y l' -> exists x, In x l /\ R x y.
Proof.
  induction 1 as [|x y' l l' Hxy HF IH]; intros Hin; [destruct Hin|].
  destruct Hin as [<- | Hin].
  - exists x; split; [left; reflexivity | exact Hxy].
  - destruct (IH Hin) as (x' & Hx' & HR). exists x'; split; [right|]; auto.
Qed.

Lemma Forall2_In_l A B (R : A -> B -> Prop) l l' x :
  Forall2 R l l' -> In x l -> exists y, In y l' /\ R x y.
Proof.
  induction 1 as [|x' y l l' Hxy HF IH]; intros Hin; [destruct Hin|].
  destruct Hin as [<- | Hin].
  - exists y; split; [left; reflexivity | exact Hxy].
  - destruct (IH Hin) as (y' & Hy' & HR). exists y'; split; [right|]; auto.
Qed.

Lemma Forall2_NoDup A B (R : A -> B -> Prop) l l' :
  Forall2 R l l' ->
  (forall x x' y, In x l -> In x' l -> R x y -> R x' y -> x = x') ->
  NoDup l -> NoDup l'.
Proof.
  induction 1 as [|x y l l' Hxy HF IH]; intros Hinj Hnd; [constructor|].
  inversion Hnd as [|? ? Hnot Hnd']; subst.
  constructor.
  - intros Hin. destruct (Forall2_In_r _ _ _ _ _ _ HF Hin) as (x' & Hx' & HR).
    apply Hnot. rewrite (Hinj x x' y); auto; [left | right]; auto.
  - apply IH; auto. intros a a' b Ha Ha'. apply Hinj; right; auto.
Qed.

Lemma Forall2_compose A B C (R1 : A -> B -> Prop) (R2 : B -> C -> Prop) l1 :
  forall l2 l3,
  Forall2 R1 l1 l2 -> Forall2 R2 l2 l3 ->
  Forall2 (fun x z => exists y, R1 x y /\ R2 y z) l1 l3.
Proof.
  induction l1 as [|x l1 IH]; intros l2 l3 H1 H2;
    inversion H1; subst; inversion H2; subst; constructor; eauto.
Qed.

Lemma nth_all_repeat A (x d : A) l :
  (forall t, (t < List.length l)%nat -> nth t l d = x) ->
  l = repeat x (List.length l).
Proof.
  induction l as [|y l IH]; intros H; simpl; [reflexivity|].
  rewrite <- IH.
  - f_equal. apply (H O). simpl; lia.
  - intros t Ht. apply (H (S t)). simpl; lia.
Qed.

Lemma min_dist_zero hd S i :
  (forall p q h1 h2, dict_get hd p = Some h1 -> dict_get hd q = Some h2 ->
                   tlsh_diff h1 h2 = 0) ->
  S <> [] ->
  (forall s, In s S -> (s < List.length (dict_keys hd))%nat) ->
  (i < List.length (dict_keys hd))%nat ->
  min_dist hd (dict_keys hd) S i = Fin 0.
Proof.
  intros Hzero Hne HS Hi.
  assert (Hdist : forall s, (s < List.length (dict_keys hd))%nat ->
                    dist hd (dict_keys hd) s i = Fin 0).
  { intros s Hs. unfold dist, cand_hash.
    destruct (nth_error (dict_keys hd) s) as [p|] eqn:Ep;
      [|apply nth_error_None in Ep; lia].
    destruct (nth_error (dict_keys hd) i) as [q|] eqn:Eq;
      [|apply nth_error_None in Eq; lia].
    apply nth_error_In in Ep, Eq. apply dict_get_keys in Ep, Eq.
    destruct (dict_get hd p) as [h1|] eqn:E1; [|congruence].
    destruct (dict_get hd q) as [h2|] eqn:E2; [|congruence].
    f_equal. eapply Hzero; eauto. }
  induction S as [|s S IH] using rev_ind; [congruence|].
  rewrite min_dist_snoc, Hdist by (apply HS, in_or_app; right; left; reflexivity).
  destruct S as [|s0 S0]; [reflexivity|].
  rewrite IH; [reflexivity | discriminate|].
  intros s' Hs'. apply HS, in_or_app; left; exact Hs'.
Qed.

(** What [select] returns for a count of at least one: as many indices as
  requested, each the first position of a distinct identifier of the input
  list; and scores [inf, 0, 0, ...] when all candidates are at distance 0
  of one another. *)
Lemma select_result_shape self fp k v rs w r self' w' :
  1 <= k ->
  select self fp k v rs w = (Ok r, self', w') ->
  List.length (indices r) = Z.to_nat k /\
  NoDup (indices r) /\
  NoDup (file_paths r) /\
  Forall2 (fun i p => nth_error fp i = Some p /\
                    forall j, (j < i)%nat -> nth_error fp j <> Some p)
        (indices r) (file_paths r) /\
  forall g hd,
  seed_generators rs (w_rng w) = (Ok tt, g) ->
  candidates self fp (match v with Some v0 => v0 | None => _verbose self end)
             (set_rng w g) = Ok hd ->
  (forall p q h1 h2, dict_get hd p = Some h1 -> dict_get hd q = Some h2 ->
                     tlsh_diff h1 h2 = 0) ->
  diversity_scores r = Some (PosInf :: repeat (Fin 0) (Z.to_nat k - 1)).
Proof.
  intros Hk Hsel.
  apply select_Ok in Hsel
    as (g & hd & self1 & w1 & first & g' & sel & sc
        & Hseed & Hcl & Hkn & Hn & Hrnd & Hgr & Hoi & Hsp & Hsc).
  destruct (compute_or_load_Ok _ _ _ _ _ _ _ Hcl) as (Hndk & Hinc & _).
  destruct (greedy_from_heads _ _ _ _ _ _ Hgr) as (_ & rest & Hrest).
  apply greedy_from_inv in Hgr as (_ & _ & Hlen & md & Hinv).
  pose proof Hinv as (_ & _ & Hnd & Hlsc & Hin & _ & _ & Hhist).
  simpl in Hnd, Hlsc, Hin, Hhist.
  assert (Hlen' : List.length sel = Z.to_nat k).
  { rewrite Hlen. unfold len in Hkn. lia. }
  apply mapM_Forall2 in Hoi, Hsp.
  assert (Hoi' : Forall2 (fun idx i => exists p,
                            nth_error (dict_keys hd) idx = Some p /\
                            nth_error fp i = Some p /\
                            forall j, (j < i)%nat -> nth_error fp j <> Some p)
                         sel (indices r)).
  { eapply Forall2_impl; [|exact Hoi]. cbv beta.
    intros idx i H. apply bind_Ok in H as (p & Hp & Hi).
    apply getitem_Ok in Hp. apply list_index_spec in Hi as (? & ?). eauto. }
  assert (Hkeys_inj : forall idx idx' p,
             In idx sel -> In idx' sel ->
             nth_error (dict_keys hd) idx = Some p ->
             nth_error (dict_keys hd) idx' = Some p -> idx = idx').
  { intros idx idx' p Hi Hi' E E'.
    eapply (proj1 (NoDup_nth_error (dict_keys hd)) Hndk); [|congruence].
    apply nth_error_Some. congruence. }
  split; [rewrite <- (Forall2_length Hoi'); exact Hlen'|].
  split.
  { eapply Forall2_NoDup; [exact Hoi'| |exact Hnd].
    intros idx idx' i Hi Hi' (p & Hp & Hfp & _) (p' & Hp' & Hfp' & _).
    eapply Hkeys_inj; eauto. congruence. }
  split.
  { eapply Forall2_NoDup;
      [exact (Forall2_compose _ _ _ _ _ _ _ _ Hoi' Hsp)| |exact Hnd].
    cbv beta.
    intros idx idx' q Hi Hi' (i & (p & Hp & Hfp & _) & Hq)
           (i' & (p' & Hp' & Hfp' & _) & Hq').
    apply getitem_Ok in Hq, Hq'.
    eapply Hkeys_inj; eauto. congruence. }
  split.
  { clear - Hoi' Hsp. revert Hoi' Hsp. generalize (file_paths r).
    generalize (indices r). intros ixs. revert sel.
    induction ixs as [|i ixs IH]; intros sel ps Hoi' Hsp;
      inversion Hsp; subst; [constructor|].
    inversion Hoi' as [|idx ? sel' ? (p & _ & Hfp & Hfirst) Hrest']; subst.
    constructor; [|eapply IH; eauto].
    match goal with H : getitem fp i = Ok _ |- _ => apply getitem_Ok in H end.
    split; [assumption|]. intros j Hj. replace y with p by congruence.
    apply Hfirst; exact Hj. }
  intros g0 hd0 Hseed0 Hcand Hzero.
  assert (g0 = g) by congruence; subst g0.
  unfold candidates in Hcand. rewrite Hcl in Hcand. simpl in Hcand.
  inversion Hcand; subst hd0; clear Hcand.
  rewrite Hsc, Hrest. do 2 f_equal.
  subst sc. simpl in Hlsc.
  replace (Z.to_nat k - 1)%nat with (List.length rest) by lia.
  apply (nth_all_repeat _ (Fin 0) PosInf). intros t Ht.
  destruct (Hhist (S t)) as (Hp & _ & Hst & _); [lia|].
  change (nth (S t) (PosInf :: rest) PosInf) with (nth t rest PosInf) in Hst.
  rewrite Hst.
  apply min_dist_zero; auto.
  - destruct sel; simpl; [simpl in Hlsc; lia | discriminate].
  - intros s Hs. apply Hin. eapply (In_nth_error) in Hs as (n0 & Hn0).
    apply nth_error_In with (n := n0).
    rewrite nth_error_firstn in Hn0.
    destruct (n0 <? S t)%nat; [exact Hn0 | discriminate].
Qed.

(* ---------------------------------------------------------------- *)
(** *** [select_diverse_files] returns *)

Lemma mapM_total A B (f : A -> res B) l :
  (forall x, In x l -> exists y, f x = Ok y) ->
  exists l', mapM f l = Ok l'.
Proof.
  induction l as [|x l IH]; intros H; simpl; [eauto|].
  destruct (H x) as (y & ->); [left; reflexivity|].
  destruct IH as (l' & ->); [intros z Hz; apply H; right; exact Hz|].
  simpl. eauto.
Qed.

Lemma list_index_total l x : In x l -> exists i, list_index l x = Ok i.
Proof.
  induction l as [|y l IH]; intros Hin; [destruct Hin|]. simpl.
  destruct (String.eqb_spec y x) as [->|Hne]; [eauto|].
  destruct IH as (i & ->); [destruct Hin; [contradiction | assumption]|].
  simpl. eauto.
Qed.

(** With a count between one and the number of candidates, the selection
    is carried out and a result returned. *)
Lemma select_diverse_files_returns fp k cd v nj rs w g hd :
  0 < k <= len (dict_keys hd) ->
  seed_generators rs (w_rng w) = (Ok tt, g) ->
  candidates_of cd nj v fp w = Ok hd ->
  exists r w', select_diverse_files fp k cd v nj rs w = (Ok r, w').
Proof.
  intros Hk Hseed Hcand.
  assert (Hkeys : NoDup (dict_keys hd) /\ incl (dict_keys hd) fp).
  { unfold candidates_of in Hcand.
    apply bind_Ok in Hcand as (selector & _ & Hcand).
    unfold candidates in Hcand.
    destruct (_compute_or_load_hashes selector fp v w) as [[r1 s1] w1] eqn:E.
    simpl in Hcand; subst r1.
    apply compute_or_load_Ok in E as (? & ? & _). auto. }
  destruct Hkeys as (Hnd & Hinc).
  assert (Hlen : len (dict_keys hd) <= len fp).
  { unfold len. apply Nat2Z.inj_le. apply NoDup_incl_length; auto. }
  assert (Hpicks := select_diverse_files_picks fp k cd v nj rs w g hd
                      ltac:(lia) Hseed Hcand).
  assert (Hout : exists x, select_outcome hd fp k g = Ok x).
  { unfold select_outcome.
    destruct (Z.ltb_spec (len (dict_keys hd)) k); [lia|].
    destruct (Z.ltb_spec (len (dict_keys hd) - 1) 0); [lia|].
    pose proof (random_randint_range g 0 (len (dict_keys hd) - 1) ltac:(lia))
      as Hr.
    set (first := fst (random_randint g 0 (len (dict_keys hd) - 1))) in *.
    assert (Hfirst : (Z.to_nat first < List.length (dict_keys hd))%nat)
      by (unfold len in Hr; lia).
    destruct (greedy_from_total hd (dict_keys hd) k (Z.to_nat first))
      as (sel & sc & Hgr); auto.
    { intros p Hp. apply dict_get_keys. exact Hp. }
    rewrite Hgr. cbn [bind].
    apply greedy_from_inv in Hgr as (_ & _ & _ & md & Hinv).
    destruct Hinv as (_ & _ & _ & _ & Hin & _). simpl in Hin.
    destruct (mapM_total _ _
                (fun idx => p <- getitem (dict_keys hd) idx ;; list_index fp p)
                sel) as (oi & Hoi).
    { intros idx Hidx. destruct (Hin idx Hidx) as (Hlt & _).
      unfold getitem.
      destruct (nth_error (dict_keys hd) idx) as [p|] eqn:Ep;
        [|apply nth_error_None in Ep; lia]. simpl.
      apply list_index_total, Hinc. eapply nth_error_In; eauto. }
    rewrite Hoi. cbn [bind].
    destruct (mapM_total _ _ (getitem fp) oi) as (sp & Hsp).
    { intros i Hi. apply mapM_Forall2 in Hoi.
      destruct (Forall2_In_r _ _ _ _ _ _ Hoi Hi) as (idx & _ & Hidx).
      apply bind_Ok in Hidx as (p & _ & Hidx).
      apply list_index_spec in Hidx as (Hp & _).
      exists p. apply getitem_Ok. exact Hp. }
    rewrite Hsp. cbn [bind]. eauto. }
  destruct Hout as (x & Hx). rewrite Hx in Hpicks.
  destruct (select_diverse_files fp k cd v nj rs w) as [[r|e] w'];
    [eauto | discriminate].
Qed.

(* ---------------------------------------------------------------- *)
(** *** The rounds of the greedy selection *)

(** Round [t] of a returned selection picked, among the candidates not
    selected before it, one of maximal minimum distance to those selected
    before it, and the one of lowest index among these; its score is that
    distance. *)
Lemma greedy_selection_picks self fp k verbose g sel sc g' :
  _greedy_selection self fp k verbose g = (Ok (sel, sc), g') ->
  forall t, (1 <= t < List.length sel)%nat ->
    is_pick (_hash_dict self) fp (firstn t sel) (nth t sel O) (nth t sc PosInf).
Proof.
  unfold _greedy_selection. intros Hrun.
  destruct (len fp - 1 <? 0); [inversion Hrun|].
  destruct (random_randint g 0 (len fp - 1)) as [first g1].
  inversion Hrun as [[Hgr Hg]]; clear Hrun.
  apply greedy_from_inv in Hgr as (_ & _ & _ & md & Hinv).
  destruct Hinv as (_ & _ & _ & _ & _ & _ & _ & Hhist).
  exact Hhist.
Qed.

(** A round has one pick only: two candidates that both qualify are the
    same candidate. *)
Lemma is_pick_unique hd fp sel p sc p' sc' :
  is_pick hd fp sel p sc -> is_pick hd fp sel p' sc' -> p = p' /\ sc = sc'.
Proof.
  intros (Hp & Hn & Hsc & Hmax) (Hp' & Hn' & Hsc' & Hmax').
  assert (E : p = p').
  { destruct (Nat.lt_trichotomy p p') as [Hlt | [E | Hlt]]; [|exact E|].
    - destruct (Hmax' p Hp Hn) as (_ & Hstrict).
      destruct (Hmax p' Hp' Hn') as (Hle & _).
      specialize (Hstrict Hlt). subst sc sc'.
      exfalso. clear - Hstrict Hle.
      set (a := min_dist hd fp sel p) in *.
      set (b := min_dist hd fp sel p') in *.
      clearbody a b. f32_cases.
    - destruct (Hmax p' Hp' Hn') as (_ & Hstrict).
      destruct (Hmax' p Hp Hn) as (Hle & _).
      specialize (Hstrict Hlt). subst sc sc'.
      exfalso. clear - Hstrict Hle.
      set (a := min_dist hd fp sel p) in *.
      set (b := min_dist hd fp sel p') in *.
      clearbody a b. f32_cases. }
  split; [exact E|]. subst p'. congruence.
Qed.

Lemma firstn_succ_nth A (l : list A) d : forall t,
  (t < List.length l)%nat -> firstn (S t) l = firstn t l ++ [nth t l d].
Proof.
  induction l as [|x l IH]; intros [|t] Ht; simpl in *; try lia; auto.
  rewrite <- IH by lia. reflexivity.
Qed.

Lemma greedy_scores_step hd fp sel sc md t :
  greedy_inv hd fp (mkGreedy sel sc md) ->
  (1 <= t)%nat -> (S t < List.length sel)%nat ->
  f32_le (nth (S t) sc PosInf) (nth t sc PosInf).
Proof.
  intros (_ & _ & _ & _ & _ & _ & _ & Hhist) H1 H2. simpl in Hhist.
  destruct (Hhist t) as (_ & _ & Hst & Hmax); [lia|].
  destruct (Hhist (S t)) as (Hlt & Hnot & Hst' & _); [lia|].
  rewrite (firstn_succ_nth _ sel O) in Hnot, Hst' by lia.
  rewrite Hst'.
  eapply f32_le_trans; [apply min_dist_snoc_le|].
  apply Hmax; auto.
  intros Hin. apply Hnot, in_or_app; left; exact Hin.
Qed.

Lemma non_increasing_nth l :
  (forall t, (S t < List.length l)%nat ->
             f32_le (nth (S t) l PosInf) (nth t l PosInf)) ->
  non_increasing l.
Proof.
  induction l as [|a [|b l] IH]; intros H; simpl; auto.
  split.
  - apply (H O). simpl; lia.
  - apply IH. intros t Ht. apply (H (S t)). simpl in *; lia.
Qed.

(* ---------------------------------------------------------------- *)
(** *** The scores of a result *)

(** C2. Whenever [select] returns, the diversity scores after the first one
    never increase: each score is at most the score before it. *)
Theorem diversity_scores_non_increasing self fp k v rs w r self' w' :
  select self fp k v rs w = (Ok r, self', w') ->
  exists first rest,
    diversity_scores r = Some (first :: rest) /\ non_increasing rest.
Proof.
  intros Hsel.
  apply select_Ok in Hsel
    as (g & hd & self1 & w1 & first & g' & sel & sc
        & _ & _ & _ & _ & _ & Hgr & _ & _ & Hsc).
  destruct (greedy_from_heads _ _ _ _ _ _ Hgr) as (_ & rest & Hrest).
  apply greedy_from_inv in Hgr as (_ & _ & _ & md & Hinv).
  exists PosInf, rest. split; [congruence|].
  apply non_increasing_nth. intros t Ht.
  pose proof Hinv as (_ & _ & _ & Hlen & _). simpl in Hlen.
  subst sc. simpl in Hlen.
  apply (greedy_scores_step _ _ _ _ _ (S t) Hinv); lia.
Qed.

(** C7. Whenever [select] returns, the first diversity score is the
    sentinel [inf]. *)
Theorem first_score_is_sentinel self fp k v rs w r self' w' :
  select self fp k v rs w = (Ok r, self', w') ->
  exists rest, diversity_scores r = Some (PosInf :: rest).
Proof.
  intros Hsel.
  apply select_Ok in Hsel
    as (g & hd & self1 & w1 & first & g' & sel & sc
        & _ & _ & _ & _ & _ & Hgr & _ & _ & Hsc).
  destruct (greedy_from_heads _ _ _ _ _ _ Hgr) as (_ & rest & Hrest).
  exists rest. congruence.
Qed.

(* ---------------------------------------------------------------- *)
(** *** Results of [select_diverse_files] *)

Lemma candidates_set_rng self fp v w g :
  candidates self fp v (set_rng w g) = candidates self fp v w.
Proof.
  unfold candidates. rewrite compute_or_load_set_rng.
  destruct (_compute_or_load_hashes self fp v w) as [[r s] w1]. reflexivity.
Qed.

(** C6. Whenever [select_diverse_files] returns, it returns exactly
    [n_select] indices, pairwise distinct and all in [0, n) for [n] the
    number of input paths; and when all candidates are at distance 0 of one
    another, the scores are [inf, 0, 0, ...]. *)
Theorem selection_returns_k_distinct_indices fp k cd v nj rs w r w' :
  select_diverse_files fp k cd v nj rs w = (Ok r, w') ->
  List.length (indices r) = Z.to_nat k /\
  NoDup (indices r) /\
  (forall i, In i (indices r) -> (i < List.length fp)%nat) /\
  (forall hd,
     candidates_of cd nj v fp w = Ok hd ->
     (forall p q h1 h2, dict_get hd p = Some h1 -> dict_get hd q = Some h2 ->
                        tlsh_diff h1 h2 = 0) ->
     diversity_scores r = Some (PosInf :: repeat (Fin 0) (Z.to_nat k - 1))).
Proof.
  intros Hrun.
  apply select_diverse_files_Ok in Hrun
    as (Hk & g & selector & self' & Hseed & Hinit & Hsel).
  assert (Hk1 : 1 <= k) by lia.
  destruct (select_result_shape _ _ _ _ _ _ _ _ _ Hk1 Hsel)
    as (Hlen & Hnd & _ & Hfirst & Hzero).
  split; [exact Hlen|]. split; [exact Hnd|]. split.
  - intros i Hi. destruct (Forall2_In_l _ _ _ _ _ _ Hfirst Hi)
      as (p & _ & Hp & _).
    apply nth_error_Some. congruence.
  - intros hd Hcand Hz. apply (Hzero g hd); auto.
    + cbn [w_rng set_rng]. eapply seed_generators_again; eauto.
    + unfold candidates_of in Hcand. rewrite Hinit in Hcand. simpl in Hcand.
      rewrite !candidates_set_rng. exact Hcand.
Qed.


(** What the seed does determine. Two calls of [select_diverse_files] with
    the same input list, count and seed that work on the same candidates
    (same identifiers, same hashes, same order) return the same indices,
    paths and scores, or raise the same exception: whatever the state of the
    generator before each call, the cache directory, the number of workers
    and their schedule. *)
Lemma same_candidates_same_seed_same_picks
    fp k s cd1 v1 nj1 w1 cd2 v2 nj2 w2 hd :
  candidates_of cd1 nj1 v1 fp w1 = Ok hd ->
  candidates_of cd2 nj2 v2 fp w2 = Ok hd ->
  picks (fst (select_diverse_files fp k cd1 v1 nj1 (Some s) w1))
  = picks (fst (select_diverse_files fp k cd2 v2 nj2 (Some s) w2)).
Proof.
  intros H1 H2.
  destruct (Z.leb_spec k 0) as [Hk|Hk].
  { unfold select_diverse_files.
    destruct (Z.leb_spec k 0); [reflexivity | lia]. }
  destruct (Z.ltb_spec (len fp) k) as [Hn|Hn].
  { unfold select_diverse_files.
    destruct (Z.leb_spec k 0); [lia|].
    rewrite Z.gtb_ltb. destruct (Z.ltb_spec (len fp) k); [reflexivity | lia]. }
  destruct ((0 <=? s) && (s <? 2 ^ 32))%bool eqn:Es.
  - rewrite (select_diverse_files_picks fp k cd1 v1 nj1 (Some s) w1
               (random_seed s) hd), 
            (select_diverse_files_picks fp k cd2 v2 nj2 (Some s) w2
               (random_seed s) hd);
      auto; try lia; unfold seed_generators; rewrite Es; reflexivity.
  - unfold select_diverse_files.
    destruct (Z.leb_spec k 0); [lia|].
    rewrite Z.gtb_ltb. destruct (Z.ltb_spec (len fp) k); [lia|].
    unfold seed_generators. rewrite Es. reflexivity.
Qed.

(** Without cache and with one worker the candidates are a function of the
    files and the list alone, so that equal seeds give equal picks. *)
Lemma sequential_uncached_candidates v v' fp (w w' : World G) :
  w_fs w' = w_fs w ->
  exists hd,
    candidates_of None 1 v fp w = Ok hd /\
    candidates_of None 1 v' fp w' = Ok hd.
Proof.
  intros Hfs. unfold candidates_of, FileSelector_init, candidates.
  cbn [truthy bind]. unfold _compute_or_load_hashes.
  cbn [_cache_manager set_cache_manager _n_jobs].
  destruct fp as [|f0 fp]; cbn [fst]; [eauto|].
  unfold compute_hashes_parallel.
  cbn [w_fs log_event Z.eqb Pos.eqb fst]. rewrite Hfs. eauto.
Qed.

Lemma sequential_uncached_calls_agree fp k s v v' (w w' : World G) :
  w_fs w' = w_fs w ->
  picks (fst (select_diverse_files fp k None v 1 (Some s) w))
  = picks (fst (select_diverse_files fp k None v' 1 (Some s) w')).
Proof.
  intros Hfs.
  destruct (sequential_uncached_candidates v v' fp w w' Hfs) as (hd & H1 & H2).
  eapply same_candidates_same_seed_same_picks; eauto.
Qed.

Lemma compute_or_load_log self fp v w r self1 w1 :
  _compute_or_load_hashes self fp v w = (r, self1, w1) ->
  w_rng w1 = w_rng w /\
  forall c n, In (EvGreedy c n) (w_log w1) -> In (EvGreedy c n) (w_log w).
Proof.
  unfold _compute_or_load_hashes.
  set (checked := match _cache_manager self with Some cm => _ | None => _ end).
  destruct checked as [[[hd0 ftc] cm0]|e];
    [|intros H; inversion H; subst; auto].
  destruct ftc as [|f0 ftc]; [intros H; inversion H; subst; auto|].
  assert (Hlog : forall c n,
             In (EvGreedy c n)
                (w_log (log_event w (EvComputeHashes (f0 :: ftc)))) ->
             In (EvGreedy c n) (w_log w)).
  { intros c n Hin. cbn [w_log log_event] in Hin.
    apply in_app_or in Hin as [Hin | [Hin | []]]; [exact Hin | discriminate]. }
  destruct (compute_hashes_parallel _ _ _ _);
    [|intros H; inversion H; subst; auto].
  destruct cm0 as [cm|];
    [destruct (update_cache _ _ cm) as [[[]|e] cm']|];
    intros H; inversion H; subst; auto.
Qed.

(** C5. [select_diverse_files] raises [ValueError] for a count that is not
    positive or exceeds the number of paths, leaving the state as it found
    it: nothing is read, hashed or logged. When fewer candidates than
    requested have a hash it raises [InsufficientFilesError], whose message
    holds both counts, before the selection starts: the generator is not
    drawn from and no call of [_greedy_selection] is logged. *)
Theorem select_diverse_files_fails_fast fp k cd v nj rs w :
  (k <= 0 \/ len fp < k ->
   exists msg,
     select_diverse_files fp k cd v nj rs w = (Raise (ValueError msg), w)) /\
  (forall g hd,
     0 < k <= len fp ->
     seed_generators rs (w_rng w) = (Ok tt, g) ->
     candidates_of cd nj v fp w = Ok hd ->
     len (dict_keys hd) < k ->
     exists msg w',
       select_diverse_files fp k cd v nj rs w
       = (Raise (InsufficientFilesError msg), w') /\
       (exists pre mid post,
          msg = (pre ++ str_int (len (dict_keys hd)) ++ mid
                 ++ str_int k ++ post)%string) /\
       w_rng w' = g /\
       (forall c n, In (EvGreedy c n) (w_log w') ->
                    In (EvGreedy c n) (w_log w))).
Proof.
  split.
  - intros Hk. unfold select_diverse_files.
    destruct (Z.leb_spec k 0); [eauto|].
    rewrite Z.gtb_ltb. destruct (Z.ltb_spec (len fp) k); [eauto | lia].
  - intros g hd Hk Hseed Hcand Hfew.
    unfold candidates_of in Hcand.
    apply bind_Ok in Hcand as (selector & Hinit & Hcand).
    rewrite <- (candidates_set_rng _ _ _ _ g) in Hcand.
    rewrite <- (candidates_set_rng _ _ _ _ g) in Hcand.
    unfold candidates in Hcand.
    destruct (_compute_or_load_hashes selector fp v (set_rng (set_rng w g) g))
      as [[r1 self1] w1] eqn:Ecl.
    simpl in Hcand; subst r1.
    destruct (compute_or_load_log _ _ _ _ _ _ _ Ecl) as (Hrng & Hlog).
    exists (insufficient_msg (len (dict_keys hd)) k), w1.
    split; [|split; [|split]].
    + unfold select_diverse_files.
      destruct (Z.leb_spec k 0); [lia|].
      rewrite Z.gtb_ltb. destruct (Z.ltb_spec (len fp) k); [lia|].
      rewrite Hseed. cbn [w_disk set_rng]. rewrite Hinit.
      unfold select.
      cbn [w_rng set_rng]. rewrite (seed_generators_again _ _ _ _ Hseed).
      rewrite Ecl. cbn [_hash_dict set_hash_dict].
      destruct (Z.ltb_spec (len (dict_keys hd)) k); [reflexivity | lia].
    + unfold insufficient_msg.
      exists "Only ", " valid files found, but ",
        " requested. Check if files exist and are valid for TLSH hashing (>= 50 bytes).".
      reflexivity.
    + exact Hrng.
    + exact Hlog.
Qed.

(* ---------------------------------------------------------------- *)
(** *** Failures of single files *)

(** C9. For a valid number of workers, [compute_hashes_parallel] returns a
    mapping that holds exactly the identifiers of the list whose hash
    computation succeeded, each with its hash; no failure of a file reaches
    the caller. The only exception is the one of the worker pool for a
    number of workers that is not positive, whatever the files. *)
Theorem compute_hashes_parallel_absorbs_failures
    W (w : World W) fps n_jobs verbose :
  (forall msg,
     compute_hashes_parallel w fps n_jobs verbose
     <> Raise (InvalidHashError msg)) /\
  if (n_jobs =? -1) || (0 <? n_jobs) then
    exists d,
      compute_hashes_parallel w fps n_jobs verbose = Ok d /\
      forall p h, dict_get d p = Some h <->
                  In p fps /\ compute_tlsh_hash (w_fs w) p = Ok h
  else
    compute_hashes_parallel w fps n_jobs verbose
    = Raise (ValueError "max_workers must be greater than 0").
Proof.
  pose proof (compute_hashes_parallel_spec W w fps n_jobs verbose) as Hspec.
  destruct ((n_jobs =? -1) || (0 <? n_jobs))%bool.
  - destruct Hspec as (d & Hd & _ & Hget).
    split; [rewrite Hd; discriminate|].
    exists d. split; [exact Hd|].
    intros p h. rewrite Hget. unfold hash_of.
    destruct (in_dec string_dec p fps) as [Hin|Hnin];
      [destruct (compute_tlsh_hash (w_fs w) p)|];
      split; intros H; try discriminate.
    + inversion H; split; [exact Hin | reflexivity].
    + destruct H as (_ & H); inversion H; reflexivity.
    + destruct H as (_ & H); discriminate.
    + destruct H as (H & _); contradiction.
  - split; [rewrite Hspec; discriminate | exact Hspec].
Qed.

(* ---------------------------------------------------------------- *)
(** *** The cache *)

Lemma is_cache_valid_eq self fs p :
  _is_cache_valid self fs p
  = match dict_get (_cache self) p, fs p with
    | Some _, Denied msg => Raise (OSError msg)
    | _, _ => Ok (entry_valid self fs p)
    end.
Proof.
  unfold _is_cache_valid, entry_valid, dict_mem, dict_getitem,
    _get_file_metadata.
  destruct (dict_get (_cache self) p) as [e|]; cbn [negb]; [|reflexivity].
  destruct (fs p) as [|msg|st]; reflexivity.
Qed.

Lemma get_eq self fs p :
  fst (get self fs p)
  = match dict_get (_cache self) p, fs p with
    | Some _, Denied msg => Raise (OSError msg)
    | _, _ => Ok (if entry_valid self fs p
                  then option_map e_hash (dict_get (_cache self) p)
                  else None)
    end.
Proof.
  unfold get. cbn [fst]. rewrite is_cache_valid_eq.
  unfold entry_valid, dict_getitem.
  destruct (dict_get (_cache self) p) as [e|]; [|reflexivity].
  destruct (fs p) as [|msg|st]; cbn [bind]; try reflexivity.
  destruct ((f_mtime st =? e_mtime e) && (f_size st =? e_size e));
    reflexivity.
Qed.

Lemma set_eq self fs p h :
  set self fs p h
  = match fs p with
    | Present st =>
        (Ok tt,
         mkCacheManager (cache_dir self) (format self)
           (dict_set (_cache self) p (mkEntry h (f_mtime st) (f_size st)))
           true)
    | Absent => (Ok tt, self)
    | Denied msg => (Raise (OSError msg), self)
    end.
Proof.
  unfold set, _get_file_metadata. destruct (fs p); reflexivity.
Qed.

Lemma get_after_set self fs fs' id f st :
  fs id = Present st ->
  fst (get (snd (set self fs id f)) fs' id)
  = match fs' id with
    | Present st' =>
        Ok (if (f_mtime st' =? f_mtime st) && (f_size st' =? f_size st)
            then Some f else None)
    | Absent => Ok None
    | Denied msg => Raise (OSError msg)
    end.
Proof.
  intros Hst. rewrite get_eq, set_eq, Hst. unfold entry_valid.
  cbn [snd _cache]. rewrite dict_get_set_eq. cbn [e_mtime e_size].
  destruct (fs' id) as [|msg|st']; try reflexivity.
Qed.

(** C8. After [set(id, f)] on an existing resource, [get(id)] returns [f]
    as long as the resource has the modification time and the size it had;
    it returns [None] once either differs; and it returns [None] when
    [os.stat] finds nothing at the path ([FileNotFoundError]). It does not
    return when [os.stat] fails in another way, as it does for a resource
    that is gone because a directory above it is: that error leaves [get]. *)
Theorem cache_round_trip self fs fs' id f :
  (forall st st',
     fs id = Present st -> fs' id = Present st' ->
     f_mtime st' = f_mtime st -> f_size st' = f_size st ->
     fst (get (snd (set self fs id f)) fs' id) = Ok (Some f)) /\
  (forall st st',
     fs id = Present st -> fs' id = Present st' ->
     f_mtime st' <> f_mtime st \/ f_size st' <> f_size st ->
     fst (get (snd (set self fs id f)) fs' id) = Ok None) /\
  (fs' id = Absent ->
   fst (get (snd (set self fs id f)) fs' id) = Ok None) /\
  (forall st msg,
     fs id = Present st -> fs' id = Denied msg ->
     fst (get (snd (set self fs id f)) fs' id) = Raise (OSError msg)).
Proof.
  split; [|split; [|split]].
  - intros st st' Hst Hst' Hm Hs.
    rewrite (get_after_set _ _ _ _ _ _ Hst), Hst', Hm, Hs, !Z.eqb_refl.
    reflexivity.
  - intros st st' Hst Hst' Hdiff.
    rewrite (get_after_set _ _ _ _ _ _ Hst), Hst'.
    destruct (Z.eqb_spec (f_mtime st') (f_mtime st));
      destruct (Z.eqb_spec (f_size st') (f_size st));
      try reflexivity.
    destruct Hdiff; contradiction.
  - intros Hnone. rewrite get_eq, Hnone. unfold entry_valid. rewrite Hnone.
    destruct (dict_get _ id); reflexivity.
  - intros st msg Hst Hden.
    rewrite (get_after_set _ _ _ _ _ _ Hst), Hden. reflexivity.
Qed.

Lemma save_cache_entry self dk :
  _cache (fst (_save_cache self dk)) = _cache self /\
  cache_file (fst (_save_cache self dk)) = cache_file self /\
  forall id e,
    dict_get (_cache self) id = Some e ->
    persisted self dk id = Some e ->
    persisted self (snd (_save_cache self dk)) id = Some e.
Proof.
  unfold _save_cache, persisted.
  destruct (_dirty self); cbn [negb fst snd _cache]; auto.
  repeat split; auto. intros id e He _. unfold disk_write.
  rewrite String.eqb_refl. exact He.
Qed.

Lemma run_op_keeps_entry fs op self dk id e :
  rewrites id op = false ->
  dict_get (_cache self) id = Some e ->
  dict_get (_cache (fst (run_op fs op (self, dk)))) id = Some e /\
  cache_file (fst (run_op fs op (self, dk))) = cache_file self /\
  (persisted self dk id = Some e ->
   persisted self (snd (run_op fs op (self, dk))) id = Some e).
Proof.
  intros Hop He.
  destruct op as [p| |p h| |]; cbn [run_op rewrites fst snd] in *.
  - rewrite get_self. auto.
  - auto.
  - rewrite set_eq. destruct (fs p) as [|msg|st]; cbn [snd]; auto.
    cbn [_cache]. rewrite dict_get_set_neq; auto.
    intros ->. rewrite String.eqb_refl in Hop. discriminate.
  - unfold save. destruct (save_cache_entry self dk) as (E1 & E2 & E3).
    rewrite E1. auto.
  - discriminate.
Qed.

(** C10. [get] and [get_all_hashes] leave the manager (its store and its
    dirty flag) as it was. An entry of the store, stale or not, stays there
    through every history of calls that holds neither a [set] for its
    identifier nor a [clear], however the files change meanwhile; and when
    it is in the snapshot on disk it stays there too. *)
Theorem cache_lookups_are_pure_reads self dk fs id :
  snd (get self fs id) = self /\
  snd (get_all_hashes self fs) = self /\
  forall ops e,
    forallb (fun o => negb (rewrites id (snd o))) ops = true ->
    dict_get (_cache self) id = Some e ->
    dict_get (_cache (fst (run_ops ops (self, dk)))) id = Some e /\
    (persisted self dk id = Some e ->
     persisted self (snd (run_ops ops (self, dk))) id = Some e).
Proof.
  split; [apply get_self|]. split; [reflexivity|].
  intros ops. revert self dk.
  induction ops as [|[fs0 op] ops IH]; intros self dk e Hops He;
    [cbn [run_ops fold_left]; auto|].
  change (run_ops ((fs0, op) :: ops) (self, dk))
    with (run_ops ops (run_op fs0 op (self, dk))).
  cbn [forallb fst snd] in Hops. apply andb_true_iff in Hops as (Hop & Hops).
  apply negb_true_iff in Hop.
  destruct (run_op_keeps_entry fs0 op self dk id e Hop He) as (He1 & Hf & Hp).
  destruct (run_op fs0 op (self, dk)) as [self1 dk1] eqn:E1.
  cbn [fst snd] in *.
  destruct (IH self1 dk1 e Hops He1) as (He2 & Hp2).
  split; [exact He2|].
  intros Hper. unfold persisted in *. rewrite <- Hf.
  apply Hp2. rewrite Hf. apply Hp. exact Hper.
Qed.

(* ================================================================ *)
(** ** Further properties of the code *)
(* ================================================================ *)

(* ---------------------------------------------------------------- *)
(** *** hash_utils.py: compute_tlsh_hash *)

(** X1. [compute_tlsh_hash] returns a hash exactly when the file can be
    opened and read and [tlsh.hash] of its content is not empty; the hash it
    returns is that one, hence never empty. Every failure reaches the
    caller as [InvalidHashError]. The message is "File not found: ..."
    exactly when [open] raises [FileNotFoundError]; a path that cannot be
    opened for another reason, existing or not, is reported as "Error
    computing TLSH hash for ...: " followed by that error. *)
Theorem compute_tlsh_hash_outcomes fs file_path :
  (forall h,
     compute_tlsh_hash fs file_path = Ok h <->
     exists f data,
       fs file_path = Present f /\ f_content f = Readable data /\
       tlsh_hash data = h /\ h <> "") /\
  (forall e,
     compute_tlsh_hash fs file_path = Raise e ->
     exists msg,
       e = InvalidHashError msg /\
       (msg = ("File not found: " ++ file_path)%string <->
        fs file_path = Absent)) /\
  (forall msg,
     fs file_path = Denied msg ->
     compute_tlsh_hash fs file_path
     = Raise (InvalidHashError
                ("Error computing TLSH hash for " ++ file_path ++ ": "
                 ++ msg)%string)).
Proof.
  unfold compute_tlsh_hash, open_read.
  destruct (fs file_path) as [|m|f] eqn:Ef.
  - cbn [bind]. split; [|split].
    + intros h; split; [discriminate|].
      intros (f' & data' & Hf & _). discriminate.
    + intros e He. inversion He; subst e. eexists; split; [reflexivity|].
      split; reflexivity.
    + discriminate.
  - cbn [bind exn_str]. split; [|split].
    + intros h; split; [discriminate|].
      intros (f' & data' & Hf & _). discriminate.
    + intros e He. inversion He; subst e. eexists; split; [reflexivity|].
      split; [discriminate | discriminate].
    + intros msg Hm. inversion Hm; subst. reflexivity.
  - destruct (f_content f) as [data|m] eqn:Ec; cbn [bind].
    + destruct (String.eqb_spec (tlsh_hash data) "") as [E|E].
      * split; [|split].
        -- intros h; split; [discriminate|].
           intros (f' & data' & Hf & Hc & Hh & Hne).
           inversion Hf; subst f'. rewrite Ec in Hc.
           inversion Hc; subst data'. congruence.
        -- intros e He. inversion He; subst e. eexists; split; [reflexivity|].
           split; [discriminate | discriminate].
        -- discriminate.
      * split; [|split].
        -- intros h; split.
           ++ intros Hh; inversion Hh; subst h. exists f, data. auto.
           ++ intros (f' & data' & Hf & Hc & Hh & Hne).
              inversion Hf; subst f'. rewrite Ec in Hc.
              inversion Hc; subst data'. congruence.
        -- intros e He; discriminate.
        -- discriminate.
    + split; [|split].
      * intros h; split; [discriminate|].
        intros (f' & data' & Hf & Hc & _).
        inversion Hf; subst f'. congruence.
      * intros e He. inversion He; subst e. eexists; split; [reflexivity|].
        split; [discriminate | discriminate].
      * discriminate.
Qed.

(* ---------------------------------------------------------------- *)
(** *** hash_utils.py: the dirty flag and the cache file *)

Lemma init_in_sync dir fmt dk cm :
  CacheManager_init dir fmt dk = Ok cm ->
  in_sync (cm, dk) /\ cache_dir cm = dir /\ format cm = fmt /\
  _dirty cm = false.
Proof.
  unfold CacheManager_init, _load_cache, in_sync, cache_file.
  cbn [cache_dir format _dirty].
  destruct (dk (dir ++ "/tlsh_cache." ++ format_name fmt)%string) eqn:E;
    intros H; inversion H; subst; cbn [cache_dir format _dirty _cache];
    rewrite E; auto.
Qed.

Lemma run_op_in_sync fs op st :
  in_sync st ->
  in_sync (run_op fs op st) /\
  cache_dir (fst (run_op fs op st)) = cache_dir (fst st) /\
  format (fst (run_op fs op st)) = format (fst st).
Proof.
  destruct st as [self dk]. unfold in_sync.
  destruct op as [p| |p h| |]; cbn [run_op fst snd]; intros Hs.
  - rewrite get_self. auto.
  - auto.
  - rewrite set_eq. destruct (fs p) as [|msg|f]; cbn [snd]; [auto | auto|].
    cbn [_dirty cache_dir format]. split; [discriminate | auto].
  - unfold save, _save_cache.
    destruct (_dirty self) eqn:Ed; cbn [negb].
    + unfold cache_file, disk_write. cbn [cache_dir format _cache _dirty].
      rewrite String.eqb_refl. auto.
    + rewrite Ed. auto.
  - unfold clear, _save_cache. cbn [_dirty negb].
    unfold cache_file, disk_write. cbn [cache_dir format _cache _dirty].
    rewrite String.eqb_refl. auto.
Qed.

Lemma run_ops_in_sync ops : forall st,
  in_sync st ->
  in_sync (run_ops ops st) /\
  cache_dir (fst (run_ops ops st)) = cache_dir (fst st) /\
  format (fst (run_ops ops st)) = format (fst st).
Proof.
  induction ops as [|[fs op] ops IH]; intros st Hs; [auto|].
  change (run_ops ((fs, op) :: ops) st) with (run_ops ops (run_op fs op st)).
  destruct (run_op_in_sync fs op st Hs) as (Hs1 & Hd1 & Hf1).
  destruct (IH _ Hs1) as (Hs2 & Hd2 & Hf2).
  split; [exact Hs2|]. split; congruence.
Qed.

Lemma reopen_in_sync self dk :
  in_sync (self, dk) -> _dirty self = false ->
  CacheManager_init (cache_dir self) (format self) dk = Ok self.
Proof.
  unfold in_sync, CacheManager_init, _load_cache, cache_file.
  cbn [cache_dir format _dirty]. intros Hs Hd. specialize (Hs Hd).
  destruct self as [dir fmt c d]; cbn [cache_dir format _dirty _cache] in *.
  subst d.
  destruct (dk (dir ++ "/tlsh_cache." ++ format_name fmt)%string);
    [subst; reflexivity | contradiction | subst; reflexivity].
Qed.

(** X2. The dirty flag is sound, and saving loses nothing. For a manager
    opened on a directory and then used through [get], [get_all_hashes],
    [set], [save] and [clear] in any order, while the files change in any
    way: whenever it is clean, the cache file holds exactly its store (no
    file standing for the empty store); and after a [save], or on leaving a
    [with] block, opening the same directory again gives a manager equal to
    it. *)
Theorem saved_cache_reopens_equal dir fmt dk cm ops :
  CacheManager_init dir fmt dk = Ok cm ->
  in_sync (run_ops ops (cm, dk)) /\
  (let '(cm1, dk1) := run_ops ops (cm, dk) in
   CacheManager_init dir fmt (snd (save cm1 dk1)) = Ok (fst (save cm1 dk1)) /\
   _cache (fst (save cm1 dk1)) = _cache cm1 /\
   CacheManager_init dir fmt (snd (__exit__ (__enter__ cm1) dk1))
   = Ok (fst (__exit__ (__enter__ cm1) dk1)) /\
   _cache (fst (__exit__ (__enter__ cm1) dk1)) = _cache cm1).
Proof.
  intros Hinit.
  destruct (init_in_sync _ _ _ _ Hinit) as (Hs & Hd & Hf & _).
  destruct (run_ops_in_sync ops (cm, dk) Hs) as (Hs1 & Hd1 & Hf1).
  split; [exact Hs1|].
  destruct (run_ops ops (cm, dk)) as [cm1 dk1]. cbn [fst] in Hd1, Hf1.
  destruct (run_op_in_sync (fun _ => Absent) OpSave (cm1, dk1) Hs1)
    as (Hs2 & Hd2 & Hf2).
  cbn [run_op fst] in Hs2, Hd2, Hf2.
  assert (Hre : CacheManager_init dir fmt (snd (save cm1 dk1))
                = Ok (fst (save cm1 dk1))).
  { rewrite <- Hd, <- Hd1, <- Hd2, <- Hf, <- Hf1, <- Hf2.
    apply reopen_in_sync.
    - destruct (save cm1 dk1); exact Hs2.
    - unfold save, _save_cache. destruct (_dirty cm1) eqn:E; cbn [negb fst];
        [reflexivity | exact E]. }
  assert (Hc : _cache (fst (save cm1 dk1)) = _cache cm1).
  { unfold save, _save_cache. destruct (_dirty cm1); reflexivity. }
  exact (conj Hre (conj Hc (conj Hre Hc))).
Qed.

(** X3. A hash cached in one session is served in the next: after
    [set(id, f)] on an existing resource and [save], a manager opened on the
    same directory returns [f] for [id] as long as the resource has the
    modification time and size it had. *)
Theorem cached_hash_survives_reopening dir fmt dk cm fs fs' id f st st' :
  CacheManager_init dir fmt dk = Ok cm ->
  fs id = Present st -> fs' id = Present st' ->
  f_mtime st' = f_mtime st -> f_size st' = f_size st ->
  exists cm2,
    CacheManager_init dir fmt (snd (save (snd (set cm fs id f)) dk)) = Ok cm2 /\
    fst (get cm2 fs' id) = Ok (Some f).
Proof.
  intros Hinit Hst Hst' Hm Hs.
  destruct (init_in_sync _ _ _ _ Hinit) as (_ & Hd & Hf & _).
  pose proof (get_after_set cm fs fs' id f st Hst) as Hget.
  rewrite Hst', Hm, Hs, !Z.eqb_refl in Hget. cbn [andb] in Hget.
  revert Hget. rewrite set_eq, Hst. cbn [snd]. intros Hget.
  unfold save, _save_cache. cbn [_dirty negb snd cache_dir format _cache].
  rewrite Hd, Hf.
  eexists. split.
  - unfold CacheManager_init, _load_cache, cache_file, disk_write.
    cbn [cache_dir format _dirty]. rewrite String.eqb_refl. reflexivity.
  - rewrite get_eq. rewrite get_eq in Hget.
    unfold entry_valid in *. cbn [_cache] in *. exact Hget.
Qed.

(* ---------------------------------------------------------------- *)
(** *** hash_utils.py: clear, get_all_hashes, set *)

(** X4. [clear] empties the store and the cache file at once, whether or
    not the manager was dirty: afterwards every lookup is absent, and
    opening the directory again gives the emptied manager. *)
Theorem clear_empties_store_and_file self dk fs :
  let '(self', dk') := clear self dk in
  _cache self' = [] /\ _dirty self' = false /\
  dk' (cache_file self) = Snapshot [] /\
  (forall id, fst (get self' fs id) = Ok None) /\
  fst (get_all_hashes self' fs) = Ok [] /\
  CacheManager_init (cache_dir self) (format self) dk' = Ok self'.
Proof.
  unfold clear, _save_cache. cbn [_dirty negb cache_dir format _cache].
  unfold cache_file at 1. cbn [cache_dir format].
  fold (cache_file self).
  split; [reflexivity|]. split; [reflexivity|].
  split; [unfold disk_write; rewrite String.eqb_refl; reflexivity|].
  split; [intros id; reflexivity|]. split; [reflexivity|].
  unfold CacheManager_init, _load_cache, cache_file, disk_write.
  cbn [cache_dir format _dirty]. rewrite String.eqb_refl. reflexivity.
Qed.

Lemma dict_get_In V (d : dict V) k v :
  NoDup (dict_keys d) -> In (k, v) d -> dict_get d k = Some v.
Proof.
  induction d as [|[k' v'] d IH]; intros Hnd Hin; [destruct Hin|].
  simpl in Hnd. inversion Hnd as [|? ? Hnot Hnd']; subst. simpl.
  destruct Hin as [E | Hin].
  - inversion E; subst. rewrite String.eqb_refl. reflexivity.
  - destruct (String.eqb_spec k' k) as [->|Hne]; [|apply IH; auto].
    exfalso. apply Hnot. unfold dict_keys.
    change k with (fst (k, v)). apply in_map. exact Hin.
Qed.

Lemma get_value self fs id :
  reachable fs id ->
  fst (get self fs id)
  = Ok (if entry_valid self fs id
        then option_map e_hash (dict_get (_cache self) id)
        else None).
Proof.
  intros Hr. rewrite get_eq.
  destruct (dict_get (_cache self) id); [|reflexivity].
  destruct (fs id) as [|msg|f] eqn:E; try reflexivity.
  exfalso. exact (Hr msg E).
Qed.

Lemma is_cache_valid_reachable self fs id :
  reachable fs id -> _is_cache_valid self fs id = Ok (entry_valid self fs id).
Proof.
  intros Hr. rewrite is_cache_valid_eq.
  destruct (dict_get (_cache self) id); [|reflexivity].
  destruct (fs id) as [|msg|f] eqn:E; try reflexivity.
  exfalso. exact (Hr msg E).
Qed.

(** A loop whose steps all return is a fold. *)
Lemma foldM_fold A S (body : S -> A -> res S) (step : S -> A -> S) l :
  (forall x, In x l -> forall s, body s x = Ok (step s x)) ->
  forall s, foldM body l s = Ok (fold_left step l s).
Proof.
  induction l as [|x l IH]; intros Hb s; [reflexivity|].
  cbn [foldM fold_left]. rewrite (Hb x (or_introl eq_refl)). cbn [bind].
  apply IH. intros y Hy. apply Hb. right; exact Hy.
Qed.

(** What [get_all_hashes] returns when [os.stat] fails for no stored
    identifier otherwise than by [FileNotFoundError]. *)
Lemma get_all_hashes_get self fs :
  store_wf self ->
  (forall id, In id (dict_keys (_cache self)) -> reachable fs id) ->
  exists d,
    fst (get_all_hashes self fs) = Ok d /\
    NoDup (dict_keys d) /\
    forall id,
      dict_get d id
      = if entry_valid self fs id
        then option_map e_hash (dict_get (_cache self) id)
        else None.
Proof.
  intros Hwf Hreach. unfold get_all_hashes. cbn [fst].
  set (val := fun item : string * CacheEntry =>
                if entry_valid self fs (fst item)
                then Some (e_hash (snd item)) else None).
  set (step := fun (result : dict string) (item : string * CacheEntry) =>
                 match val item with
                 | Some v => dict_set result (fst item) v
                 | None => result
                 end).
  set (f := fun id => if entry_valid self fs id
                      then option_map e_hash (dict_get (_cache self) id)
                      else None).
  rewrite (foldM_fold _ _ _ step).
  - eexists. split; [reflexivity|]. split.
    + apply (fold_set_keys _ _ fst val step (fun _ _ => eq_refl)
               (_cache self) []). constructor.
    + intros id.
      rewrite (fold_set_get _ _ fst val step f (fun _ _ => eq_refl)).
      * fold (f id). cbn [dict_get].
        destruct (in_dec string_dec id (map fst (_cache self))) as [Hin|Hnin].
        -- destruct (f id); reflexivity.
        -- unfold f, entry_valid.
           destruct (dict_get (_cache self) id) eqn:E; [|reflexivity].
           exfalso. apply Hnin. apply dict_get_keys. congruence.
      * intros [p e] Hx. unfold val, f. cbn [fst snd].
        rewrite (dict_get_In _ _ _ _ Hwf Hx). reflexivity.
  - intros [p e] Hx s.
    rewrite is_cache_valid_reachable.
    + unfold step, val. cbn [bind fst snd].
      destruct (entry_valid self fs p); reflexivity.
    + apply Hreach. unfold dict_keys. change p with (fst (p, e)).
      apply in_map. exact Hx.
Qed.

(** [get_all_hashes] raises as soon as [os.stat] fails for a stored
    identifier otherwise than by [FileNotFoundError]. *)
Lemma get_all_hashes_Denied self fs id msg :
  In id (dict_keys (_cache self)) -> fs id = Denied msg ->
  exists msg', fst (get_all_hashes self fs) = Raise (OSError msg').
Proof.
  revert id msg.
  unfold get_all_hashes. cbn [fst]. generalize (@nil (string * string)).
  unfold dict_keys.
  assert (Hgen : forall (l : dict CacheEntry) id msg,
             In id (map fst l) -> fs id = Denied msg ->
             (forall p, In p (map fst l) ->
                        dict_get (_cache self) p <> None) ->
             forall acc, exists msg',
               foldM
                 (fun result item =>
                    let '(file_path, data) := item in
                    valid <- _is_cache_valid self fs file_path ;;
                    if valid : bool
                    then Ok (dict_set result file_path (e_hash data))
                    else Ok result) l acc
               = Raise (OSError msg')).
  { induction l as [|[p e] l IH]; intros id msg Hin Hden Hmem acc;
      [destruct Hin|].
    cbn [foldM]. rewrite is_cache_valid_eq.
    destruct (dict_get (_cache self) p) as [e'|] eqn:Ep;
      [|exfalso; apply (Hmem p); [left; reflexivity | exact Ep]].
    assert (Hrest : forall acc', In id (map fst l) -> exists msg',
               foldM
                 (fun result item =>
                    let '(file_path, data) := item in
                    valid <- _is_cache_valid self fs file_path ;;
                    if valid : bool
                    then Ok (dict_set result file_path (e_hash data))
                    else Ok result) l acc'
               = Raise (OSError msg')).
    { intros acc' Hin'. apply (IH id msg Hin' Hden).
      intros q Hq. apply Hmem. right; exact Hq. }
    destruct (fs p) as [|m|f] eqn:Ef; cbn [bind].
    - destruct Hin as [<-|Hin]; [cbn [fst] in Hden; congruence|].
      destruct (entry_valid self fs p); apply Hrest; exact Hin.
    - eauto.
    - destruct Hin as [<-|Hin]; [cbn [fst] in Hden; congruence|].
      destruct (entry_valid self fs p); apply Hrest; exact Hin. }
  intros acc id msg Hin Hden.
  apply (Hgen (_cache self) id msg Hin Hden).
  intros p Hp. apply dict_get_keys in Hp. exact Hp.
Qed.

(** X5. [get] returns unless the identifier has an entry and [os.stat]
    fails for it otherwise than by [FileNotFoundError]; that error then
    leaves [get]. When [os.stat] fails so for no stored identifier,
    [get_all_hashes] returns, and lists exactly the identifiers for which
    [get] returns a hash, each with that hash: stale entries and entries of
    missing files are left out. When it fails so for a stored identifier,
    [get_all_hashes] raises too. *)
Theorem get_all_hashes_agrees_with_get self fs :
  (forall id,
     (exists o, fst (get self fs id) = Ok o) \/
     (exists msg,
        fs id = Denied msg /\ dict_get (_cache self) id <> None /\
        fst (get self fs id) = Raise (OSError msg))) /\
  (store_wf self ->
   (forall id, In id (dict_keys (_cache self)) -> reachable fs id) ->
   exists d,
     fst (get_all_hashes self fs) = Ok d /\
     NoDup (dict_keys d) /\
     forall id h,
       dict_get d id = Some h <-> fst (get self fs id) = Ok (Some h)) /\
  (forall id msg,
     In id (dict_keys (_cache self)) -> fs id = Denied msg ->
     exists msg', fst (get_all_hashes self fs) = Raise (OSError msg')).
Proof.
  split; [|split].
  - intros id. rewrite get_eq.
    destruct (dict_get (_cache self) id) as [e|] eqn:Ee; [|left; eauto].
    destruct (fs id) as [|msg|f] eqn:Ef; [left; eauto | | left; eauto].
    right. exists msg. split; [reflexivity|]. split; [discriminate|reflexivity].
  - intros Hwf Hreach.
    destruct (get_all_hashes_get self fs Hwf Hreach) as (d & Hd & Hnd & Hget).
    exists d. split; [exact Hd|]. split; [exact Hnd|].
    intros id h. rewrite Hget.
    destruct (dict_get (_cache self) id) as [e|] eqn:Ee.
    + rewrite get_value, Ee.
      * destruct (entry_valid self fs id); cbn [option_map];
          split; intros H; inversion H; reflexivity.
      * apply Hreach. apply dict_get_keys. congruence.
    + rewrite get_eq, Ee. unfold entry_valid. rewrite Ee.
      split; discriminate.
  - apply get_all_hashes_Denied.
Qed.

(** X6. [set] touches the entry of its identifier only: every other entry,
    and every lookup of another identifier, is as before; the store stays a
    dictionary, gaining at most that identifier; for a resource that
    [os.stat] does not find, [set] returns and changes nothing, the dirty
    flag included; and when [os.stat] fails in another way, that error
    leaves [set], which has changed nothing either. *)
Theorem set_touches_one_entry self fs id f :
  (forall id', id' <> id ->
     dict_get (_cache (snd (set self fs id f))) id'
     = dict_get (_cache self) id' /\
     forall fs', fst (get (snd (set self fs id f)) fs' id')
                 = fst (get self fs' id')) /\
  (store_wf self -> store_wf (snd (set self fs id f))) /\
  (forall id', In id' (dict_keys (_cache (snd (set self fs id f)))) ->
               In id' (dict_keys (_cache self)) \/ id' = id) /\
  (fs id = Absent -> set self fs id f = (Ok tt, self)) /\
  (forall msg, fs id = Denied msg ->
               set self fs id f = (Raise (OSError msg), self)).
Proof.
  rewrite set_eq. unfold store_wf.
  destruct (fs id) as [|msg|st]; cbn [snd _cache].
  - split; [|split; [|split; [|split]]]; auto. discriminate.
  - split; [|split; [|split; [|split]]]; auto; [discriminate|].
    intros msg' H; inversion H; reflexivity.
  - split; [|split; [|split; [|split]]].
    + intros id' Hne.
      assert (E : dict_get (dict_set (_cache self) id
                              (mkEntry f (f_mtime st) (f_size st))) id'
                  = dict_get (_cache self) id')
        by (apply dict_get_set_neq; congruence).
      split; [exact E|].
      intros fs'. rewrite !get_eq. unfold entry_valid.
      cbn [_cache]. rewrite E. reflexivity.
    + apply dict_keys_set_NoDup.
    + intros id' Hin. apply dict_keys_set_In in Hin. exact Hin.
    + discriminate.
    + discriminate.
Qed.

(* ---------------------------------------------------------------- *)
(** *** selector.py: _compute_or_load_hashes, compute_hashes *)

Lemma hash_of_Some fs p h :
  hash_of fs p = Some h -> (exists f, fs p = Present f) /\ h <> "".
Proof.
  unfold hash_of, compute_tlsh_hash, open_read.
  destruct (fs p) as [|msg|f]; [discriminate | discriminate|].
  destruct (f_content f) as [data|m]; cbn [bind]; [|discriminate].
  destruct (String.eqb_spec (tlsh_hash data) "") as [E|E]; [discriminate|].
  intros H; inversion H; subst h. split; [eauto | exact E].
Qed.

Lemma check_cache_step_eq fs hd ftc cm p :
  check_cache_step fs (hd, ftc, cm) p
  = match dict_get (_cache cm) p, fs p with
    | Some _, Denied msg => Raise (OSError msg)
    | _, _ =>
        Ok match cached_hash (Some cm) fs p with
           | Some h => (dict_set hd p h, ftc, cm)
           | None => (hd, ftc ++ [p], cm)
           end
    end.
Proof.
  unfold check_cache_step.
  pose proof (get_eq cm fs p) as Hget.
  destruct (get cm fs p) as [r cm'] eqn:Eg.
  assert (Hcm : cm' = cm) by (pose proof (get_self cm fs p) as H;
                              rewrite Eg in H; exact H).
  subst cm'. cbn [fst] in Hget. subst r.
  unfold cached_hash, entry_valid.
  destruct (dict_get (_cache cm) p) as [e|]; [|reflexivity].
  destruct (fs p) as [|msg|f]; try reflexivity.
  destruct ((f_mtime f =? e_mtime e) && (f_size f =? e_size e));
    [|reflexivity].
  cbn [bind truthy option_map]. destruct (String.eqb (e_hash e) "");
    reflexivity.
Qed.

(** The cache pass either meets an [os.stat] that fails, for a listed
    identifier with an entry, and raises its error; or returns, with the
    valid non-empty cached hashes and the other identifiers to compute. *)
Lemma check_cache_pass fs cm l : forall hd ftc,
  (exists hd' ftc',
     foldM (check_cache_step fs) l (hd, ftc, cm) = Ok (hd', ftc', cm) /\
     lookups_return (Some cm) fs l /\
     (forall p, dict_get hd' p
                = if in_dec string_dec p l
                  then match cached_hash (Some cm) fs p with
                       | Some h => Some h
                       | None => dict_get hd p
                       end
                  else dict_get hd p) /\
     (forall p, In p ftc' <->
                In p ftc \/ (In p l /\ cached_hash (Some cm) fs p = None))) \/
  (exists p msg,
     In p l /\ dict_get (_cache cm) p <> None /\ fs p = Denied msg /\
     exists msg',
       foldM (check_cache_step fs) l (hd, ftc, cm) = Raise (OSError msg')).
Proof.
  induction l as [|x l IH]; intros hd ftc.
  - left. exists hd, ftc. split; [reflexivity|].
    split; [intros p []|]. split; [reflexivity|].
    intros p; split; [auto | intros [H | [[] _]]; exact H].
  - cbn [foldM]. rewrite check_cache_step_eq.
    assert (Hbad : forall e msg,
               dict_get (_cache cm) x = Some e -> fs x = Denied msg ->
               exists p m,
                 In p (x :: l) /\ dict_get (_cache cm) p <> None /\
                 fs p = Denied m /\
                 exists msg', @Raise (dict string * list string * CacheManager)
                                     (OSError msg)
                              = Raise (OSError msg')).
    { intros e msg He Hx. exists x, msg.
      split; [left; reflexivity|]. split; [congruence|].
      split; [exact Hx | eauto]. }
    assert (Hgood :
              (forall m, dict_get (_cache cm) x <> None -> fs x <> Denied m) ->
              forall st',
              st' = match cached_hash (Some cm) fs x with
                    | Some h => (dict_set hd x h, ftc, cm)
                    | None => (hd, ftc ++ [x], cm)
                    end ->
              (exists hd' ftc',
                 foldM (check_cache_step fs) l st' = Ok (hd', ftc', cm) /\
                 lookups_return (Some cm) fs (x :: l) /\
                 (forall p, dict_get hd' p
                            = if in_dec string_dec p (x :: l)
                              then match cached_hash (Some cm) fs p with
                                   | Some h => Some h
                                   | None => dict_get hd p
                                   end
                              else dict_get hd p) /\
                 (forall p, In p ftc' <->
                            In p ftc \/
                            (In p (x :: l) /\
                             cached_hash (Some cm) fs p = None))) \/
              (exists p msg,
                 In p (x :: l) /\ dict_get (_cache cm) p <> None /\
                 fs p = Denied msg /\
                 exists msg', foldM (check_cache_step fs) l st'
                              = Raise (OSError msg'))).
    { intros Hx st' ->.
      destruct (cached_hash (Some cm) fs x) as [h|] eqn:Ex.
      - destruct (IH (dict_set hd x h) ftc)
          as [(hd' & ftc' & Hrun & Hret & Hget & Hftc)
             | (p & msg & Hin & He & Hd & Hr)].
        + left. exists hd', ftc'. split; [exact Hrun|]. split; [|split].
          * intros p [<-|Hp] He m Hm; [exact (Hx m He Hm)|].
            exact (Hret p Hp He m Hm).
          * intros p. rewrite Hget.
            destruct (string_dec x p) as [->|Hne].
            -- rewrite Ex, dict_get_set_eq.
               destruct (in_dec string_dec p l) as [Hi|Hi],
                        (in_dec string_dec p (p :: l)) as [Hj|Hj];
                 try reflexivity; exfalso; apply Hj; left; reflexivity.
            -- rewrite (dict_get_set_neq _ hd x p h Hne).
               destruct (in_dec string_dec p l) as [Hi|Hi],
                        (in_dec string_dec p (x :: l)) as [Hj|Hj];
                 try reflexivity.
               ++ exfalso; apply Hj; right; exact Hi.
               ++ destruct Hj as [Hj|Hj]; [congruence | contradiction].
          * intros p. rewrite Hftc. split.
            -- intros [H | [H1 H2]]; [left; exact H|].
               right; split; [right; exact H1 | exact H2].
            -- intros [H | [[H1|H1] H2]]; [left; exact H | | right; auto].
               subst p. congruence.
        + right. exists p, msg. split; [right; exact Hin|]. auto.
      - destruct (IH hd (ftc ++ [x]))
          as [(hd' & ftc' & Hrun & Hret & Hget & Hftc)
             | (p & msg & Hin & He & Hd & Hr)].
        + left. exists hd', ftc'. split; [exact Hrun|]. split; [|split].
          * intros p [<-|Hp] He m Hm; [exact (Hx m He Hm)|].
            exact (Hret p Hp He m Hm).
          * intros p. rewrite Hget.
            destruct (in_dec string_dec p l) as [Hi|Hi],
                     (in_dec string_dec p (x :: l)) as [Hj|Hj];
              try reflexivity.
            -- exfalso; apply Hj; right; exact Hi.
            -- destruct Hj as [Hj|Hj]; [|contradiction].
               subst p. rewrite Ex. reflexivity.
          * intros p. rewrite Hftc, in_app_iff. split.
            -- intros [[H | [H | []]] | [H1 H2]].
               ++ left; exact H.
               ++ subst p. right; split; [left; reflexivity | exact Ex].
               ++ right; split; [right; exact H1 | exact H2].
            -- intros [H | [[H1|H1] H2]].
               ++ left; left; exact H.
               ++ subst p. left; right; left; reflexivity.
               ++ right; auto.
        + right. exists p, msg. split; [right; exact Hin|]. auto. }
    destruct (dict_get (_cache cm) x) as [e|] eqn:Ee.
    + destruct (fs x) as [|msg|f] eqn:Ef; cbn [bind].
      * apply Hgood; [intros m _; discriminate | reflexivity].
      * right. apply (Hbad e msg eq_refl eq_refl).
      * apply Hgood; [intros m _; discriminate | reflexivity].
    + cbn [bind]. apply Hgood; [intros m H; congruence | reflexivity].
Qed.

Lemma dict_update_get V (d d2 : dict V) p :
  NoDup (dict_keys d2) ->
  dict_get (dict_update d d2) p
  = match dict_get d2 p with Some v => Some v | None => dict_get d p end.
Proof.
  intros Hnd. unfold dict_update.
  rewrite (fold_set_get (string * V) V fst (fun kv => Some (snd kv))
             (fun acc kv => dict_set acc (fst kv) (snd kv)) (dict_get d2)
             (fun _ _ => eq_refl)).
  - destruct (in_dec string_dec p (map fst d2)) as [Hi|Hi]; [reflexivity|].
    destruct (dict_get d2 p) eqn:E; [|reflexivity].
    exfalso. apply Hi. apply dict_get_keys. congruence.
  - intros [k v] Hx. cbn [fst snd]. symmetry. apply dict_get_In; assumption.
Qed.

Lemma cached_hash_set_other cm fs fs' q h p :
  q <> p ->
  cached_hash (Some (snd (set cm fs q h))) fs' p = cached_hash (Some cm) fs' p.
Proof.
  intros Hne. unfold cached_hash, entry_valid. rewrite set_eq.
  destruct (fs q) as [|msg|st]; cbn [snd]; try reflexivity.
  cbn [_cache]. rewrite (dict_get_set_neq _ (_cache cm) q p _ Hne).
  reflexivity.
Qed.

Lemma cached_hash_set_same cm fs p h st :
  fs p = Present st -> h <> "" ->
  cached_hash (Some (snd (set cm fs p h))) fs p = Some h.
Proof.
  intros Est Hh. unfold cached_hash, entry_valid. rewrite set_eq, Est.
  cbn [snd _cache]. rewrite dict_get_set_eq. cbn [e_mtime e_size e_hash].
  rewrite !Z.eqb_refl. cbn [andb].
  destruct (String.eqb_spec h ""); [contradiction | reflexivity].
Qed.

(** The update loop on hashes that were just computed: their files are
    there, so every [set] returns. *)
Lemma update_cache_computed fs items :
  NoDup (dict_keys items) ->
  (forall p h, In (p, h) items -> (exists f, fs p = Present f) /\ h <> "") ->
  forall cm,
  exists cm1,
    update_cache fs items cm = (Ok tt, cm1) /\
    cache_dir cm1 = cache_dir cm /\ format cm1 = format cm /\
    (items = [] -> cm1 = cm) /\
    (forall p,
       cached_hash (Some cm1) fs p
       = match dict_get items p with
         | Some h => Some h
         | None => cached_hash (Some cm) fs p
         end) /\
    (forall p, dict_get (_cache cm1) p <> None ->
               dict_get (_cache cm) p <> None \/ exists f, fs p = Present f).
Proof.
  induction items as [|[q h] items IH]; intros Hnd Hok cm.
  - exists cm. cbn [update_cache dict_get]. auto 7.
  - cbn [dict_keys map fst] in Hnd. inversion Hnd as [|? ? Hnot Hnd']; subst.
    destruct (Hok q h (or_introl eq_refl)) as [(st & Hst) Hh].
    cbn [update_cache].
    pose proof (cached_hash_set_same cm fs q h st Hst Hh) as Hsame.
    pose proof (fun p => cached_hash_set_other cm fs fs q h p) as Hother.
    revert Hsame Hother. rewrite set_eq, Hst. cbn [snd]. intros Hsame Hother.
    set (cm' := mkCacheManager _ _ _ true) in *.
    destruct (IH Hnd' (fun p' h' Hin => Hok p' h' (or_intror Hin)) cm')
      as (cm1 & Hrun & Hdir & Hfmt & _ & Hc & Hnew).
    exists cm1. split; [exact Hrun|]. split; [exact Hdir|].
    split; [exact Hfmt|]. split; [discriminate|]. split.
    + intros p. rewrite Hc. cbn [dict_get].
      destruct (String.eqb_spec q p) as [->|Hne].
      * destruct (dict_get items p) eqn:E; [|exact Hsame].
        exfalso. apply Hnot. apply dict_get_keys. congruence.
      * destruct (dict_get items p); [reflexivity|]. apply Hother. exact Hne.
    + intros p Hp. apply Hnew in Hp as [Hp|Hp]; [|right; exact Hp].
      unfold cm' in Hp. cbn [_cache] in Hp.
      destruct (string_dec q p) as [<-|Hne]; [right; eauto|].
      left. rewrite (dict_get_set_neq _ (_cache cm) q p _ Hne) in Hp.
      exact Hp.
Qed.

Lemma dict_get_all_None V (d : dict V) :
  (forall p, dict_get d p = None) -> d = [].
Proof.
  destruct d as [|[k v] d]; [reflexivity|].
  intros H. specialize (H k). cbn [dict_get] in H.
  rewrite String.eqb_refl in H. discriminate.
Qed.

(** A pass of [_compute_or_load_hashes] returns and leaves behind what
    [load_post] says, unless a lookup of the cache pass raises, or the pool
    is asked for and refuses the number of workers. *)
Lemma compute_or_load_cases self fp v w :
  (exists hd self1 w1,
     _compute_or_load_hashes self fp v w = (Ok hd, self1, w1) /\
     lookups_return (_cache_manager self) (w_fs w) fp /\
     load_post self fp w hd self1 w1) \/
  (jobs_ok (_n_jobs self) = false /\
   exists self1 w1,
     _compute_or_load_hashes self fp v w
     = (Raise (ValueError "max_workers must be greater than 0"), self1, w1) /\
     w_disk w1 = w_disk w) \/
  (exists cm p msg,
     _cache_manager self = Some cm /\ In p fp /\
     dict_get (_cache cm) p <> None /\ w_fs w p = Denied msg /\
     exists msg' self1 w1,
       _compute_or_load_hashes self fp v w = (Raise (OSError msg'), self1, w1) /\
       w_disk w1 = w_disk w).
Proof.
  unfold _compute_or_load_hashes, load_post.
  destruct (_cache_manager self) as [cm|] eqn:Ecm.
  - destruct (check_cache_pass (w_fs w) cm fp [] [])
      as [(hd0 & ftc & Hrun & Hret & Hget & Hftc)
         | (p & msg & Hin & He & Hden & msg' & Hrun)].
    2:{ right; right. exists cm, p, msg.
        split; [reflexivity|]. split; [exact Hin|]. split; [exact He|].
        split; [exact Hden|]. exists msg'.
        match goal with
        | |- context [foldM ?f ?l ?s] =>
            replace (foldM f l s) with
              (@Raise (dict string * list string * CacheManager)
                      (OSError msg'))
              by (symmetry; exact Hrun)
        end.
        cbn [bind]. eexists _, _. split; reflexivity. }
    match goal with
    | |- context [foldM ?f ?l ?s] =>
        replace (foldM f l s) with (Ok (hd0, ftc, cm))
          by (symmetry; exact Hrun)
    end.
    cbn [bind].
    assert (Hftc' : forall p, In p ftc <->
                      In p fp /\ cached_hash (Some cm) (w_fs w) p = None).
    { intros p. rewrite Hftc. split; [intros [[]|H]; exact H | auto]. }
    clear Hftc.
    destruct ftc as [|f0 ftc].
    + left. eexists _, _, _. split; [reflexivity|]. split; [exact Hret|].
      split; [|split; [auto|split; [left; reflexivity|split; [auto|]]]].
      * intros p. rewrite Hget. cbn [dict_get]. unfold hash_for.
        destruct (in_dec string_dec p fp) as [Hi|Hi]; [|reflexivity].
        destruct (cached_hash (Some cm) (w_fs w) p) eqn:Ec; [reflexivity|].
        exfalso. apply (proj2 (Hftc' p)). auto.
      * exists cm. cbn [_cache_manager set_cache_manager].
        split; [reflexivity|]. split; [reflexivity|]. split; [reflexivity|].
        split; [|split; [reflexivity | auto]].
        intros p Hp. unfold hash_for.
        destruct (cached_hash (Some cm) (w_fs w) p) eqn:Ec; [reflexivity|].
        exfalso. apply (proj2 (Hftc' p)). auto.
    + set (ftc1 := f0 :: ftc) in *.
      cbn [_n_jobs set_cache_manager].
      pose proof (compute_hashes_parallel_spec G
                    (log_event w (EvComputeHashes ftc1)) ftc1 (_n_jobs self) v)
        as Hspec.
      destruct (jobs_ok (_n_jobs self)) eqn:Hjobs; unfold jobs_ok in Hjobs;
        rewrite Hjobs in Hspec;
        [left | right; left; split; [reflexivity|]; rewrite Hspec;
                eexists _, _; split; reflexivity].
      destruct Hspec as (d & Hd & Hnd & Hdget). rewrite Hd.
      cbn [w_fs log_event] in Hdget |- *.
      assert (Hd_ok : forall p h, In (p, h) d ->
                        (exists f, w_fs w p = Present f) /\ h <> "").
      { intros p h Hin. apply hash_of_Some.
        pose proof (dict_get_In _ d p h Hnd Hin) as Hg.
        rewrite Hdget in Hg.
        destruct (in_dec string_dec p ftc1); [exact Hg | discriminate]. }
      destruct (update_cache_computed (w_fs w) d Hnd Hd_ok cm)
        as (cm1 & Hup & Hcd & Hfm & Hnil & Hcached & Hnew).
      rewrite Hup.
      eexists _, _, _. split; [reflexivity|]. split; [exact Hret|].
      split; [|split; [auto|split; [right; exists ftc1; auto|split; [auto|]]]].
      * intros p. rewrite (dict_update_get _ hd0 d p Hnd), Hdget, Hget.
        cbn [dict_get]. unfold hash_for.
        destruct (in_dec string_dec p ftc1) as [Hi|Hi].
        -- apply Hftc' in Hi as [Hi Hc]. rewrite Hc.
           destruct (in_dec string_dec p fp); [|contradiction].
           destruct (hash_of (w_fs w) p); reflexivity.
        -- destruct (in_dec string_dec p fp) as [Hj|Hj]; [|reflexivity].
           destruct (cached_hash (Some cm) (w_fs w) p) eqn:Ec; [reflexivity|].
           exfalso. apply Hi. apply Hftc'. auto.
      * exists cm1. cbn [_cache_manager set_cache_manager].
        split; [reflexivity|].
        split; [exact Hcd|]. split; [exact Hfm|]. split.
        -- intros p Hp. rewrite Hcached, Hdget.
           unfold hash_for.
           destruct (in_dec string_dec p ftc1) as [Hi|Hi].
           ++ apply Hftc' in Hi as [Hi Hc]. rewrite Hc.
              destruct (hash_of (w_fs w) p); reflexivity.
           ++ destruct (cached_hash (Some cm) (w_fs w) p) eqn:Ec;
                [reflexivity|].
              exfalso. apply Hi. apply Hftc'. auto.
        -- split; [|exact Hnew].
           intros Hfail. apply Hnil.
           apply dict_get_all_None. intros p. rewrite Hdget.
           destruct (in_dec string_dec p ftc1) as [Hi|Hi]; [|reflexivity].
           apply Hftc' in Hi as [Hi Hc]. apply Hfail; assumption.
  - destruct fp as [|f0 fp].
    + left. eexists _, _, _. split; [reflexivity|]. split; [exact I|].
      split; [intros p; reflexivity|].
      split; [auto|]. split; [left; reflexivity|]. split; [auto|].
      cbn [_cache_manager set_cache_manager]. reflexivity.
    + set (fp1 := f0 :: fp) in *.
      cbn [_n_jobs set_cache_manager].
      pose proof (compute_hashes_parallel_spec G
                    (log_event w (EvComputeHashes fp1)) fp1 (_n_jobs self) v)
        as Hspec.
      destruct (jobs_ok (_n_jobs self)) eqn:Hjobs; unfold jobs_ok in Hjobs;
        rewrite Hjobs in Hspec;
        [left | right; left; split; [reflexivity|]; rewrite Hspec;
                eexists _, _; split; reflexivity].
      destruct Hspec as (d & Hd & Hnd & Hdget). rewrite Hd.
      cbn [w_fs log_event] in Hdget |- *.
      eexists _, _, _. split; [reflexivity|]. split; [exact I|].
      split; [|split; [auto|split; [right; exists fp1; split; [reflexivity|]
                                   |split; [auto|]]]].
      * intros p. rewrite (dict_update_get _ [] d p Hnd), Hdget.
        cbn [dict_get]. unfold hash_for, cached_hash.
        destruct (in_dec string_dec p fp1); [|reflexivity].
        destruct (hash_of (w_fs w) p); reflexivity.
      * intros p. unfold cached_hash. split; [auto | intros [H _]; exact H].
      * reflexivity.
Qed.

Lemma compute_or_load_detail self fp v w :
  jobs_ok (_n_jobs self) = true ->
  lookups_return (_cache_manager self) (w_fs w) fp ->
  exists hd self1 w1,
    _compute_or_load_hashes self fp v w = (Ok hd, self1, w1) /\
    load_post self fp w hd self1 w1.
Proof.
  intros Hjobs Hret.
  destruct (compute_or_load_cases self fp v w)
    as [(hd & self1 & w1 & Hrun & _ & Hpost)
       | [[H _] | (cm & p & msg & Ecm & Hin & He & Hden & _)]].
  - eauto.
  - congruence.
  - exfalso. rewrite Ecm in Hret. exact (Hret p Hin He msg Hden).
Qed.

Lemma compute_or_load_post self fp v w hd self1 w1 :
  _compute_or_load_hashes self fp v w = (Ok hd, self1, w1) ->
  lookups_return (_cache_manager self) (w_fs w) fp /\
  load_post self fp w hd self1 w1.
Proof.
  intros Hrun.
  destruct (compute_or_load_cases self fp v w)
    as [(hd' & self' & w' & Hrun' & Hret & Hpost)
       | [(_ & self' & w' & Hrun' & _)
         | (cm & p & msg & _ & _ & _ & _ & msg' & self' & w' & Hrun' & _)]];
    rewrite Hrun in Hrun'; inversion Hrun'; subst. auto.
Qed.

(** X7. When the lookups of the cache pass return and the number of
    workers is one the pool accepts (-1 or positive),
    [_compute_or_load_hashes] returns a dictionary, and as a mapping it is
    fixed by the input list, the cache and the files: an identifier of the
    list maps to its cached hash when the cache holds a valid, non-empty
    one, and otherwise to the hash computed now, if computing succeeds;
    anything else is no key. The order and the multiplicity of the input
    and the completion order of the workers play no part in the mapping.
    When [os.stat] fails, otherwise than by [FileNotFoundError], for a
    listed identifier that has an entry, the call raises an [OSError]
    instead and nothing is written. *)
Theorem compute_or_load_hashes_mapping self file_paths verbose w :
  (jobs_ok (_n_jobs self) = true ->
   lookups_return (_cache_manager self) (w_fs w) file_paths ->
   exists hash_dict self' w',
     _compute_or_load_hashes self file_paths verbose w
     = (Ok hash_dict, self', w') /\
     NoDup (dict_keys hash_dict) /\
     forall p,
       dict_get hash_dict p
       = if in_dec string_dec p file_paths
         then hash_for (_cache_manager self) (w_fs w) p
         else None) /\
  (forall cm p msg,
     _cache_manager self = Some cm -> In p file_paths ->
     dict_get (_cache cm) p <> None -> w_fs w p = Denied msg ->
     exists msg' self' w',
       _compute_or_load_hashes self file_paths verbose w
       = (Raise (OSError msg'), self', w') /\
       w_disk w' = w_disk w).
Proof.
  split.
  - intros Hjobs Hret.
    destruct (compute_or_load_detail self file_paths verbose w Hjobs Hret)
      as (hd & self1 & w1 & Hrun & Hget & _).
    exists hd, self1, w1. split; [exact Hrun|]. split; [|exact Hget].
    apply compute_or_load_Ok in Hrun as [Hnd _]. exact Hnd.
  - intros cm p msg Ecm Hin He Hden.
    destruct (compute_or_load_cases self file_paths verbose w)
      as [(hd & self1 & w1 & _ & Hret & _)
         | [(_ & self1 & w1 & Hrun & _)
           | (cm' & p' & m' & _ & _ & _ & _ & msg' & self1 & w1 & Hrun & Hdk)]].
    + exfalso. rewrite Ecm in Hret. exact (Hret p Hin He msg Hden).
    + exfalso.
      (* the pool is not reached: the cache pass raises first *)
      revert Hrun. unfold _compute_or_load_hashes. rewrite Ecm.
      destruct (check_cache_pass (w_fs w) cm file_paths [] [])
        as [(hd0 & ftc & Hpass & Hret & _)
           | (q & m & _ & _ & _ & msg' & Hpass)].
      * exfalso. exact (Hret p Hin He msg Hden).
      * match goal with
        | |- context [foldM ?f ?l ?s] =>
            replace (foldM f l s) with
              (@Raise (dict string * list string * CacheManager)
                      (OSError msg'))
              by (symmetry; exact Hpass)
        end.
        cbn [bind]. discriminate.
    + eauto.
Qed.

Lemma cached_hash_cache_eq a b fs p :
  _cache a = _cache b ->
  cached_hash (Some a) fs p = cached_hash (Some b) fs p.
Proof.
  intros E. unfold cached_hash, entry_valid. rewrite E. reflexivity.
Qed.

Lemma save_cache_clean self dk :
  _dirty (fst (_save_cache self dk)) = false.
Proof.
  unfold _save_cache. destruct (_dirty self) eqn:E; cbn [negb fst]; auto.
Qed.

Lemma save_cache_noop self dk :
  _dirty self = false -> _save_cache self dk = (self, dk).
Proof. intros E. unfold _save_cache. rewrite E. reflexivity. Qed.

(** X8. A warm cache is used. After [compute_hashes] has returned on a
    selector with a cache, a second call on the same list, with the files
    unchanged, returns the same mapping, asks [compute_hashes_parallel] for
    nothing but the identifiers that have no hash (they fail again), and
    leaves the cache file as it is. *)
Theorem compute_hashes_again_uses_cache
    self cm file_paths verbose verbose' w hash_dict self1 w1 w2 :
  jobs_ok (_n_jobs self) = true ->
  _cache_manager self = Some cm ->
  compute_hashes self file_paths verbose w = (Ok hash_dict, self1, w1) ->
  w_fs w2 = w_fs w ->
  exists hash_dict2 self2 w3,
    compute_hashes self1 file_paths verbose' w2 = (Ok hash_dict2, self2, w3) /\
    (forall p, dict_get hash_dict2 p = dict_get hash_dict p) /\
    w_disk w3 = w_disk w2 /\
    (w_log w3 = w_log w2 \/
     exists files_to_compute,
       w_log w3 = w_log w2 ++ [EvComputeHashes files_to_compute] /\
       forall p, In p files_to_compute ->
                 In p file_paths /\ dict_get hash_dict p = None).
Proof.
  intros Hjobs Ecm Hrun1 Hfs.
  unfold compute_hashes in Hrun1.
  destruct (_compute_or_load_hashes self file_paths
              (match verbose with Some v => v | None => _verbose self end) w)
    as [[r0 self'] w'] eqn:Hcl.
  destruct r0 as [hd|e]; [|inversion Hrun1].
  destruct (compute_or_load_post _ _ _ _ _ _ _ Hcl)
    as (Hret & Hget & _ & _ & (_ & Hnj & _) & Hcm).
  rewrite Ecm in Hcm, Hget, Hret.
  destruct Hcm as (cm1 & Ecm1 & _ & _ & Hcached & _ & Hnew).
  rewrite Ecm1 in Hrun1.
  pose proof (save_cache_clean cm1 (w_disk w')) as Hclean.
  pose proof (save_cache_entry cm1 (w_disk w')) as (Hsame & _).
  unfold save in Hrun1.
  destruct (_save_cache cm1 (w_disk w')) as [cm1s dk1].
  cbn [fst] in Hclean, Hsame.
  inversion Hrun1; subst hd self1 w1; clear Hrun1.
  assert (Hjobs1 : jobs_ok (_n_jobs (set_cache_manager self' (Some cm1s)))
                   = true)
    by (cbn [_n_jobs set_cache_manager]; rewrite Hnj; exact Hjobs).
  set (self1 := set_cache_manager self' (Some cm1s)) in *.
  assert (Hret1 : lookups_return (_cache_manager self1) (w_fs w2) file_paths).
  { cbn [self1 _cache_manager set_cache_manager lookups_return].
    intros p Hp He. rewrite Hsame in He. rewrite Hfs.
    destruct (Hnew p He) as [Hold | (f & Hf)].
    - exact (Hret p Hp Hold).
    - intros msg Hm. congruence. }
  assert (Hc1 : forall p, In p file_paths ->
                  cached_hash (Some cm1s) (w_fs w) p
                  = hash_for (Some cm) (w_fs w) p).
  { intros p Hp. rewrite <- (Hcached p Hp).
    apply cached_hash_cache_eq. exact Hsame. }
  assert (Hfail : forall p, In p file_paths ->
                    cached_hash (Some cm1s) (w_fs w) p = None ->
                    hash_of (w_fs w) p = None).
  { intros p Hp Hc. rewrite (Hc1 p Hp) in Hc. unfold hash_for in Hc.
    destruct (cached_hash (Some cm) (w_fs w) p); [discriminate | exact Hc]. }
  unfold compute_hashes.
  destruct (compute_or_load_detail self1 file_paths
              (match verbose' with Some v => v | None => _verbose self1 end)
              w2 Hjobs1 Hret1)
    as (hd2 & self2 & w3 & Hcl2 & Hget2 & (_ & Hdk & _) & Hlog & _ & Hcm2).
  rewrite Hcl2. rewrite Hfs in Hget2, Hlog, Hcm2.
  change (_cache_manager self1) with (Some cm1s) in Hget2, Hlog, Hcm2.
  destruct Hcm2 as (cm2 & Ecm2 & _ & _ & _ & Hcm2 & _).
  specialize (Hcm2 Hfail). subst cm2. rewrite Ecm2.
  unfold save. rewrite (save_cache_noop cm1s (w_disk w3) Hclean).
  assert (Hsame_map : forall p, dict_get hd2 p = dict_get hash_dict p).
  { intros p. rewrite Hget2, Hget.
    destruct (in_dec string_dec p file_paths) as [Hi|Hi]; [|reflexivity].
    unfold hash_for at 1.
    destruct (cached_hash (Some cm1s) (w_fs w) p) eqn:Ec.
    - rewrite <- (Hc1 p Hi). symmetry; exact Ec.
    - rewrite (Hfail p Hi Ec). rewrite <- (Hc1 p Hi). symmetry; exact Ec. }
  eexists _, _, _. split; [reflexivity|].
  split; [exact Hsame_map|].
  split; [cbn [w_disk set_disk]; exact Hdk|].
  cbn [w_log set_disk].
  destruct Hlog as [Hlog | (ftc & Hlog & Hftc)]; [left; exact Hlog|].
  right. exists ftc. split; [exact Hlog|].
  intros p Hp. apply Hftc in Hp as [Hp Hc]. split; [exact Hp|].
  rewrite Hget. destruct (in_dec string_dec p file_paths); [|reflexivity].
  rewrite <- (Hc1 p Hp). exact Hc.
Qed.

(* ---------------------------------------------------------------- *)
(** *** selector.py: get_cached_hashes, clear_cache *)

Lemma set_wf cm fs q h : store_wf cm -> store_wf (snd (set cm fs q h)).
Proof.
  intros Hwf. rewrite set_eq. unfold store_wf.
  destruct (fs q); cbn [snd _cache]; try exact Hwf.
  apply dict_keys_set_NoDup. exact Hwf.
Qed.

Lemma update_cache_wf fs items : forall cm,
  store_wf cm -> store_wf (snd (update_cache fs items cm)).
Proof.
  induction items as [|[q h] items IH]; intros cm Hwf; [exact Hwf|].
  cbn [update_cache]. pose proof (set_wf cm fs q h Hwf) as Hs.
  destruct (set cm fs q h) as [[[]|e] cm']; cbn [snd] in *;
    [apply IH; exact Hs | exact Hs].
Qed.

Lemma cached_hash_Some cm fs p h :
  cached_hash (Some cm) fs p = Some h ->
  entry_valid cm fs p = true /\
  option_map e_hash (dict_get (_cache cm) p) = Some h.
Proof.
  unfold cached_hash. destruct (entry_valid cm fs p); [|discriminate].
  destruct (dict_get (_cache cm) p) as [e|]; [|discriminate].
  destruct (String.eqb (e_hash e) ""); [discriminate|].
  intros H; inversion H; subst. auto.
Qed.

(** The manager a pass of [_compute_or_load_hashes] leaves, whatever its
    result: the one it found, or that one after the update loop. *)
Lemma compute_or_load_manager self cm fp v w r self1 w1 :
  _cache_manager self = Some cm ->
  _compute_or_load_hashes self fp v w = (r, self1, w1) ->
  w_disk w1 = w_disk w /\
  exists cm1,
    _cache_manager self1 = Some cm1 /\
    (cm1 = cm \/ exists items, cm1 = snd (update_cache (w_fs w) items cm)).
Proof.
  intros Ecm. unfold _compute_or_load_hashes. rewrite Ecm.
  destruct (foldM (check_cache_step (w_fs w)) fp ([], [], cm))
    as [[[hd0 ftc] cm0]|e] eqn:Hf; cbn [bind].
  - apply check_cache_fold in Hf as (_ & _ & _ & ->).
    destruct ftc as [|f0 ftc].
    + intros H; inversion H; subst. split; [reflexivity|].
      exists cm. split; [reflexivity | left; reflexivity].
    + destruct (compute_hashes_parallel _ _ _ _) as [d|e].
      * cbn [w_fs log_event].
        destruct (update_cache (w_fs w) d cm) as [r' cm'] eqn:Eu.
        assert (Hcm' : cm' = snd (update_cache (w_fs w) d cm))
          by (rewrite Eu; reflexivity).
        destruct r' as [[]|e]; intros H; inversion H; subst;
          (split; [reflexivity|]); eexists; (split; [reflexivity|]);
          right; exists d; reflexivity.
      * intros H; inversion H; subst. split; [reflexivity|].
        exists cm. split; [reflexivity | left; reflexivity].
  - intros H; inversion H; subst. split; [reflexivity|].
    exists cm. split; [exact Ecm | left; reflexivity].
Qed.

(** The store a pass of [_compute_or_load_hashes] leaves is a dictionary
    when the one it found was. *)
Lemma compute_or_load_wf self cm fp v w r self1 w1 :
  _cache_manager self = Some cm -> store_wf cm ->
  _compute_or_load_hashes self fp v w = (r, self1, w1) ->
  exists cm1, _cache_manager self1 = Some cm1 /\ store_wf cm1.
Proof.
  intros Ecm Hwf Hrun.
  destruct (compute_or_load_manager _ _ _ _ _ _ _ _ Ecm Hrun)
    as (_ & cm1 & Ecm1 & [-> | (items & ->)]);
    (eexists; split; [exact Ecm1|]);
    [exact Hwf | apply update_cache_wf; exact Hwf].
Qed.

Lemma set_keeps cm fs q h p :
  dict_get (_cache cm) p <> None ->
  dict_get (_cache (snd (set cm fs q h))) p <> None.
Proof.
  intros Hp. rewrite set_eq.
  destruct (fs q); cbn [snd _cache]; try exact Hp.
  destruct (string_dec q p) as [<-|Hne].
  - rewrite dict_get_set_eq. discriminate.
  - rewrite dict_get_set_neq by exact Hne. exact Hp.
Qed.

Lemma update_cache_keeps fs items p : forall cm,
  dict_get (_cache cm) p <> None ->
  dict_get (_cache (snd (update_cache fs items cm))) p <> None.
Proof.
  induction items as [|[q h] items IH]; intros cm Hp; [exact Hp|].
  cbn [update_cache]. pose proof (set_keeps cm fs q h p Hp) as Hs.
  destruct (set cm fs q h) as [[[]|e] cm']; cbn [snd] in *;
    [apply IH; exact Hs | exact Hs].
Qed.

(** X9. What [compute_hashes] returns is in the cache afterwards. On a
    selector with a cache, after [compute_hashes] has returned and as long
    as the files are unchanged: when [os.stat] fails for no stored
    identifier otherwise than by [FileNotFoundError], [get_cached_hashes]
    succeeds and holds every identifier of the returned dictionary with
    the same hash; when it fails so for a stored identifier (one that is
    not in the list, since the call on the list has returned),
    [get_cached_hashes] raises that kind of error instead. *)
Theorem get_cached_hashes_after_compute_hashes
    self cm file_paths verbose w hash_dict self1 w1 :
  jobs_ok (_n_jobs self) = true ->
  _cache_manager self = Some cm ->
  store_wf cm ->
  compute_hashes self file_paths verbose w = (Ok hash_dict, self1, w1) ->
  ((forall p, dict_get (_cache cm) p <> None -> reachable (w_fs w) p) ->
   exists cached self2,
     get_cached_hashes self1 (w_fs w) = (Ok cached, self2) /\
     forall p h, dict_get hash_dict p = Some h -> dict_get cached p = Some h) /\
  (forall p msg,
     dict_get (_cache cm) p <> None -> w_fs w p = Denied msg ->
     ~ In p file_paths /\
     exists msg' self2,
       get_cached_hashes self1 (w_fs w) = (Raise (OSError msg'), self2)).
Proof.
  intros Hjobs Ecm Hwf Hrun.
  unfold compute_hashes in Hrun.
  destruct (_compute_or_load_hashes self file_paths
              (match verbose with Some v => v | None => _verbose self end) w)
    as [[r0 self'] w'] eqn:Hcl.
  destruct r0 as [hd|e]; [|inversion Hrun].
  destruct (compute_or_load_post _ _ _ _ _ _ _ Hcl)
    as (Hret & Hget & _ & _ & _ & Hcm).
  destruct (compute_or_load_wf _ _ _ _ _ _ _ _ Ecm Hwf Hcl)
    as (cm1' & Ecm1' & Hwf1).
  destruct (compute_or_load_manager _ _ _ _ _ _ _ _ Ecm Hcl)
    as (_ & cm1'' & Ecm1'' & Hkeep).
  rewrite Ecm in Hcm, Hget, Hret.
  destruct Hcm as (cm1 & Ecm1 & _ & _ & Hcached & _ & Hnew).
  rewrite Ecm1 in Ecm1'. inversion Ecm1'; subst cm1'. clear Ecm1'.
  rewrite Ecm1 in Ecm1''. inversion Ecm1''; subst cm1''. clear Ecm1''.
  rewrite Ecm1 in Hrun.
  pose proof (save_cache_entry cm1 (w_disk w')) as (Hsame & _).
  unfold save in Hrun.
  destruct (_save_cache cm1 (w_disk w')) as [cm1s dk1].
  cbn [fst] in Hsame.
  inversion Hrun; subst hd self1 w1; clear Hrun.
  unfold get_cached_hashes. cbn [_cache_manager set_cache_manager].
  split.
  - intros Hreach.
    assert (Hwfs : store_wf cm1s)
      by (unfold store_wf; rewrite Hsame; exact Hwf1).
    assert (Hreach1 : forall id, In id (dict_keys (_cache cm1s)) ->
                                 reachable (w_fs w) id).
    { intros id Hid. apply dict_get_keys in Hid. rewrite Hsame in Hid.
      destruct (Hnew id Hid) as [Hold | (f & Hf)];
        [exact (Hreach id Hold) | intros msg Hm; congruence]. }
    destruct (get_all_hashes_get cm1s (w_fs w) Hwfs Hreach1)
      as (d & Hd & _ & Hall).
    destruct (get_all_hashes cm1s (w_fs w)) as [r cm2].
    cbn [fst] in Hd. subst r.
    eexists _, _. split; [reflexivity|].
    intros p h Hp. rewrite Hget in Hp.
    destruct (in_dec string_dec p file_paths) as [Hi|Hi]; [|discriminate].
    rewrite <- (Hcached p Hi) in Hp.
    rewrite (cached_hash_cache_eq cm1 cm1s (w_fs w) p (eq_sym Hsame)) in Hp.
    apply cached_hash_Some in Hp as [Hv He].
    rewrite Hall, Hv. exact He.
  - intros p msg Hp Hden. split.
    + intros Hin. apply (Hret p Hin Hp msg). exact Hden.
    + assert (Hp1 : In p (dict_keys (_cache cm1s))).
      { apply dict_get_keys. rewrite Hsame.
        destruct Hkeep as [-> | (items & ->)];
          [exact Hp | apply update_cache_keeps; exact Hp]. }
      destruct (get_all_hashes_Denied cm1s (w_fs w) p msg Hp1 Hden)
        as (msg' & Hraise).
      destruct (get_all_hashes cm1s (w_fs w)) as [r cm2].
      cbn [fst] in Hraise. subst r.
      eexists _, _. reflexivity.
Qed.

(** X10. Without a cache directory [clear_cache] and [get_cached_hashes]
    raise [ValueError] and change nothing. With one, [clear_cache] empties
    the cache file; [get_cached_hashes] is then empty, and the next
    [compute_hashes] takes nothing from the cache: every identifier maps to
    the hash computed from its file. *)
Theorem clear_cache_forgets_every_hash self dk :
  match _cache_manager self with
  | None =>
      clear_cache self dk
      = (Raise (ValueError "No cache directory configured"), self, dk) /\
      forall fs,
        get_cached_hashes self fs
        = (Raise (ValueError "No cache directory configured"), self)
  | Some cm =>
      exists self1 dk1,
        clear_cache self dk = (Ok tt, self1, dk1) /\
        dk1 (cache_file cm) = Snapshot [] /\
        (forall fs, fst (get_cached_hashes self1 fs) = Ok []) /\
        forall file_paths verbose w,
          jobs_ok (_n_jobs self) = true ->
          exists hash_dict self2 w2,
            compute_hashes self1 file_paths verbose w
            = (Ok hash_dict, self2, w2) /\
            forall p,
              dict_get hash_dict p
              = if in_dec string_dec p file_paths
                then hash_of (w_fs w) p
                else None
  end.
Proof.
  unfold clear_cache, get_cached_hashes.
  destruct (_cache_manager self) as [cm|] eqn:Ecm; [|split; reflexivity].
  unfold clear, _save_cache. cbn [_dirty negb cache_dir format _cache].
  set (cm1 := mkCacheManager (cache_dir cm) (format cm) [] false).
  assert (Hc : _cache cm1 = []) by reflexivity.
  eexists _, _. split; [reflexivity|].
  split; [unfold disk_write, cache_file; cbn [cache_dir format];
          rewrite String.eqb_refl; reflexivity|].
  cbn [_cache_manager set_cache_manager]. split.
  - intros fs. unfold get_all_hashes. rewrite Hc. reflexivity.
  - intros fp v w Hjobs. unfold compute_hashes.
    set (self1 := set_cache_manager self (Some cm1)).
    assert (Hret : lookups_return (_cache_manager self1) (w_fs w) fp).
    { cbn [self1 _cache_manager set_cache_manager lookups_return].
      intros p _ He. exfalso. apply He. reflexivity. }
    destruct (compute_or_load_detail self1 fp
                (match v with Some v0 => v0 | None => _verbose self1 end)
                w Hjobs Hret)
      as (hd & self' & w' & Hcl & Hget & _).
    rewrite Hcl.
    assert (Hhd : forall p, dict_get hd p
                    = if in_dec string_dec p fp
                      then hash_of (w_fs w) p else None).
    { intros p. rewrite Hget.
      destruct (in_dec string_dec p fp); [|reflexivity].
      unfold hash_for, cached_hash, entry_valid.
      cbn [_cache_manager self1 set_cache_manager].
      rewrite Hc. reflexivity. }
    destruct (_cache_manager self') as [cm2|].
    + destruct (save cm2 (w_disk w')) as [cm3 dk3].
      eexists _, _, _. split; [reflexivity | exact Hhd].
    + eexists _, _, _. split; [reflexivity | exact Hhd].
Qed.

(* ---------------------------------------------------------------- *)
(** *** selector.py: _greedy_selection, select *)

(** X11. [_greedy_selection] on an empty list raises the [ValueError] of
    [random.randint(0, -1)]. When it returns, it returns
    [min(max(n_select, 1), n)] indices, pairwise distinct and below [n],
    with one score each: one index even for a count of zero or less, and
    never more than there are paths. *)
Theorem greedy_selection_count self file_paths n_select verbose g :
  (file_paths = [] ->
   fst (_greedy_selection self file_paths n_select verbose g)
   = Raise (ValueError (random_empty_range 0 (-1)))) /\
  (forall sel sc,
     fst (_greedy_selection self file_paths n_select verbose g)
     = Ok (sel, sc) ->
     Z.of_nat (List.length sel) = Z.min (Z.max n_select 1) (len file_paths) /\
     List.length sc = List.length sel /\
     NoDup sel /\
     forall i, In i sel -> (i < List.length file_paths)%nat).
Proof.
  unfold _greedy_selection. split.
  - intros ->. reflexivity.
  - intros sel sc.
    destruct (len file_paths - 1 <? 0); [discriminate|].
    destruct (random_randint g 0 (len file_paths - 1)) as [first g'].
    cbn [fst]. intros Hrun.
    destruct (greedy_from_inv _ _ _ _ _ _ Hrun)
      as (Hfirst & _ & Hlen & md & Hinv).
    destruct Hinv as (_ & _ & Hnd & Hsc & Hin & _).
    cbn [selected_indices scores] in Hnd, Hsc, Hin.
    split; [unfold len; lia|]. split; [exact Hsc|]. split; [exact Hnd|].
    intros i Hi. apply (Hin i Hi).
Qed.

(** X12. [select] does not check the count. Called with a count of zero
    or less, a call that returns has selected exactly one file, the first
    draw, with the single score [inf]. *)
Theorem select_nonpositive_count_selects_one
    self fp n_select verbose random_state w r self' w' :
  n_select <= 0 ->
  select self fp n_select verbose random_state w = (Ok r, self', w') ->
  List.length (indices r) = 1%nat /\
  List.length (file_paths r) = 1%nat /\
  diversity_scores r = Some [PosInf].
Proof.
  intros Hk Hrun.
  apply select_Ok in Hrun
    as (g & hd & self1 & w1 & first & g' & sel & sc & _ & _ & _ & _ & _
        & Hgreedy & Hidx & Hpaths & Hsc).
  destruct (greedy_from_inv _ _ _ _ _ _ Hgreedy)
    as (Hfirst & _ & Hlen & md & Hinv).
  destruct Hinv as (_ & _ & _ & Hlsc & _ & _ & Hsc0 & _).
  cbn [selected_indices scores] in Hlsc, Hsc0.
  assert (Hone : List.length sel = 1%nat) by lia.
  apply mapM_Forall2 in Hidx. apply Forall2_length in Hidx.
  apply mapM_Forall2 in Hpaths. apply Forall2_length in Hpaths.
  split; [congruence|]. split; [congruence|].
  rewrite Hsc. f_equal.
  destruct sc as [|s0 [|s1 sc]]; cbn [List.length] in Hlsc; try lia.
  cbn [nth_error] in Hsc0. congruence.
Qed.

(* ---------------------------------------------------------------- *)
(** *** selector.py: what a selection leaves behind *)

Lemma update_cache_in_sync fs dk items : forall cm,
  in_sync (cm, dk) -> in_sync (snd (update_cache fs items cm), dk).
Proof.
  induction items as [|[q h] items IH]; intros cm Hs; [exact Hs|].
  cbn [update_cache].
  assert (Hs' : in_sync (snd (set cm fs q h), dk)).
  { rewrite set_eq. destruct (fs q); cbn [snd]; try exact Hs.
    unfold in_sync. cbn [_dirty]. discriminate. }
  destruct (set cm fs q h) as [[[]|e] cm']; cbn [snd] in *;
    [apply IH; exact Hs' | exact Hs'].
Qed.

Lemma compute_or_load_in_sync self cm fp v w r self1 w1 :
  _cache_manager self = Some cm -> in_sync (cm, w_disk w) ->
  _compute_or_load_hashes self fp v w = (r, self1, w1) ->
  exists cm1, _cache_manager self1 = Some cm1 /\ in_sync (cm1, w_disk w1).
Proof.
  intros Ecm Hs Hrun.
  destruct (compute_or_load_manager _ _ _ _ _ _ _ _ Ecm Hrun)
    as (Hdk & cm1 & Ecm1 & [-> | (items & ->)]);
    (eexists; split; [exact Ecm1|]); rewrite Hdk;
    [exact Hs | apply update_cache_in_sync; exact Hs].
Qed.

Lemma compute_or_load_disk self fp v w r self1 w1 :
  _compute_or_load_hashes self fp v w = (r, self1, w1) ->
  w_disk w1 = w_disk w.
Proof.
  intros Hrun.
  destruct (compute_or_load_cases self fp v w)
    as [(hd' & self' & w' & Hrun' & _ & Hpost)
       | [(_ & self' & w' & Hrun' & Hdk)
         | (cm & p & msg & _ & _ & _ & _ & msg' & self' & w' & Hrun' & Hdk)]];
    rewrite Hrun in Hrun'; inversion Hrun'; subst; [|exact Hdk|exact Hdk].
  destruct Hpost as (_ & (_ & Hdk & _) & _). exact Hdk.
Qed.

(** The selector and the world a selection that returns leaves. *)
Lemma select_state self fp k v rs w r self' w' :
  select self fp k v rs w = (Ok r, self', w') ->
  exists g hd self1 w1,
    seed_generators rs (w_rng w) = (Ok tt, g) /\
    _compute_or_load_hashes self fp
      (match v with Some v0 => v0 | None => _verbose self end) (set_rng w g)
    = (Ok hd, self1, w1) /\
    _hash_dict self' = hd /\
    hashes r = (if truthy (_cache_dir self1) then Some hd else None) /\
    match _cache_manager self1 with
    | Some cm =>
        _cache_manager self' = Some (fst (save cm (w_disk w1))) /\
        w_disk w' = snd (save cm (w_disk w1))
    | None => _cache_manager self' = None /\ w_disk w' = w_disk w1
    end.
Proof.
  unfold select.
  set (vb := match v with Some v0 => v0 | None => _verbose self end).
  destruct (seed_generators rs (w_rng w)) as [r0 g] eqn:Eseed.
  destruct r0 as [[]|e]; [|intros H; inversion H].
  destruct (_compute_or_load_hashes self fp vb (set_rng w g))
    as [[r1 self1] w1] eqn:Ecl.
  destruct r1 as [hd|e]; [|intros H; inversion H].
  cbn [_hash_dict set_hash_dict].
  destruct (len (dict_keys hd) <? k); [intros H; inversion H|].
  destruct (_greedy_selection _ _ _ _ _) as [[[sel sc]|e] g'];
    [|intros H; inversion H].
  destruct (mapM (fun idx => p <- getitem (dict_keys hd) idx ;; list_index fp p) sel)
    as [oi|e]; [|intros H; inversion H]. cbn [bind].
  destruct (mapM (getitem fp) oi) as [sp|e]; [|intros H; inversion H].
  cbn [bind]. cbn [_cache_manager set_hash_dict w_disk set_rng log_event].
  intros H. exists g, hd, self1, w1.
  split; [reflexivity|]. split; [exact Ecl|].
  destruct (_cache_manager self1) as [cm|] eqn:Ecm.
  - destruct (save cm (w_disk w1)) as [cm' dk'].
    inversion H; subst; clear H.
    cbn [_hash_dict _cache_dir _cache_manager set_cache_manager set_hash_dict
         hashes w_disk set_disk fst snd].
    split; [reflexivity|]. split; [reflexivity|]. split; reflexivity.
  - inversion H; subst; clear H.
    cbn [_hash_dict _cache_dir _cache_manager set_hash_dict hashes w_disk
         set_rng log_event].
    split; [reflexivity|]. split; [reflexivity|].
    split; [exact Ecm | reflexivity].
Qed.

Lemma select_Raise_disk self fp k v rs w e self' w' :
  select self fp k v rs w = (Raise e, self', w') -> w_disk w' = w_disk w.
Proof.
  unfold select.
  set (vb := match v with Some v0 => v0 | None => _verbose self end).
  destruct (seed_generators rs (w_rng w)) as [r0 g] eqn:Eseed.
  destruct r0 as [[]|e0]; [|intros H; inversion H; reflexivity].
  destruct (_compute_or_load_hashes self fp vb (set_rng w g))
    as [[r1 self1] w1] eqn:Ecl.
  apply compute_or_load_disk in Ecl. cbn [w_disk set_rng] in Ecl.
  destruct r1 as [hd|e0]; [|intros H; inversion H; subst; exact Ecl].
  cbn [_hash_dict set_hash_dict].
  destruct (len (dict_keys hd) <? k);
    [intros H; inversion H; subst; exact Ecl|].
  destruct (_greedy_selection _ _ _ _ _) as [[[sel sc]|e0] g'];
    [|intros H; inversion H; subst; exact Ecl].
  destruct (mapM (fun idx => p <- getitem (dict_keys hd) idx ;; list_index fp p) sel)
    as [oi|e0]; [|intros H; inversion H; subst; exact Ecl]. cbn [bind].
  destruct (mapM (getitem fp) oi) as [sp|e0];
    [|intros H; inversion H; subst; exact Ecl].
  cbn [bind].
  destruct (_cache_manager _) as [cm|].
  - destruct (save cm _) as [cm' dk']. intros H; inversion H.
  - intros H; inversion H.
Qed.

(** X13. Every selected path is a candidate, with its hash in the
    selector's dictionary; and when the count equals the number of
    candidates, the selected paths are the candidates up to order. *)
Theorem select_all_is_permutation self fp n_select verbose random_state w
    r self' w' :
  select self fp n_select verbose random_state w = (Ok r, self', w') ->
  (forall p, In p (file_paths r) -> dict_get (_hash_dict self') p <> None) /\
  (n_select = len (dict_keys (_hash_dict self')) ->
   Permutation (file_paths r) (dict_keys (_hash_dict self'))).
Proof.
  intros Hrun.
  destruct (select_state _ _ _ _ _ _ _ _ _ Hrun)
    as (g0 & hd0 & self0 & w0 & Hseed0 & Hcl0 & Hhd & _).
  destruct (select_Ok _ _ _ _ _ _ _ _ _ Hrun)
    as (g & hd & self1 & w1 & first & g' & sel & sc & Hseed & Hcl & Hk & Hpos
        & _ & Hgreedy & Hidx & Hpaths & _).
  rewrite Hseed in Hseed0. inversion Hseed0; subst g0. clear Hseed0.
  rewrite Hcl in Hcl0. inversion Hcl0 as [[Ehd Eself Ew]].
  rewrite <- Ehd in Hhd. clear Hcl0 Ehd Eself Ew. rewrite Hhd.
  apply mapM_Forall2 in Hidx. apply mapM_Forall2 in Hpaths.
  pose proof (Forall2_compose _ _ _ _ _ _ _ _ Hidx Hpaths) as Hall.
  assert (Hincl : forall p, In p (file_paths r) -> In p (dict_keys hd)).
  { intros p Hp.
    destruct (Forall2_In_r _ _ _ _ _ _ Hall Hp) as (idx & _ & i & Hi & Hq).
    apply bind_Ok in Hi as (q & Hq1 & Hq2).
    apply getitem_Ok in Hq1. apply list_index_spec in Hq2 as [Hq2 _].
    apply getitem_Ok in Hq. rewrite Hq2 in Hq. inversion Hq; subst q.
    eapply nth_error_In; eassumption. }
  split.
  - intros p Hp. apply Hincl in Hp. unfold dict_keys in Hp.
    apply in_map_iff in Hp as ([p' h] & <- & Hin). cbn [fst].
    assert (Hnd : NoDup (dict_keys hd))
      by (apply compute_or_load_Ok in Hcl as [Hnd _]; exact Hnd).
    rewrite (dict_get_In _ hd p' h Hnd Hin). discriminate.
  - intros Hkn.
    assert (Hk1 : 1 <= n_select) by lia.
    destruct (select_result_shape _ _ _ _ _ _ _ _ _ Hk1 Hrun)
      as (Hlen & _ & Hnd & HF & _).
    apply NoDup_Permutation_bis; [exact Hnd| |exact Hincl].
    apply Forall2_length in HF. rewrite <- HF, Hlen, Hkn.
    unfold len. rewrite Nat2Z.id. apply le_n.
Qed.

Lemma FileSelector_init_Ok cd nj v dk selector :
  FileSelector_init cd nj v dk = Ok selector ->
  _cache_dir selector = cd /\ _n_jobs selector = nj /\
  if truthy cd
  then exists d cm,
         cd = Some d /\ CacheManager_init d pickle dk = Ok cm /\
         _cache_manager selector = Some cm
  else _cache_manager selector = None.
Proof.
  unfold FileSelector_init.
  destruct (truthy cd) eqn:Et.
  - destruct cd as [d|]; [|discriminate].
    destruct (CacheManager_init d pickle dk) as [cm|e] eqn:Ei;
      cbn [bind]; intros H; inversion H; subst.
    cbn [_cache_dir _n_jobs _cache_manager].
    split; [reflexivity|]. split; [reflexivity|]. exists d, cm.
    split; [reflexivity|]. split; [exact Ei | reflexivity].
  - cbn [bind]. intros H; inversion H; subst.
    cbn [_cache_dir _n_jobs _cache_manager].
    split; [reflexivity|]. split; reflexivity.
Qed.

(** X14. A call of [select_diverse_files] that raises anything but
    [CacheError] has not reached the point where the cache is saved: it
    leaves the cache file as it found it, and the hashes the call has
    computed are not written. ([CacheError] is what loading and saving the
    cache file raise.) *)
Theorem failed_call_leaves_cache_file fp n_select cache_dir verbose n_jobs
    random_state w e w' :
  select_diverse_files fp n_select cache_dir verbose n_jobs random_state w
  = (Raise e, w') ->
  (forall msg, e <> CacheError msg) ->
  w_disk w' = w_disk w.
Proof.
  intros Hrun _. revert Hrun.
  unfold select_diverse_files.
  destruct (n_select <=? 0); [intros H; inversion H; reflexivity|].
  destruct (n_select >? len fp); [intros H; inversion H; reflexivity|].
  destruct (seed_generators random_state (w_rng w)) as [r0 g].
  destruct r0 as [[]|e0]; [|intros H; inversion H; reflexivity].
  cbn [w_disk set_rng].
  destruct (FileSelector_init cache_dir n_jobs verbose (w_disk w))
    as [selector|e0]; [|intros H; inversion H; reflexivity].
  destruct (select selector fp n_select (Some verbose) random_state
              (set_rng w g)) as [[r1 self1] w1] eqn:Esel.
  intros H; inversion H; subst r1 w1.
  apply select_Raise_disk in Esel. exact Esel.
Qed.

(** X15. A call of [select_diverse_files] with a cache directory that
    returns has written its candidates: [result.hashes] is given, the
    cache file can be opened afterwards, and a manager opened on it
    returns the hash of every candidate, as long as the files are
    unchanged. *)
Theorem successful_call_persists_candidates fp n_select d verbose n_jobs
    random_state w r w' :
  d <> "" ->
  select_diverse_files fp n_select (Some d) verbose n_jobs random_state w
  = (Ok r, w') ->
  exists hash_dict cm,
    hashes r = Some hash_dict /\
    CacheManager_init d pickle (w_disk w') = Ok cm /\
    forall p h, dict_get hash_dict p = Some h ->
                fst (get cm (w_fs w) p) = Ok (Some h).
Proof.
  intros Hd Hrun.
  assert (Ht : truthy (Some d) = true).
  { cbn [truthy]. destruct (String.eqb_spec d ""); [contradiction|reflexivity]. }
  apply select_diverse_files_Ok in Hrun
    as (_ & g & selector & self' & Hseed & Hinit & Hsel).
  apply FileSelector_init_Ok in Hinit as (Hcd & _ & Hcm).
  rewrite Ht in Hcm. destruct Hcm as (d' & cm0 & Ed & Hopen & Ecm0).
  inversion Ed; subst d'; clear Ed.
  destruct (init_in_sync _ _ _ _ Hopen) as (Hsync0 & Hdir0 & Hfmt0 & _).
  destruct (select_state _ _ _ _ _ _ _ _ _ Hsel)
    as (g1 & hd & self1 & w1 & _ & Hcl & _ & Hhashes & Hsave).
  pose proof (compute_or_load_post _ _ _ _ _ _ _ Hcl)
    as (_ & Hget & (_ & Hdk & _) & _ & (Hcd1 & _) & Hcm1).
  rewrite Ecm0 in Hcm1, Hget.
  destruct Hcm1 as (cm1 & Ecm1 & Hdir1 & Hfmt1 & Hcached & _).
  destruct (compute_or_load_in_sync selector cm0 fp verbose
              (set_rng (set_rng w g) g1) _ _ _ Ecm0 Hsync0 Hcl)
    as (cm1' & Ecm1' & Hsync1).
  rewrite Ecm1 in Ecm1'. inversion Ecm1'; subst cm1'; clear Ecm1'.
  rewrite Ecm1 in Hsave. destruct Hsave as (_ & Hdisk).
  rewrite Hcd1, Hcd, Ht in Hhashes.
  cbn [w_fs w_disk set_rng] in *.
  destruct (run_op_in_sync (w_fs w) OpSave (cm1, w_disk w1) Hsync1)
    as (Hsync2 & Hdir2 & Hfmt2).
  cbn [run_op fst] in Hsync2, Hdir2, Hfmt2.
  pose proof (save_cache_clean cm1 (w_disk w1)) as Hclean.
  pose proof (save_cache_entry cm1 (w_disk w1)) as (Hsame & _).
  unfold save in *.
  destruct (_save_cache cm1 (w_disk w1)) as [cm2 dk2].
  cbn [fst snd] in *. subst dk2.
  exists hd, cm2. split; [exact Hhashes|]. split.
  - rewrite <- Hdir0, <- Hdir1, <- Hdir2.
    replace pickle with (format cm2) by congruence.
    apply reopen_in_sync; assumption.
  - intros p h Hp. rewrite Hget in Hp.
    destruct (in_dec string_dec p fp) as [Hi|Hi]; [|discriminate].
    rewrite <- (Hcached p Hi) in Hp.
    rewrite (cached_hash_cache_eq cm1 cm2 (w_fs w) p (eq_sym Hsame)) in Hp.
    apply cached_hash_Some in Hp as [Hv He].
    rewrite get_value, Hv; [f_equal; exact He|].
    intros msg Hm. unfold entry_valid in Hv. rewrite Hm in Hv.
    destruct (dict_get (_cache cm2) p); discriminate.
Qed.

(* ---------------------------------------------------------------- *)
(** *** parallel.py: compute_distances_parallel *)

Lemma chunks_of_concat A size (l : list A) : forall fuel,
  (1 <= size)%nat -> (List.length l <= fuel)%nat ->
  List.concat (chunks_of fuel size l) = l.
Proof.
  intros fuel Hsize. revert l.
  induction fuel as [|fuel IH]; intros l Hlen.
  - destruct l; [reflexivity | cbn [List.length] in Hlen; lia].
  - destruct l as [|x l]; [reflexivity|].
    cbn [chunks_of List.concat]. rewrite IH.
    + apply firstn_skipn.
    + rewrite length_skipn. cbn [List.length] in *. lia.
Qed.

Lemma Permutation_concat A (l l' : list (list A)) :
  Permutation l l' -> Permutation (List.concat l) (List.concat l').
Proof.
  induction 1 as [|x l l' _ IH|x y l|l l' l'' _ IH1 _ IH2]; cbn [List.concat].
  - constructor.
  - apply Permutation_app_head. exact IH.
  - rewrite !app_assoc. apply Permutation_app_tail. apply Permutation_app_comm.
  - eapply Permutation_trans; eassumption.
Qed.

Lemma remove_nth_map A B (g : A -> B) l : forall i,
  remove_nth i (map g l) = map g (remove_nth i l).
Proof.
  induction l as [|x l IH]; intros [|i]; cbn [remove_nth map];
    try reflexivity.
  rewrite IH. reflexivity.
Qed.

Lemma complete_map A B (g : A -> B) fuel : forall choices l,
  complete fuel choices (map g l) = map g (complete fuel choices l).
Proof.
  induction fuel as [|fuel IH]; intros choices l; [reflexivity|].
  cbn [complete]. rewrite length_map, nth_error_map.
  destruct (nth_error l _) as [x|]; [|reflexivity].
  cbn [option_map map]. rewrite remove_nth_map, IH. reflexivity.
Qed.

Lemma complete_in_order A fuel : forall (l : list A),
  List.length l = fuel -> complete fuel [] l = l.
Proof.
  induction fuel as [|fuel IH]; intros l Hlen.
  - destruct l; [reflexivity | discriminate].
  - destruct l as [|x l]; [discriminate|].
    cbn [complete hd tl List.length]. rewrite Nat.Div0.mod_0_l.
    cbn [nth_error remove_nth]. rewrite IH; [reflexivity|].
    cbn [List.length] in Hlen. lia.
Qed.

Lemma worker_is_mapM current_hash hash_dict l : forall acc,
  foldM (fun distances candidate_path =>
           candidate_hash <- dict_getitem hash_dict candidate_path ;;
           Ok (distances ++ [tlsh_diff current_hash candidate_hash]))
        l acc
  = (ds <- mapM (fun path => h <- dict_getitem hash_dict path ;;
                             Ok (tlsh_diff current_hash h)) l ;;
     Ok (acc ++ ds)).
Proof.
  induction l as [|p l IH]; intros acc; cbn [foldM mapM bind].
  - rewrite app_nil_r. reflexivity.
  - destruct (dict_getitem hash_dict p) as [h|e]; cbn [bind]; [|reflexivity].
    rewrite IH. destruct (mapM _ l) as [ds|e]; cbn [bind]; [|reflexivity].
    rewrite <- app_assoc. reflexivity.
Qed.

Lemma mapM_app A B (f : A -> res B) l1 l2 :
  mapM f (l1 ++ l2)
  = (a <- mapM f l1 ;; b <- mapM f l2 ;; Ok (a ++ b)).
Proof.
  induction l1 as [|x l1 IH]; cbn [mapM app bind].
  - destruct (mapM f l2); reflexivity.
  - destruct (f x) as [y|e]; cbn [bind]; [|reflexivity].
    rewrite IH. destruct (mapM f l1) as [a|e]; cbn [bind]; [|reflexivity].
    destruct (mapM f l2); reflexivity.
Qed.

Lemma mapM_concat_Ok A B (f : A -> res B) chunks : forall ds,
  mapM f (List.concat chunks) = Ok ds ->
  exists dss, map (mapM f) chunks = map Ok dss /\ ds = List.concat dss.
Proof.
  induction chunks as [|c chunks IH]; intros ds H; cbn [List.concat] in H.
  - inversion H. exists []. split; reflexivity.
  - rewrite mapM_app in H.
    apply bind_Ok in H as (a & Ha & H).
    apply bind_Ok in H as (b & Hb & H). inversion H; subst ds.
    destruct (IH b Hb) as (dss & Hdss & ->).
    exists (a :: dss). cbn [map List.concat]. rewrite Ha, Hdss. split; reflexivity.
Qed.

Lemma mapM_KeyError current_hash hash_dict l e :
  mapM (fun path => h <- dict_getitem hash_dict path ;;
                    Ok (tlsh_diff current_hash h)) l = Raise e ->
  exists p, e = KeyError p /\ In p l /\ dict_get hash_dict p = None.
Proof.
  induction l as [|x l IH]; cbn [mapM]; [discriminate|].
  unfold dict_getitem at 1.
  destruct (dict_get hash_dict x) as [h|] eqn:Ex; cbn [bind].
  - destruct (mapM _ l) as [ds|e']; cbn [bind]; [discriminate|].
    intros H; inversion H; subst e'.
    destruct (IH eq_refl) as (p & Hp & Hin & Hnone).
    exists p. split; [exact Hp|]. split; [right; exact Hin | exact Hnone].
  - intros H; inversion H. exists x.
    split; [reflexivity|]. split; [left; reflexivity | exact Ex].
Qed.

Lemma extend_all_Ok A (dss : list (list A)) : forall acc,
  foldM (fun results future => distances <- future ;; Ok (results ++ distances))
        (map Ok dss) acc
  = Ok (acc ++ List.concat dss).
Proof.
  induction dss as [|d dss IH]; intros acc; cbn [map foldM List.concat bind].
  - rewrite app_nil_r. reflexivity.
  - rewrite IH, app_assoc. reflexivity.
Qed.

Lemma extend_Raise A (futures : list (res (list A))) : forall acc e,
  foldM (fun results future => distances <- future ;; Ok (results ++ distances))
        futures acc
  = Raise e ->
  In (Raise e) futures.
Proof.
  induction futures as [|fut futures IH]; intros acc e; cbn [foldM];
    [discriminate|].
  destruct fut as [d|e']; cbn [bind].
  - intros H. right. eapply IH; eassumption.
  - intros H; inversion H. left; reflexivity.
Qed.

Lemma extend_some_Raise A (futures : list (res (list A))) e0 : forall acc,
  In (Raise e0) futures ->
  exists e,
    foldM (fun results future => distances <- future ;; Ok (results ++ distances))
          futures acc
    = Raise e.
Proof.
  induction futures as [|fut futures IH]; intros acc Hin; [destruct Hin|].
  cbn [foldM]. destruct fut as [d|e']; cbn [bind]; [|eauto].
  destruct Hin as [Hin|Hin]; [discriminate|]. apply IH. exact Hin.
Qed.

(** The pool branch of [compute_distances_parallel], for a number of
    workers the pool accepts. *)
Lemma compute_distances_pool W (w : World W) current_hash candidate_paths
    hash_dict n_jobs :
  1000 <= len candidate_paths -> n_jobs <> 1 -> jobs_ok n_jobs = true ->
  exists chunks,
    List.concat chunks = candidate_paths /\
    compute_distances_parallel w current_hash candidate_paths hash_dict n_jobs
    = Done (foldM (fun results future =>
                     distances <- future ;; Ok (results ++ distances))
                  (as_completed (w_sched w)
                     (map (mapM (fun path =>
                                   h <- dict_getitem hash_dict path ;;
                                   Ok (tlsh_diff current_hash h)))
                          chunks))
                  []).
Proof.
  intros Hlen Hne Hjobs. unfold compute_distances_parallel.
  destruct (Z.ltb_spec (len candidate_paths) 1000) as [Hlt|_]; [lia|].
  destruct (Z.eqb_spec n_jobs 1) as [E|_]; [contradiction|].
  cbn [orb].
  set (nj := if n_jobs =? -1 then Z.pos (w_cpu_count w) else n_jobs).
  assert (Hnj : 0 < nj).
  { unfold nj, jobs_ok in *. destruct (Z.eqb_spec n_jobs (-1)); [lia|].
    cbn [orb] in Hjobs. apply Z.ltb_lt in Hjobs. exact Hjobs. }
  destruct (Z.eqb_spec nj 0) as [E|_]; [lia|].
  destruct (Z.leb_spec nj 0) as [E|_]; [lia|].
  set (size := Z.to_nat (Z.max 1 (len candidate_paths / nj))).
  exists (chunks_of (List.length candidate_paths) size candidate_paths).
  split; [apply chunks_of_concat; [unfold size; lia | apply le_n]|].
  f_equal. f_equal. f_equal.
  apply map_ext. intros chunk. unfold _compute_distances_worker.
  rewrite worker_is_mapM. destruct (mapM _ chunk); reflexivity.
Qed.

(** X16. With a number of workers the pool accepts,
    [compute_distances_parallel] returns a list exactly when the
    sequential computation ([n_jobs = 1]) does. The list has the same
    distances up to order: the chunks come back in completion order. It is
    the same list for fewer than 1000 candidates, and when the chunks
    complete in the order they were submitted. *)
Theorem parallel_distances_match_sequential W (w : World W) current_hash
    candidate_paths hash_dict n_jobs ds :
  jobs_ok n_jobs = true ->
  compute_distances_parallel w current_hash candidate_paths hash_dict 1
  = Done (Ok ds) ->
  exists ds',
    compute_distances_parallel w current_hash candidate_paths hash_dict n_jobs
    = Done (Ok ds') /\
    Permutation ds' ds /\
    (len candidate_paths < 1000 \/ w_sched w = [] -> ds' = ds).
Proof.
  intros Hjobs Hseq.
  destruct (Z.eq_dec n_jobs 1) as [->|Hne].
  { exists ds. split; [exact Hseq|]. split; [apply Permutation_refl | auto]. }
  destruct (Z.ltb_spec (len candidate_paths) 1000) as [Hlt|Hge].
  { exists ds. split; [|split; [apply Permutation_refl | auto]].
    unfold compute_distances_parallel in *.
    destruct (Z.ltb_spec (len candidate_paths) 1000) as [_|Hge]; [|lia].
    exact Hseq. }
  destruct (compute_distances_pool W w current_hash candidate_paths hash_dict
              n_jobs Hge Hne Hjobs) as (chunks & Hcat & ->).
  unfold compute_distances_parallel in Hseq.
  rewrite Z.eqb_refl, orb_true_r in Hseq. inversion Hseq as [Hseq'].
  rewrite <- Hcat in Hseq'.
  apply mapM_concat_Ok in Hseq' as (dss & -> & ->).
  unfold as_completed. rewrite length_map, complete_map.
  fold (as_completed (w_sched w) dss). rewrite extend_all_Ok. cbn [app].
  eexists. split; [reflexivity|]. split.
  - apply Permutation_concat. apply as_completed_perm.
  - intros [Hlt | Hs]; [lia|].
    unfold as_completed. rewrite Hs, complete_in_order; reflexivity.
Qed.

(** X17. The failures of [compute_distances_parallel]. A candidate
    without hash makes the call raise [KeyError] for such a candidate, in
    the pool as in the sequential branch. With 1000 candidates or more, a
    count of zero workers ends in the [ZeroDivisionError] of the chunk
    size, and a negative count other than -1 in the [ValueError] of the
    pool; with fewer candidates the count is not looked at. *)
Theorem compute_distances_parallel_failures W (w : World W) current_hash
    candidate_paths hash_dict n_jobs :
  (jobs_ok n_jobs = true ->
   (exists p, In p candidate_paths /\ dict_get hash_dict p = None) ->
   exists p,
     compute_distances_parallel w current_hash candidate_paths hash_dict n_jobs
     = Done (Raise (KeyError p)) /\
     In p candidate_paths /\ dict_get hash_dict p = None) /\
  (1000 <= len candidate_paths -> n_jobs = 0 ->
   compute_distances_parallel w current_hash candidate_paths hash_dict n_jobs
   = ZeroDivisionError) /\
  (1000 <= len candidate_paths -> n_jobs < -1 ->
   compute_distances_parallel w current_hash candidate_paths hash_dict n_jobs
   = Done (Raise (ValueError "max_workers must be greater than 0"))) /\
  (len candidate_paths < 1000 ->
   compute_distances_parallel w current_hash candidate_paths hash_dict n_jobs
   = compute_distances_parallel w current_hash candidate_paths hash_dict 1).
Proof.
  set (f := fun path => h <- dict_getitem hash_dict path ;;
                        Ok (tlsh_diff current_hash h)).
  assert (Hmissing : forall l p, In p l -> dict_get hash_dict p = None ->
                       exists e, mapM f l = Raise e).
  { induction l as [|x l IH]; intros p Hin Hp; [destruct Hin|].
    cbn [mapM]. unfold f at 1, dict_getitem.
    destruct (dict_get hash_dict x) as [h|] eqn:Ex; cbn [bind]; [|eauto].
    destruct Hin as [->|Hin]; [congruence|].
    destruct (IH p Hin Hp) as (e & ->). cbn [bind]. eauto. }
  split; [|split; [|split]].
  - intros Hjobs (p0 & Hin0 & Hp0).
    assert (Hseq : (len candidate_paths <? 1000) || (n_jobs =? 1) = true ->
              exists p,
                compute_distances_parallel w current_hash candidate_paths
                  hash_dict n_jobs = Done (Raise (KeyError p)) /\
                In p candidate_paths /\ dict_get hash_dict p = None).
    { intros Hb. unfold compute_distances_parallel. rewrite Hb. fold f.
      destruct (Hmissing _ _ Hin0 Hp0) as (e & He). rewrite He.
      apply mapM_KeyError in He as (p & -> & Hin & Hp). eauto. }
    destruct ((len candidate_paths <? 1000) || (n_jobs =? 1)) eqn:Hb;
      [apply Hseq; reflexivity|].
    apply orb_false_iff in Hb as [Hlen Hne].
    apply Z.ltb_ge in Hlen. apply Z.eqb_neq in Hne.
    destruct (compute_distances_pool W w current_hash candidate_paths hash_dict
                n_jobs Hlen Hne Hjobs) as (chunks & Hcat & ->).
    fold f.
    assert (Hbad : exists e, In (Raise e)
                     (as_completed (w_sched w) (map (mapM f) chunks))).
    { rewrite <- Hcat in Hin0. apply in_concat in Hin0 as (c & Hc & Hin0).
      destruct (Hmissing _ _ Hin0 Hp0) as (e & He). exists e.
      eapply Permutation_in;
        [apply Permutation_sym; apply as_completed_perm|].
      rewrite <- He. apply in_map. exact Hc. }
    destruct Hbad as (e0 & Hbad).
    destruct (extend_some_Raise _ _ e0 [] Hbad) as (e & He).
    rewrite He.
    apply extend_Raise in He.
    apply (Permutation_in _ (as_completed_perm _ _ _)) in He.
    apply in_map_iff in He as (c & He & Hc).
    apply mapM_KeyError in He as (p & -> & Hin & Hp).
    exists p. split; [reflexivity|]. split; [|exact Hp].
    rewrite <- Hcat. apply in_concat. eauto.
  - intros Hlen ->. unfold compute_distances_parallel.
    destruct (Z.ltb_spec (len candidate_paths) 1000); [lia | reflexivity].
  - intros Hlen Hneg. unfold compute_distances_parallel.
    destruct (Z.ltb_spec (len candidate_paths) 1000); [lia|].
    destruct (Z.eqb_spec n_jobs 1); [lia|]. cbn [orb].
    destruct (Z.eqb_spec n_jobs (-1)); [lia|].
    destruct (Z.eqb_spec n_jobs 0); [lia|].
    destruct (Z.leb_spec n_jobs 0); [reflexivity | lia].
  - intros Hlen. unfold compute_distances_parallel.
    destruct (Z.ltb_spec (len candidate_paths) 1000); [reflexivity | lia].
Qed.

(* ---------------------------------------------------------------- *)
(** *** parallel.py: the order of the hashes *)

Lemma dict_In_get V (d : dict V) k v :
  dict_get d k = Some v -> In (k, v) d.
Proof.
  induction d as [|[k' v'] d IH]; cbn [dict_get]; [discriminate|].
  destruct (String.eqb_spec k' k) as [->|Hne].
  - intros H; inversion H. left; reflexivity.
  - intros H. right. apply IH. exact H.
Qed.

Lemma NoDup_keys_NoDup V (d : dict V) : NoDup (dict_keys d) -> NoDup d.
Proof.
  induction d as [|[k v] d IH]; intros H; [constructor|].
  cbn [dict_keys map fst] in H. inversion H as [|? ? Hnot Hnd]; subst.
  constructor; [|apply IH; exact Hnd].
  intros Hin. apply Hnot. unfold dict_keys.
  change k with (fst (k, v)). apply in_map. exact Hin.
Qed.

Lemma same_mapping_Permutation V (d d' : dict V) :
  NoDup (dict_keys d) -> NoDup (dict_keys d') ->
  (forall p, dict_get d p = dict_get d' p) ->
  Permutation d d'.
Proof.
  intros Hnd Hnd' Hget.
  apply NoDup_Permutation; [apply NoDup_keys_NoDup; exact Hnd
                           |apply NoDup_keys_NoDup; exact Hnd'|].
  intros [k v]. split; intros Hin.
  - apply dict_In_get. rewrite <- Hget. apply dict_get_In; assumption.
  - apply dict_In_get. rewrite Hget. apply dict_get_In; assumption.
Qed.

Lemma fold_workers fs fps : forall acc,
  fold_left
    (fun results (future : string * option string) =>
       let '(file_path, hash_value) := future in
       match hash_value with
       | Some h => dict_set results file_path h
       | None => results
       end)
    (map (_compute_hash_worker fs) fps) acc
  = fold_left
      (fun results file_path =>
         match compute_tlsh_hash fs file_path with
         | Ok hash_value => dict_set results file_path hash_value
         | Raise _ => results
         end)
      fps acc.
Proof.
  induction fps as [|p fps IH]; intros acc; [reflexivity|].
  cbn [map fold_left]. rewrite <- IH. unfold _compute_hash_worker at 2.
  destruct (compute_tlsh_hash fs p); reflexivity.
Qed.

(** X18. For a number of workers the pool accepts, the pool and the
    sequential loop of [compute_hashes_parallel] return the same entries.
    Their order may differ: the pool inserts in completion order. When the
    futures complete in the order they were submitted, the two
    dictionaries are equal, order included. *)
Theorem pool_hashes_match_sequential W (w : World W) file_paths n_jobs verbose :
  jobs_ok n_jobs = true ->
  exists results sequential,
    compute_hashes_parallel w file_paths n_jobs verbose = Ok results /\
    compute_hashes_parallel w file_paths 1 verbose = Ok sequential /\
    Permutation results sequential /\
    (w_sched w = [] -> results = sequential).
Proof.
  intros Hjobs.
  pose proof (compute_hashes_parallel_spec W w file_paths n_jobs verbose)
    as Hpool.
  unfold jobs_ok in Hjobs. rewrite Hjobs in Hpool.
  destruct Hpool as (d & Hd & Hnd & Hget).
  pose proof (compute_hashes_parallel_spec W w file_paths 1 verbose) as Hseq.
  cbn [Z.eqb Z.ltb Z.compare orb] in Hseq.
  destruct Hseq as (d1 & Hd1 & Hnd1 & Hget1).
  exists d, d1. split; [exact Hd|]. split; [exact Hd1|]. split.
  - apply same_mapping_Permutation; [exact Hnd | exact Hnd1|].
    intros p. rewrite Hget, Hget1. reflexivity.
  - intros Hs. unfold compute_hashes_parallel in Hd, Hd1.
    cbn [Z.eqb Pos.eqb] in Hd1.
    destruct ((if n_jobs =? -1 then Z.pos (w_cpu_count w) else n_jobs) =? 1);
      [congruence|].
    destruct ((if n_jobs =? -1 then Z.pos (w_cpu_count w) else n_jobs) <=? 0);
      [discriminate|].
    unfold as_completed in Hd.
    rewrite Hs, complete_in_order, fold_workers in Hd by reflexivity.
    congruence.
Qed.

(* ---------------------------------------------------------------- *)
(** *** selector.py: a cache file that cannot be read *)

(** X19. With a valid count and seed, a cache file that cannot be loaded
    makes [select_diverse_files] raise [CacheError] when the selector is
    created: no file is hashed, nothing is logged or written, and only the
    generator has changed, being seeded already. Without a cache directory
    the file is not looked at. *)
Theorem unreadable_cache_fails_before_hashing fp n_select d verbose n_jobs
    random_state w g msg :
  0 < n_select <= len fp ->
  d <> "" ->
  seed_generators random_state (w_rng w) = (Ok tt, g) ->
  w_disk w (cache_file (mkCacheManager d pickle [] false)) = Corrupt msg ->
  exists m,
    select_diverse_files fp n_select (Some d) verbose n_jobs random_state w
    = (Raise (CacheError m), set_rng w g).
Proof.
  intros Hk Hd Hseed Hbad. unfold select_diverse_files.
  destruct (Z.leb_spec n_select 0) as [H0|_]; [lia|].
  rewrite Z.gtb_ltb. destruct (Z.ltb_spec (len fp) n_select) as [H1|_]; [lia|].
  rewrite Hseed. cbn [w_disk set_rng].
  unfold FileSelector_init. cbn [truthy].
  destruct (String.eqb_spec d "") as [E|_]; [contradiction|]. cbn [negb].
  unfold CacheManager_init, _load_cache. rewrite Hbad. cbn [bind].
  eexists. reflexivity.
Qed.

End Model.

(* ================================================================== *)
(** ** The model on the small instance *)
(* ================================================================== *)

Local Abbreviation toy_greedy :=
  (_greedy_selection Toy.diff Z Toy.randint Toy.empty_range).
Local Abbreviation toy_select :=
  (select Toy.hash Toy.diff Z Toy.seed Toy.randint Toy.empty_range).
Local Abbreviation toy_select_diverse_files :=
  (select_diverse_files Toy.hash Toy.diff Z Toy.seed Toy.randint
     Toy.empty_range).
Local Abbreviation toy_candidates_of := (candidates_of Toy.hash Z).

Lemma toy_diff_nonneg a b : 0 <= Toy.diff a b.
Proof. unfold Toy.diff. lia. Qed.

Lemma toy_dist i j :
  (i < 10)%nat -> (j < 10)%nat ->
  dist Toy.diff Toy.hashes10 Toy.paths10 i j
  = Fin (Z.abs (Z.of_nat i - Z.of_nat j)).
Proof.
  intros Hi Hj.
  do 10 (destruct i as [|i]; [do 10 (destruct j as [|j]; [reflexivity|]); lia|]).
  lia.
Qed.

Lemma toy_diff24_bounds a b : 0 <= ToyCache.diff24 a b <= 2 ^ 24.
Proof. unfold ToyCache.diff24, Toy.diff. lia. Qed.

(** C1. In every round of a returned greedy selection the pick is, among
    the candidates not yet selected, one of maximal minimum distance to the
    selected ones, and the first of those in the list the selection is
    given; its score is that distance, and no other candidate qualifies
    (for scores up to [2^24], which the [float32] array holds exactly). On
    ten candidates at distance [|i - j|] of one another, with first pick 0,
    the picks are 0, 9, 4 and the scores [inf, 9, 4].

    The list the selection is given is the list of candidates, in the order
    of [hash_dict], not the input list: identifiers found in the cache come
    first. So a tie does not always go to the lower index of the input.
    Here an earlier call on [f8] alone has left a cache that holds [f8]; on
    the input [f0, f4, f8] the candidates are then [f8, f0, f4], and once
    [f4] is picked, [f0] (input index 0) and [f8] (input index 2) tie at
    distance 4: the pick is [f8], index 2. Without cache the candidates are
    [f0, f4, f8] and the same tie after [f4] goes to [f0], index 0. *)
Theorem tie_goes_to_first_candidate_not_lower_index :
  (forall (tlsh_diff : string -> string -> Z) (G : Type)
          (random_randint : G -> Z -> Z -> Z * G)
          (random_empty_range : Z -> Z -> string),
      (forall a b, 0 <= tlsh_diff a b <= 2 ^ 24) ->
      forall self fp k verbose g sel sc g',
        _greedy_selection tlsh_diff G random_randint random_empty_range
          self fp k verbose g
        = (Ok (sel, sc), g') ->
        forall t, (1 <= t < List.length sel)%nat ->
          is_pick tlsh_diff (_hash_dict self) fp
                  (firstn t sel) (nth t sel O) (nth t sc PosInf)) /\
  (forall (tlsh_diff : string -> string -> Z) hd fp sel p sc p' sc',
      is_pick tlsh_diff hd fp sel p sc ->
      is_pick tlsh_diff hd fp sel p' sc' -> p = p' /\ sc = sc') /\
  (forall i j, (i < 10)%nat -> (j < 10)%nat ->
     dist Toy.diff Toy.hashes10 Toy.paths10 i j
     = Fin (Z.abs (Z.of_nat i - Z.of_nat j))) /\
  toy_greedy Toy.selector10 Toy.paths10 3 false (Toy.seed 0)
  = (Ok ([0; 9; 4]%nat, [PosInf; Fin 9; Fin 4]), 1) /\
  (let w0 := snd (toy_select_diverse_files ["f8"] 1 (Some "/c") false 1 None
                    (Toy.world10 7)) in
   toy_candidates_of (Some "/c") 1 false ["f0"; "f4"; "f8"] w0
   = Ok [("f8", "aaaaaaaaa"); ("f0", "a"); ("f4", "aaaaa")] /\
   picks (fst (toy_select_diverse_files ["f0"; "f4"; "f8"] 2 (Some "/c")
                 false 1 (Some 2) w0))
   = Ok ([1; 2]%nat, ["f4"; "f8"], Some [PosInf; Fin 4]) /\
   toy_candidates_of None 1 false ["f0"; "f4"; "f8"] (Toy.world10 7)
   = Ok [("f0", "a"); ("f4", "aaaaa"); ("f8", "aaaaaaaaa")] /\
   picks (fst (toy_select_diverse_files ["f0"; "f4"; "f8"] 2 None
                 false 1 (Some 1) (Toy.world10 7)))
   = Ok ([1; 0]%nat, ["f4"; "f0"], Some [PosInf; Fin 4])).
Proof.
  split; [|split; [|split; [|split]]].
  - intros tlsh_diff G random_randint random_empty_range Hbounds
           self fp k verbose g sel sc g'.
    apply greedy_selection_picks. intros a b. apply Hbounds.
  - exact is_pick_unique.
  - exact toy_dist.
  - vm_compute. reflexivity.
  - cbv zeta. repeat split; vm_compute; reflexivity.
Qed.

Lemma tie_goes_to_first_candidate_not_lower_index_witness :
  is_pick ToyCache.diff24 Toy.hashes10 Toy.paths10 [0; 9]%nat 4%nat (Fin 4).
Proof.
  exact (proj1 tie_goes_to_first_candidate_not_lower_index
           ToyCache.diff24 Z Toy.randint Toy.empty_range toy_diff24_bounds
           Toy.selector10 Toy.paths10 3 false (Toy.seed 0)
           [0; 9; 4]%nat [PosInf; Fin 9; Fin 4] 1
           ltac:(vm_compute; reflexivity)
           2%nat (conj (le_S _ _ (le_n 1)) (le_n 3))).
Defined.

Lemma diversity_scores_non_increasing_witness :
  exists r self' w',
    toy_select Toy.fresh_selector Toy.paths10 5 None (Some 3) (Toy.world10 7)
    = (Ok r, self', w') /\
    exists first rest,
      diversity_scores r = Some (first :: rest) /\ non_increasing rest.
Proof.
  eexists _, _, _. split; [vm_compute; reflexivity|].
  eapply (diversity_scores_non_increasing
            Toy.hash Toy.diff Z Toy.seed Toy.randint Toy.empty_range toy_diff_nonneg
            Toy.fresh_selector Toy.paths10 5 None (Some 3) (Toy.world10 7)).
  vm_compute. reflexivity.
Defined.

Lemma first_score_is_sentinel_witness :
  exists r self' w',
    toy_select Toy.fresh_selector Toy.paths10 5 None (Some 3) (Toy.world10 7)
    = (Ok r, self', w') /\
    exists rest, diversity_scores r = Some (PosInf :: rest).
Proof.
  eexists _, _, _. split; [vm_compute; reflexivity|].
  eapply (first_score_is_sentinel
            Toy.hash Toy.diff Z Toy.seed Toy.randint Toy.empty_range
            Toy.fresh_selector Toy.paths10 5 None (Some 3) (Toy.world10 7)).
  vm_compute. reflexivity.
Defined.

(** C3. Two calls of [select_diverse_files] with the same list, count, cache
    directory and seed, on the same files, need not return the same picks.
    The candidates are enumerated in the insertion order of [hash_dict]:
    identifiers found in the cache first, computed ones after them, and
    with a worker pool in the order the workers complete. Here an earlier
    call on [f9] alone has left a cache that holds [f9]; the first call on
    the ten files then enumerates [f9, f0, ..., f8], writes the other nine
    to the cache, and the second call enumerates [f0, ..., f9]: whatever
    index the seeded generator draws, the two calls start from different
    files; with seed 0 they return 9, 0, 4 and 0, 9, 4. Without cache, a
    pool of three workers that completes its third task first makes the
    picks 2, 9, 5 instead of 0, 9, 4. *)
Theorem seeded_calls_differ_with_candidate_order :
  let w0 := snd (toy_select_diverse_files ["f9"] 1 (Some "/c") false 1 None
                   (Toy.world10 7)) in
  let call := toy_select_diverse_files Toy.paths10 3 (Some "/c") false 1 in
  toy_candidates_of (Some "/c") 1 false Toy.paths10 w0
  = Ok (("f9", "aaaaaaaaaa") :: firstn 9 Toy.hashes10) /\
  toy_candidates_of (Some "/c") 1 false Toy.paths10 (snd (call (Some 0) w0))
  = Ok Toy.hashes10 /\
  picks (fst (call (Some 0) w0))
  = Ok ([9; 0; 4]%nat, ["f9"; "f0"; "f4"], Some [PosInf; Fin 9; Fin 4]) /\
  picks (fst (call (Some 0) (snd (call (Some 0) w0))))
  = Ok ([0; 9; 4]%nat, ["f0"; "f9"; "f4"], Some [PosInf; Fin 9; Fin 4]) /\
  Forall (fun s => picks (fst (call (Some s) w0))
                   <> picks (fst (call (Some s) (snd (call (Some s) w0)))))
         [0; 1; 2; 3; 4; 5; 6; 7; 8; 9] /\
  picks (fst (toy_select_diverse_files Toy.paths10 3 None false 3 (Some 0)
                (Toy.world10 7)))
  = Ok ([0; 9; 4]%nat, ["f0"; "f9"; "f4"], Some [PosInf; Fin 9; Fin 4]) /\
  picks (fst (toy_select_diverse_files Toy.paths10 3 None false 3 (Some 0)
                Toy.world10_sched))
  = Ok ([2; 9; 5]%nat, ["f2"; "f9"; "f5"], Some [PosInf; Fin 7; Fin 3]).
Proof.
  cbv zeta.
  split; [vm_compute; reflexivity|].
  split; [vm_compute; reflexivity|].
  split; [vm_compute; reflexivity|].
  split; [vm_compute; reflexivity|].
  split; [|split; vm_compute; reflexivity].
  repeat constructor; intros H; vm_compute in H; discriminate H.
Qed.

(** The same seed on the same candidates: sequential without cache in one
    state, with an empty cache and progress display in another. *)
Example same_candidates_same_seed_same_picks_run :
  picks (fst (toy_select_diverse_files Toy.paths10 4 None false 1 (Some 13)
                (Toy.world10 7)))
  = picks (fst (toy_select_diverse_files Toy.paths10 4 (Some "/c") true 1
                  (Some 13) Toy.world10')).
Proof.
  apply (same_candidates_same_seed_same_picks
           Toy.hash Toy.diff Z Toy.seed Toy.randint Toy.empty_range Toy.paths10 4 13
           None false 1 (Toy.world10 7) (Some "/c") true 1 Toy.world10'
           Toy.hashes10); vm_compute; reflexivity.
Qed.



Lemma select_diverse_files_fails_fast_witness :
  (exists msg,
     toy_select_diverse_files Toy.paths10 11 None false 1 (Some 0)
       (Toy.world10 7) = (Raise (ValueError msg), Toy.world10 7)) /\
  (exists msg w',
     toy_select_diverse_files ["f1"; "missing"; "f1"] 2 None false 1 (Some 5)
       (Toy.world10 7) = (Raise (InsufficientFilesError msg), w') /\
     (exists pre mid post,
        msg = (pre ++ str_int 1 ++ mid ++ str_int 2 ++ post)%string) /\
     w_rng w' = 5 /\
     (forall c n, In (EvGreedy c n) (w_log w') -> In (EvGreedy c n) [])).
Proof.
  split.
  - apply (proj1 (select_diverse_files_fails_fast
                    Toy.hash Toy.diff Z Toy.seed Toy.randint Toy.empty_range
                    Toy.paths10 11 None false 1 (Some 0) (Toy.world10 7))).
    right. vm_compute. reflexivity.
  - apply (proj2 (select_diverse_files_fails_fast
                    Toy.hash Toy.diff Z Toy.seed Toy.randint Toy.empty_range
                    ["f1"; "missing"; "f1"] 2 None false 1 (Some 5)
                    (Toy.world10 7)) 5 [("f1", "aa")]).
    + vm_compute. split; [reflexivity | discriminate].
    + vm_compute. reflexivity.
    + vm_compute. reflexivity.
    + vm_compute. reflexivity.
Defined.

Lemma selection_returns_k_distinct_indices_witness :
  (exists r w',
     toy_select_diverse_files Toy.paths10 4 (Some "/c") false 3 (Some 13)
       (Toy.world10 7) = (Ok r, w') /\
     List.length (indices r) = 4%nat /\
     NoDup (indices r) /\
     (forall i, In i (indices r) -> (i < 10)%nat)) /\
  (exists r w',
     toy_select_diverse_files Toy.paths_same 3 None false 1 (Some 2)
       Toy.world_same = (Ok r, w') /\
     List.length (indices r) = 3%nat /\
     NoDup (indices r) /\
     diversity_scores r = Some [PosInf; Fin 0; Fin 0]).
Proof.
  split.
  - eexists _, _. split; [vm_compute; reflexivity|].
    pose proof (selection_returns_k_distinct_indices
                  Toy.hash Toy.diff Z Toy.seed Toy.randint Toy.empty_range toy_diff_nonneg
                  Toy.paths10 4 (Some "/c") false 3 (Some 13) (Toy.world10 7)
                  _ _ ltac:(vm_compute; reflexivity)) as (H1 & H2 & H3 & _).
    exact (conj H1 (conj H2 H3)).
  - eexists _, _. split; [vm_compute; reflexivity|].
    pose proof (selection_returns_k_distinct_indices
                  Toy.hash Toy.diff Z Toy.seed Toy.randint Toy.empty_range toy_diff_nonneg
                  Toy.paths_same 3 None false 1 (Some 2) Toy.world_same
                  _ _ ltac:(vm_compute; reflexivity)) as (H1 & H2 & _ & H4).
    split; [exact H1|]. split; [exact H2|].
    apply (H4 [("a", "aa"); ("b", "aa"); ("c", "aa"); ("d", "aa")]);
      [vm_compute; reflexivity|].
    intros p q h1 h2 Hp Hq.
    assert (Hall : forall x h,
               dict_get [("a", "aa"); ("b", "aa"); ("c", "aa"); ("d", "aa")] x
               = Some h -> h = "aa").
    { intros x h Hx. cbn [dict_get] in Hx.
      repeat match type of Hx with
             | context [String.eqb ?k x] => destruct (String.eqb k x)
             end; congruence. }
    rewrite (Hall p h1 Hp), (Hall q h2 Hq). reflexivity.
Defined.

Lemma cache_round_trip_witness :
  fst (get (snd (set Toy.manager0 Toy.fs10 "f4" "aaaaa")) Toy.fs10_later "f4")
  = Ok (Some "aaaaa") /\
  fst (get (snd (set Toy.manager0 Toy.fs10 "f1" "aa")) Toy.fs10_later "f1")
  = Ok None /\
  fst (get (snd (set Toy.manager0 Toy.fs10 "f2" "aaa")) Toy.fs10_later "f2")
  = Ok None /\
  fst (get (snd (set Toy.manager0 Toy.fs10 "f3" "aaaa")) Toy.fs10_later "f3")
  = Ok None /\
  fst (get (snd (set Toy.manager0 ToyCache.fs_before "d/f" "aaaaa"))
           ToyCache.fs_blocked "d/f")
  = Raise (OSError "[Errno 20] Not a directory: 'd/f'").
Proof.
  split; [|split; [|split; [|split]]].
  - apply (proj1 (cache_round_trip Toy.manager0 Toy.fs10 Toy.fs10_later
                                   "f4" "aaaaa")
                 (Toy.file_of_size 5 100) (Toy.file_of_size 5 100));
      reflexivity.
  - apply (proj1 (proj2 (cache_round_trip Toy.manager0 Toy.fs10
                                          Toy.fs10_later "f1" "aa"))
                 (Toy.file_of_size 2 100) (Toy.file_of_size 2 200));
      try reflexivity.
    left. discriminate.
  - apply (proj1 (proj2 (cache_round_trip Toy.manager0 Toy.fs10
                                          Toy.fs10_later "f2" "aaa"))
                 (Toy.file_of_size 3 100) (Toy.file_of_size 7 100));
      try reflexivity.
    right. discriminate.
  - apply (proj1 (proj2 (proj2 (cache_round_trip Toy.manager0 Toy.fs10
                                                 Toy.fs10_later "f3" "aaaa")))).
    reflexivity.
  - apply (proj2 (proj2 (proj2 (cache_round_trip
                                  Toy.manager0 ToyCache.fs_before
                                  ToyCache.fs_blocked "d/f" "aaaaa")))
                 (Toy.file_of_size 5 100));
      reflexivity.
Defined.

Lemma cache_lookups_are_pure_reads_witness :
  let stale := mkEntry "aa" 100 2 in
  let self := snd (set Toy.manager0 Toy.fs10 "f1" "aa") in
  let ops := [(Toy.fs10_later, OpGet "f1"); (Toy.fs10_later, OpGetAll);
              (Toy.fs10_later, OpSet "f2" "aaaaaaa"); (Toy.fs10_later, OpSave);
              (Toy.fs10_later, OpGet "f1")] in
  fst (get self Toy.fs10_later "f1") = Ok None /\
  dict_get (_cache (fst (run_ops ops (self, Toy.no_disk)))) "f1" = Some stale.
Proof.
  cbv zeta. split; [reflexivity|].
  apply (proj2 (proj2 (cache_lookups_are_pure_reads
                         (snd (set Toy.manager0 Toy.fs10 "f1" "aa"))
                         Toy.no_disk Toy.fs10 "f1"))); reflexivity.
Defined.

(** A file that cannot be hashed is left out, in either mode: [missing]
    does not exist. The pool returns the hashes in completion order. *)
Example compute_hashes_parallel_run :
  compute_hashes_parallel Toy.hash (Toy.world10 7)
    ["f1"; "missing"; "f3"; "f1"] 1 false
  = Ok [("f1", "aa"); ("f3", "aaaa")] /\
  compute_hashes_parallel Toy.hash Toy.world10_sched
    ["f1"; "missing"; "f3"; "f1"] (-1) false
  = Ok [("f3", "aaaa"); ("f1", "aa")] /\
  compute_hashes_parallel Toy.hash (Toy.world10 7) ["f1"] 0 false
  = Raise (ValueError "max_workers must be greater than 0").
Proof. repeat split; vm_compute; reflexivity. Qed.

(* ================================================================== *)
(** ** The further properties on the small instance *)
(* ================================================================== *)

Local Abbreviation toy_compute_or_load := (_compute_or_load_hashes Toy.hash Z).
Local Abbreviation toy_compute_hashes := (compute_hashes Toy.hash Z).
Local Abbreviation toy_distances := (@compute_distances_parallel Toy.diff Z).

Lemma lookup_reachable files p : reachable (lookup files) p.
Proof. intros msg. unfold lookup. destruct (dict_get files p); discriminate. Qed.

Lemma saved_cache_reopens_equal_witness :
  let ops := [(Toy.fs10, OpSet "f1" "aa"); (Toy.fs10, OpGet "f1");
              (Toy.fs10_later, OpSet "f2" "aaaaaaa");
              (Toy.fs10_later, OpGetAll)] in
  in_sync (run_ops ops (Toy.manager0, Toy.no_disk)) /\
  (let '(cm1, dk1) := run_ops ops (Toy.manager0, Toy.no_disk) in
   CacheManager_init "/c" pickle (snd (save cm1 dk1)) = Ok (fst (save cm1 dk1)) /\
   _cache (fst (save cm1 dk1)) = _cache cm1 /\
   CacheManager_init "/c" pickle (snd (__exit__ (__enter__ cm1) dk1))
   = Ok (fst (__exit__ (__enter__ cm1) dk1)) /\
   _cache (fst (__exit__ (__enter__ cm1) dk1)) = _cache cm1).
Proof.
  exact (saved_cache_reopens_equal "/c" pickle Toy.no_disk Toy.manager0
           [(Toy.fs10, OpSet "f1" "aa"); (Toy.fs10, OpGet "f1");
            (Toy.fs10_later, OpSet "f2" "aaaaaaa");
            (Toy.fs10_later, OpGetAll)]
           eq_refl).
Defined.

Lemma cached_hash_survives_reopening_witness :
  exists cm2,
    CacheManager_init "/c" pickle
      (snd (save (snd (set Toy.manager0 Toy.fs10 "f4" "aaaaa")) Toy.no_disk))
    = Ok cm2 /\
    fst (get cm2 Toy.fs10_later "f4") = Ok (Some "aaaaa").
Proof.
  apply (cached_hash_survives_reopening "/c" pickle Toy.no_disk Toy.manager0
           Toy.fs10 Toy.fs10_later "f4" "aaaaa"
           (Toy.file_of_size 5 100) (Toy.file_of_size 5 100));
    reflexivity.
Defined.

Lemma compute_or_load_hashes_mapping_witness :
  exists hash_dict self' w',
    toy_compute_or_load ToyCache.cached_selector ToyCache.some_paths false
      Toy.world10_sched
    = (Ok hash_dict, self', w') /\
    NoDup (dict_keys hash_dict) /\
    forall p,
      dict_get hash_dict p
      = if in_dec string_dec p ToyCache.some_paths
        then hash_for Toy.hash (Some ToyCache.warm_manager) Toy.fs10 p
        else None.
Proof.
  apply (proj1 (compute_or_load_hashes_mapping Toy.hash Z
                  ToyCache.cached_selector ToyCache.some_paths false
                  Toy.world10_sched));
    [reflexivity|].
  intros p _ _. apply lookup_reachable.
Defined.

Lemma compute_hashes_again_uses_cache_witness :
  exists hash_dict self1 w1,
    toy_compute_hashes ToyCache.cached_selector ToyCache.some_paths None
      (Toy.world10 7)
    = (Ok hash_dict, self1, w1) /\
    exists hash_dict2 self2 w3,
      toy_compute_hashes self1 ToyCache.some_paths (Some true)
        Toy.world10_sched
      = (Ok hash_dict2, self2, w3) /\
      (forall p, dict_get hash_dict2 p = dict_get hash_dict p) /\
      w_disk w3 = w_disk Toy.world10_sched /\
      (w_log w3 = w_log Toy.world10_sched \/
       exists files_to_compute,
         w_log w3 = w_log Toy.world10_sched
                    ++ [EvComputeHashes files_to_compute] /\
         forall p, In p files_to_compute ->
                   In p ToyCache.some_paths /\ dict_get hash_dict p = None).
Proof.
  eexists _, _, _. split; [vm_compute; reflexivity|].
  eapply (compute_hashes_again_uses_cache Toy.hash Z ToyCache.cached_selector
            ToyCache.warm_manager ToyCache.some_paths None (Some true)
            (Toy.world10 7) _ _ _ Toy.world10_sched);
    [reflexivity | reflexivity | vm_compute; reflexivity | reflexivity].
Defined.

Lemma get_cached_hashes_after_compute_hashes_witness :
  exists hash_dict self1 w1,
    toy_compute_hashes ToyCache.cached_selector ToyCache.some_paths None
      (Toy.world10 7)
    = (Ok hash_dict, self1, w1) /\
    exists cached self2,
      get_cached_hashes self1 Toy.fs10 = (Ok cached, self2) /\
      forall p h, dict_get hash_dict p = Some h -> dict_get cached p = Some h.
Proof.
  eexists _, _, _. split; [vm_compute; reflexivity|].
  refine (proj1 (get_cached_hashes_after_compute_hashes Toy.hash Z
                   ToyCache.cached_selector ToyCache.warm_manager
                   ToyCache.some_paths None (Toy.world10 7) _ _ _
                   eq_refl eq_refl _ _) _).
  - unfold store_wf. vm_compute.
    repeat constructor; cbn [In]; intros H;
      repeat (destruct H as [H|H]; [discriminate|]); exact H.
  - vm_compute. reflexivity.
  - intros p _. apply lookup_reachable.
Defined.

Lemma greedy_selection_count_witness :
  exists sel sc,
    fst (toy_greedy Toy.selector10 Toy.paths10 0 false 3) = Ok (sel, sc) /\
    Z.of_nat (List.length sel) = Z.min (Z.max 0 1) (len Toy.paths10) /\
    List.length sc = List.length sel /\
    NoDup sel /\
    forall i, In i sel -> (i < List.length Toy.paths10)%nat.
Proof.
  eexists _, _. split; [vm_compute; reflexivity|].
  apply (proj2 (greedy_selection_count Toy.diff Z Toy.randint Toy.empty_range
                  toy_diff_nonneg Toy.selector10 Toy.paths10 0 false 3)).
  vm_compute. reflexivity.
Defined.

Lemma select_nonpositive_count_selects_one_witness :
  exists r self' w',
    toy_select Toy.fresh_selector Toy.paths10 (-2) None (Some 3)
      (Toy.world10 7)
    = (Ok r, self', w') /\
    List.length (indices r) = 1%nat /\
    List.length (file_paths r) = 1%nat /\
    diversity_scores r = Some [PosInf].
Proof.
  eexists _, _, _. split; [vm_compute; reflexivity|].
  eapply (select_nonpositive_count_selects_one Toy.hash Toy.diff Z Toy.seed
            Toy.randint Toy.empty_range toy_diff_nonneg Toy.fresh_selector Toy.paths10 (-2)
            None (Some 3) (Toy.world10 7));
    [vm_compute; discriminate | vm_compute; reflexivity].
Defined.

Lemma select_all_is_permutation_witness :
  exists r self' w',
    toy_select Toy.fresh_selector ["f5"; "missing"; "f1"; "f3"; "f5"] 3 None
      (Some 4) (Toy.world10 7)
    = (Ok r, self', w') /\
    Permutation (file_paths r) (dict_keys (_hash_dict self')).
Proof.
  eexists _, _, _. split; [vm_compute; reflexivity|].
  eapply (proj2 (select_all_is_permutation Toy.hash Toy.diff Z Toy.seed
                   Toy.randint Toy.empty_range toy_diff_nonneg Toy.fresh_selector
                   ["f5"; "missing"; "f1"; "f3"; "f5"] 3 None (Some 4)
                   (Toy.world10 7) _ _ _ ltac:(vm_compute; reflexivity)));
    vm_compute; reflexivity.
Defined.

Lemma failed_call_leaves_cache_file_witness :
  exists msg w',
    toy_select_diverse_files ["f1"; "missing"; "f1"] 2 (Some "/c") false 1
      (Some 5) (Toy.world10 7)
    = (Raise (InsufficientFilesError msg), w') /\
    w_disk w' = w_disk (Toy.world10 7).
Proof.
  eexists _, _. split; [vm_compute; reflexivity|].
  eapply (failed_call_leaves_cache_file Toy.hash Toy.diff Z Toy.seed
            Toy.randint Toy.empty_range ["f1"; "missing"; "f1"] 2 (Some "/c") false 1
            (Some 5) (Toy.world10 7));
    [vm_compute; reflexivity | discriminate].
Defined.

Lemma successful_call_persists_candidates_witness :
  exists r w',
    toy_select_diverse_files Toy.paths10 4 (Some "/c") false 3 (Some 13)
      (Toy.world10 7)
    = (Ok r, w') /\
    exists hash_dict cm,
      hashes r = Some hash_dict /\
      CacheManager_init "/c" pickle (w_disk w') = Ok cm /\
      forall p h, dict_get hash_dict p = Some h ->
                  fst (get cm Toy.fs10 p) = Ok (Some h).
Proof.
  eexists _, _. split; [vm_compute; reflexivity|].
  eapply (successful_call_persists_candidates Toy.hash Toy.diff Z Toy.seed
            Toy.randint Toy.empty_range Toy.paths10 4 "/c" false 3 (Some 13) (Toy.world10 7));
    [discriminate | vm_compute; reflexivity].
Defined.

Lemma parallel_distances_match_sequential_witness :
  exists ds,
    toy_distances Toy.world10_sched "aaa" ToyCache.paths1000 Toy.hashes10 1
    = Done (Ok ds) /\
    exists ds',
      toy_distances Toy.world10_sched "aaa" ToyCache.paths1000 Toy.hashes10 4
      = Done (Ok ds') /\
      Permutation ds' ds /\
      (len ToyCache.paths1000 < 1000 \/ w_sched Toy.world10_sched = [] ->
       ds' = ds).
Proof.
  eexists. split; [vm_compute; reflexivity|].
  eapply (parallel_distances_match_sequential Toy.diff Z Toy.world10_sched
            "aaa" ToyCache.paths1000 Toy.hashes10 4);
    [reflexivity | vm_compute; reflexivity].
Defined.

Lemma pool_hashes_match_sequential_witness :
  exists results sequential,
    compute_hashes_parallel Toy.hash Toy.world10_sched
      ["f1"; "missing"; "f3"; "f1"] (-1) false = Ok results /\
    compute_hashes_parallel Toy.hash Toy.world10_sched
      ["f1"; "missing"; "f3"; "f1"] 1 false = Ok sequential /\
    Permutation results sequential /\
    (w_sched Toy.world10_sched = [] -> results = sequential).
Proof.
  exact (pool_hashes_match_sequential Toy.hash Z Toy.world10_sched
           ["f1"; "missing"; "f3"; "f1"] (-1) false eq_refl).
Defined.

Lemma unreadable_cache_fails_before_hashing_witness :
  exists m,
    toy_select_diverse_files Toy.paths10 3 (Some "/c") false 1 (Some 5)
      ToyCache.world_bad
    = (Raise (CacheError m), set_rng ToyCache.world_bad 5).
Proof.
  apply (unreadable_cache_fails_before_hashing Toy.hash Toy.diff Z Toy.seed
           Toy.randint Toy.empty_range Toy.paths10 3 "/c" false 1 (Some 5) ToyCache.world_bad
           5 "pickle data was truncated").
  - vm_compute. split; [reflexivity | discriminate].
  - discriminate.
  - reflexivity.
  - reflexivity.
Defined.

(** With four workers the thousand candidates go out in four chunks of 250;
    when the third chunk completes first, the list starts with its
    distances, not with those of the first candidates. *)
Example pool_distances_come_in_completion_order :
  exists ds ds',
    toy_distances Toy.world10_sched "aaa" ToyCache.paths1000 Toy.hashes10 1
    = Done (Ok ds) /\
    toy_distances Toy.world10_sched "aaa" ToyCache.paths1000 Toy.hashes10 4
    = Done (Ok ds') /\
    hd_error ds = Some 2 /\ hd_error ds' = Some 3.
Proof.
  eexists _, _.
  split; [vm_compute; reflexivity|]. split; [vm_compute; reflexivity|].
  split; reflexivity.
Qed.
